(** * PII analyzer: adaptive scheduler and analysis service

    A shallow embedding of [src/core/worker_management.py] (worker sizing,
    the adaptive control law and the batch loop of
    [process_files_parallel]) and of [src/api/analysis_service.py]
    (the start / stop / clear guards of [AnalysisService]), together with
    the properties of the specification that these two modules decide. *)

From Stdlib Require Import ZArith QArith Lia Bool List.
From stdpp Require Import base option list gmap strings pretty.

Local Open Scope Z_scope.

(** ** Python floats

    [calculate_optimal_workers] mixes ints and floats:
    [int(cpu_count * 0.8)], [total / (1024 * 1024 * 1024)],
    [int((memory_gb * 0.7) / 1.0)].  A finite binary64 value is kept as a
    pair [m * 2^e]; every operation rounds its exact result to 53
    significant bits, ties to even, as IEEE 754 does.  Values too large
    for binary64 are detected where Python raises [OverflowError].  All
    quantities below are zero or at least [2^-31], far above the
    subnormal range, so gradual underflow never occurs and is left out. *)

Module Float.

Record float := mk { mant : Z; expo : Z }.

(** [n / 2^k] rounded to the nearest integer, ties to even
    ([0 <= n], [0 < k]). *)
Definition rne_shift (n k : Z) : Z :=
  let q := Z.shiftr n k in
  let r := n - Z.shiftl q k in
  let half := Z.shiftl 1 (k - 1) in
  if r <? half then q
  else if half <? r then q + 1
  else if Z.even q then q else q + 1.

(** Rounding of the exact value [m * 2^e] to 53 bits. *)
Definition round (m e : Z) : float :=
  let k := Z.log2 (Z.abs m) - 52 in
  if k <=? 0 then mk m e
  else mk (Z.sgn m * rne_shift (Z.abs m) k) (e + k).

(** The magnitude is [2^1024] or more: not a finite binary64 value. *)
Definition too_large (x : float) : bool :=
  negb (mant x =? 0) && (1024 <=? Z.log2 (Z.abs (mant x)) + expo x).

Definition checked (x : float) : option float :=
  if too_large x then None else Some x.

(** int -> float conversion, as performed by [int * float];
    [None] is [OverflowError]. *)
Definition of_int (n : Z) : option float := checked (round n 0).

(** [a / 2**k] on ints (true division, correctly rounded);
    [None] is [OverflowError]. *)
Definition int_truediv_pow2 (a k : Z) : option float := checked (round a (- k)).

(** [x * y] on floats. *)
Definition fmul (x y : float) : float :=
  round (mant x * mant y) (expo x + expo y).

(** [int(x)]: truncation toward zero; [None] is the [OverflowError]
    raised on an infinite argument. *)
Definition to_int (x : float) : option Z :=
  if too_large x then None
  else if 0 <=? expo x then Some (Z.shiftl (mant x) (expo x))
  else Some (Z.quot (mant x) (2 ^ (- expo x))).

(** The exact rational value. *)
Definition to_Q (x : float) : Q :=
  if 0 <=? expo x then inject_Z (mant x * 2 ^ expo x)
  else Qmake (mant x) (Z.to_pos (2 ^ (- expo x))).

(** The float literals of [calculate_optimal_workers]. *)
Definition lit_0_5 : float := mk 1 (-1).
Definition lit_0_75 : float := mk 3 (-2).
Definition lit_0_8 : float := mk 7205759403792794 (-53).
Definition lit_0_9 : float := mk 8106479329266893 (-53).
Definition lit_0_7 : float := mk 6305039478318694 (-53).
Definition lit_0_6 : float := mk 5404319552844595 (-53).

(** [x] is a double nearest to [num / den]: a 53-bit mantissa within
    half a unit in the last place. *)
Definition nearest_to (x : float) (num den : Z) : Prop :=
  2 ^ 52 <= mant x < 2 ^ 53 /\ expo x < 0 /\
  2 * Z.abs (mant x * den - num * 2 ^ (- expo x)) <= den.

End Float.

(** ** Constants of worker_management.py *)

Definition MIN_CPU_UTILIZATION : Q := 60 # 1.
Definition MAX_CPU_UTILIZATION : Q := 80 # 1.

Definition MAX_BATCH_SIZE : Z := 50.
Definition MIN_BATCH_SIZE : Z := 20.
Definition SCALING_INTERVAL : Q := 30 # 1.
Definition WORKER_STEP_SIZE : Z := 10.
Definition WORKER_EMERGENCY_REDUCTION : Z := 20.
Definition BATCH_STEP_SIZE : Z := 10.

Definition MAX_LOAD_FACTOR : Q := 3 # 2.
Definition CRITICAL_LOAD_FACTOR : Q := 2 # 1.

Definition WORKER_TIMEOUT_SECONDS : Z := 180.
Definition MAX_CONSECUTIVE_ERRORS : Z := 50.

(** The literal [0.8] of the load test is the double nearest to 4/5. *)
Definition LOW_LOAD_FACTOR : Q := Float.to_Q Float.lit_0_8.

(** Strict comparison of two readings, [a < b]. *)
Definition Qltb (a b : Q) : bool := negb (Qle_bool b a).

(** ** System probes

    The dictionary returned by [get_system_utilization]; the readings
    are floats, compared here by their exact values. *)

Record utilization := {
  cpu_percent : Q;
  memory_percent : Q;
  load_avg_1min : Q;
  load_factor : Q
}.

(** What psutil reports at the top of [calculate_optimal_workers]:
    [cpu_count] is [None] when psutil cannot determine it. *)
Record system_probe := {
  cpu_count : option Z;
  memory_total : Z
}.

(** ** calculate_optimal_workers *)

(** [int(cpu_count * lit)] *)
Definition int_scaled (n : Z) (lit : Float.float) : option Z :=
  x ← Float.of_int n; Float.to_int (Float.fmul x lit).

(** [int((memory_gb * lit) / 1.0)]: dividing by [1.0] is exact. *)
Definition max_by_memory (memory_gb lit : Float.float) : option Z :=
  Float.to_int (Float.fmul memory_gb lit).

(** The adjustment of a running pool: lines 154-194. *)
Definition adjust_workers (current_workers : Z) (utilization_info : utilization) : Z :=
  let current_cpu := cpu_percent utilization_info in
  let current_memory := memory_percent utilization_info in
  let current_load_factor := load_factor utilization_info in
  if Qltb CRITICAL_LOAD_FACTOR current_load_factor then
    let reduction := Z.min WORKER_EMERGENCY_REDUCTION (current_workers / 3) in
    Z.max 8 (current_workers - reduction)
  else if Qltb MAX_LOAD_FACTOR current_load_factor then
    let reduction := Z.min (WORKER_STEP_SIZE * 2) (current_workers / 5) in
    Z.max 8 (current_workers - reduction)
  else if Qltb current_cpu MIN_CPU_UTILIZATION && Qltb current_memory (80 # 1)
          && Qltb current_load_factor LOW_LOAD_FACTOR then
    current_workers + WORKER_STEP_SIZE
  else if Qltb MAX_CPU_UTILIZATION current_cpu || Qltb (90 # 1) current_memory then
    Z.max 8 (current_workers - WORKER_STEP_SIZE)
  else current_workers.

(** The sizing of a fresh pool: lines 196-242.  [None] stands for an
    exception raised on the way ([TypeError] on a missing CPU count,
    [OverflowError] in a conversion). *)
Definition initial_workers (cpu_count : option Z) (memory_gb : Float.float) : option Z :=
  cpu_count ← cpu_count;
  if 96 <=? cpu_count then
    base_workers ← int_scaled cpu_count Float.lit_0_5;
    max_by_memory ← max_by_memory memory_gb Float.lit_0_7;
    Some (Z.min (Z.min base_workers max_by_memory) 64)
  else if 32 <=? cpu_count then
    scaled ← int_scaled cpu_count Float.lit_0_75;
    let base_workers := Z.min 24 scaled in
    max_by_memory ← max_by_memory memory_gb Float.lit_0_6;
    Some (Z.min base_workers max_by_memory)
  else if 8 <=? cpu_count then
    scaled ← int_scaled cpu_count Float.lit_0_8;
    let base_workers := Z.max 4 scaled in
    max_by_memory ← max_by_memory memory_gb Float.lit_0_6;
    Some (Z.min base_workers max_by_memory)
  else
    scaled ← int_scaled cpu_count Float.lit_0_9;
    let base_workers := Z.max 2 scaled in
    max_by_memory ← max_by_memory memory_gb Float.lit_0_6;
    Some (Z.min base_workers max_by_memory).

(** The body of the [try] block; [None] is any exception. *)
Definition calculate_optimal_workers_try (probe : option system_probe)
    (current_workers : option Z) (utilization_info : option utilization) : option Z :=
  p ← probe;
  memory_gb ← Float.int_truediv_pow2 (memory_total p) 30;
  match current_workers, utilization_info with
  | Some w, Some u => Some (adjust_workers w u)
  | _, _ => initial_workers (cpu_count p) memory_gb
  end.

(** [probe] is [None] when psutil itself raises.  Every exception is
    caught and answered with the fallback 16. *)
Definition calculate_optimal_workers (probe : option system_probe)
    (current_workers : option Z) (utilization_info : option utilization) : Z :=
  default 16 (calculate_optimal_workers_try probe current_workers utilization_info).

(** ** The analysis service (analysis_service.py) *)

Inductive AnalysisState :=
  IDLE | SCANNING | PROCESSING | STOPPING | COMPLETED | ERROR.

(** [AnalysisState.value] *)
Definition value (s : AnalysisState) : string :=
  match s with
  | IDLE => "idle" | SCANNING => "scanning" | PROCESSING => "processing"
  | STOPPING => "stopping" | COMPLETED => "completed" | ERROR => "error"
  end.

(** What the service touches outside itself: the file system (a path
    names a regular file or a directory, or nothing) and the threads it
    has started, each running [_run_analysis]. *)
Inductive node := RegularFile | Directory.

Inductive thread_target := run_analysis_target.

Record world := {
  fs : gmap string node;
  threads : list thread_target
}.

Definition os_path_isdir (w : world) (p : string) : bool :=
  match fs w !! p with Some Directory => true | _ => false end.

Definition os_path_exists (w : world) (p : string) : bool :=
  match fs w !! p with Some _ => true | None => false end.

(** [os.remove]: unlinks a regular file; raises [OSError] on a directory
    or a missing path (the error text is returned on the left). *)
Definition os_remove (w : world) (p : string) : string + world :=
  match fs w !! p with
  | Some RegularFile => inr {| fs := delete p (fs w); threads := threads w |}
  | Some Directory => inl ("[Errno 21] Is a directory: '" +:+ p +:+ "'")
  | None => inl ("[Errno 2] No such file or directory: '" +:+ p +:+ "'")
  end.

(** The fields of [AnalysisService] set in [__init__]; times are
    [datetime] values, kept as seconds. *)
Record AnalysisService := {
  _state : AnalysisState;
  _current_job_id : option Z;
  _analysis_thread : option nat;
  _stop_requested : bool;
  _progress : gmap string Z;
  _error_message : option string;
  _db_path : string;
  _data_path : string;
  _start_time : option Z;
  _end_time : option Z
}.

(** The dictionaries returned by the control operations. *)
Record response := {
  success : bool;
  error : option string;
  message : option string;
  state : string
}.

Definition is_running (self : AnalysisService) : bool :=
  match _state self with
  | SCANNING | PROCESSING => true
  | _ => false
  end.

(** The [can_start] entry of [get_status]. *)
Definition can_start (self : AnalysisService) : bool :=
  match _state self with IDLE => true | _ => false end.

(** [now] is the reading of [datetime.now()].  The response of a
    successful call is built after the thread has been started, and the
    thread assigns [_state] as it goes: [seen] is the value of
    [self._state] read for the response ('scanning' once the thread has
    run its first statement, the earlier state before that). *)
Definition start_analysis (now : Z) (seen : AnalysisState) (self : AnalysisService)
    (w : world) : response * AnalysisService * world :=
  if is_running self then
    ({| success := false; error := Some "Analysis is already running";
        message := None; state := value (_state self) |}, self, w)
  else if negb (os_path_isdir w (_data_path self)) then
    ({| success := false;
        error := Some ("Data path does not exist: " +:+ _data_path self);
        message := None; state := value (_state self) |}, self, w)
  else
    let self' :=
      {| _state := _state self;
         _current_job_id := _current_job_id self;
         _analysis_thread := Some (length (threads w));
         _stop_requested := false;
         _progress := ∅;
         _error_message := None;
         _db_path := _db_path self;
         _data_path := _data_path self;
         _start_time := Some now;
         _end_time := None |} in
    let w' := {| fs := fs w; threads := threads w ++ [run_analysis_target] |} in
    ({| success := true; error := None; message := Some "Analysis started";
        state := value seen |}, self', w').

Definition stop_analysis (self : AnalysisService) : response * AnalysisService :=
  if negb (is_running self) then
    ({| success := false; error := Some "No analysis is running";
        message := None; state := value (_state self) |}, self)
  else
    let self' :=
      {| _state := STOPPING;
         _current_job_id := _current_job_id self;
         _analysis_thread := _analysis_thread self;
         _stop_requested := true;
         _progress := _progress self;
         _error_message := _error_message self;
         _db_path := _db_path self;
         _data_path := _data_path self;
         _start_time := _start_time self;
         _end_time := _end_time self |} in
    ({| success := true; error := None;
        message := Some "Stop requested. Analysis will stop after current batch completes.";
        state := value (_state self') |}, self').

(** The in-memory reset of [clear_results]. *)
Definition reset_state (self : AnalysisService) : AnalysisService :=
  {| _state := IDLE;
     _current_job_id := None;
     _analysis_thread := _analysis_thread self;
     _stop_requested := _stop_requested self;
     _progress := ∅;
     _error_message := None;
     _db_path := _db_path self;
     _data_path := _data_path self;
     _start_time := None;
     _end_time := None |}.

Definition clear_results (self : AnalysisService) (w : world)
  : response * AnalysisService * world :=
  if is_running self then
    ({| success := false;
        error := Some "Cannot clear results while analysis is running";
        message := None; state := value (_state self) |}, self, w)
  else
    let removed :=
      if os_path_exists w (_db_path self) then os_remove w (_db_path self)
      else inr w in
    match removed with
    | inr w' =>
        let self' := reset_state self in
        ({| success := true; error := None;
            message := Some "Results cleared successfully";
            state := value (_state self') |}, self', w')
    | inl e =>
        ({| success := false; error := Some e; message := None;
            state := value (_state self) |}, self, w)
    end.

(** ** The result store

    [src/database/db_utils.py] is not part of the sources at hand; the
    scheduler only calls it.  Its tables and the operations used by
    [process_files_parallel] follow sections 3 and 4.1 of the
    specification. *)

Inductive file_status := FilePending | FileProcessing | FileCompleted | FileError.

#[global] Instance file_status_eq_dec : EqDecision file_status.
Proof. solve_decision. Defined.

Record entity := {
  entity_type : string;
  text : string;
  score : Q;
  start_pos : Z;
  end_pos : Z
}.

Record file_row := {
  file_id : Z;
  file_job_id : Z;
  file_path : string;
  status : file_status;
  error_message : option string;
  processing_time_seconds : option Q
}.

Record job_row := {
  job_id : Z;
  directory : string;
  job_status : string;
  processed_files : Z;
  error_files : Z
}.

(** Modelled from the spec: the persisted tables [jobs], [files] and
    [entities] of the Result Store, which db_utils.py (absent) owns.
    [files] lists the rows by ascending [file_id], the order in which
    discovery inserted them. *)
Record PIIDatabase := {
  jobs : list job_row;
  files : list file_row;
  entities : list (Z * entity)
}.

Definition set_status (r : file_row) (s : file_status) (msg : option string) : file_row :=
  {| file_id := file_id r; file_job_id := file_job_id r; file_path := file_path r;
     status := s; error_message := msg;
     processing_time_seconds := processing_time_seconds r |}.

Definition with_files (db : PIIDatabase) (fl : list file_row) : PIIDatabase :=
  {| jobs := jobs db; files := fl; entities := entities db |}.

Definition with_jobs (db : PIIDatabase) (jl : list job_row) : PIIDatabase :=
  {| jobs := jl; files := files db; entities := entities db |}.

Definition is_pending_of (job : Z) (r : file_row) : bool :=
  (file_job_id r =? job) && bool_decide (status r = FilePending).

(** Modelled from the spec: [GetPendingFiles(job_id, limit)] of the absent
    db_utils.py, "returns up to [limit] rows with [status = pending],
    ordered by [file_id] ascending". *)
Definition get_pending_files (db : PIIDatabase) (job limit : Z) : list (Z * string) :=
  take (Z.to_nat limit)
       (map (fun r => (file_id r, file_path r))
            (filter (fun r => is_pending_of job r = true) (files db))).

(** A conditional update [from -> to] of the rows with the given id:
    the new table and the number of rows updated. *)
Definition transition (fl : list file_row) (id : Z) (from to : file_status)
    (msg : option string) : list file_row * nat :=
  let hit r := (file_id r =? id) && bool_decide (status r = from) in
  (map (fun r => if hit r then set_status r to msg else r) fl,
   length (filter (fun r => hit r = true) fl)).

(** Modelled from the spec: [MarkFileProcessing(file_id)] of the absent
    db_utils.py, "conditional update [pending -> processing]; returns
    [true] iff exactly one row was updated". *)
Definition mark_file_processing (db : PIIDatabase) (id : Z) : bool * PIIDatabase :=
  let '(fl, n) := transition (files db) id FilePending FileProcessing None in
  (Nat.eqb n 1, with_files db fl).

(** Modelled from the spec: [StoreFileResults(file_id, processing_time,
    entities, metadata)] of the absent db_utils.py, "inserts entity rows
    and writes metadata in one transaction". *)
Definition store_file_results (db : PIIDatabase) (id : Z) (processing_time : Q)
    (found : list entity) : PIIDatabase :=
  {| jobs := jobs db;
     files := map (fun r => if file_id r =? id
                            then {| file_id := file_id r; file_job_id := file_job_id r;
                                    file_path := file_path r; status := status r;
                                    error_message := error_message r;
                                    processing_time_seconds := Some processing_time |}
                            else r) (files db);
     entities := entities db ++ map (fun e => (id, e)) found |}.

Definition bump (jl : list job_row) (job : Z) (dp de : Z) : list job_row :=
  map (fun j => if job_id j =? job
                then {| job_id := job_id j; directory := directory j;
                        job_status := job_status j;
                        processed_files := processed_files j + dp;
                        error_files := error_files j + de |}
                else j) jl.

(** Modelled from the spec: [MarkFileCompleted(file_id, job_id)] of the
    absent db_utils.py, "conditional update [processing -> completed];
    increments job [processed_files]" (by the number of rows updated). *)
Definition mark_file_completed (db : PIIDatabase) (id job : Z) : PIIDatabase :=
  let '(fl, n) := transition (files db) id FileProcessing FileCompleted None in
  {| jobs := bump (jobs db) job (Z.of_nat n) 0; files := fl; entities := entities db |}.

(** Modelled from the spec: [MarkFileError(file_id, job_id, msg)] of the
    absent db_utils.py, "conditional update [processing -> error];
    increments job [error_files]" (by the number of rows updated). *)
Definition mark_file_error (db : PIIDatabase) (id job : Z) (msg : string) : PIIDatabase :=
  let '(fl, n) := transition (files db) id FileProcessing FileError (Some msg) in
  {| jobs := bump (jobs db) job 0 (Z.of_nat n); files := fl; entities := entities db |}.

(** Modelled from the spec: [UpdateJobStatus(job_id, status)] of the
    absent db_utils.py, "unconditional status write". *)
Definition update_job_status (db : PIIDatabase) (job : Z) (s : string) : PIIDatabase :=
  with_jobs db
    (map (fun j => if job_id j =? job
                   then {| job_id := job_id j; directory := directory j; job_status := s;
                           processed_files := processed_files j;
                           error_files := error_files j |}
                   else j) (jobs db)).

(** Reading a row back. *)
Definition file_status_of (db : PIIDatabase) (id : Z) : option file_status :=
  status <$> List.find (fun r => file_id r =? id) (files db).

Definition file_error_of (db : PIIDatabase) (id : Z) : option string :=
  r ← List.find (fun r => file_id r =? id) (files db); error_message r.

Definition job_status_of (db : PIIDatabase) (job : Z) : option string :=
  job_status <$> List.find (fun j => job_id j =? job) (jobs db).

Definition pending_count (db : PIIDatabase) (job : Z) : nat :=
  length (filter (fun r => is_pending_of job r = true) (files db)).

(** ** Workers and futures *)

(** The exceptions the scheduler distinguishes:
    [concurrent.futures.TimeoutError] and any other [Exception]. *)
Inductive exn := TimeoutError (msg : string) | OtherException (msg : string).

Definition str (e : exn) : string :=
  match e with TimeoutError m => m | OtherException m => m end.

(** What [analyze_file] does with one file: it returns its dictionary or
    raises. *)
Record analysis := {
  a_success : bool;
  a_entities : list entity;
  a_error_message : option string
}.

Inductive analyzer_behaviour :=
  | analyzer_returns (a : analysis)
  | analyzer_raises (msg : string).

(** The dictionary a worker sends back. *)
Record worker_result := {
  res_file_id : Z;
  res_file_path : string;
  res_success : bool;
  res_entities : list entity;
  res_error_message : option string;
  res_processing_time : Q
}.

(** The worker entry point: the analyzer's dictionary tagged with the
    file, or the standard error dictionary when the analyzer raises.
    [elapsed] is the worker's own timing. *)
Definition process_single_file_process_safe (id : Z) (path : string)
    (b : analyzer_behaviour) (elapsed : Q) : worker_result :=
  match b with
  | analyzer_returns a =>
      {| res_file_id := id; res_file_path := path;
         res_success := a_success a; res_entities := a_entities a;
         res_error_message := a_error_message a;
         res_processing_time := elapsed |}
  | analyzer_raises msg =>
      {| res_file_id := id; res_file_path := path;
         res_success := false; res_entities := [];
         res_error_message := Some ("Worker process exception: " +:+ msg);
         res_processing_time := elapsed |}
  end.

(** How one submitted call unfolds, as decided by the pool and the
    analyzer: the call waits [queued_seconds] for a free process, runs
    [run_seconds], and either hands back the worker's dictionary or, when
    [pool_failure] is set, leaves an exception in its future (a broken
    pool, a result that cannot be sent back).  [pool_failure] is the text
    of that exception; it is never a timeout: the worker entry point
    catches every [Exception], and [result] is only asked of futures
    that are done.  When [hangs] is set the call never comes to an end
    (the analyzer is stuck on the file) and its future is never done,
    its times being immaterial. *)
Record worker_run := {
  queued_seconds : Q;
  run_seconds : Q;
  behaviour : analyzer_behaviour;
  pool_failure : option string;
  hangs : bool
}.

Inductive future_outcome :=
  | Returned (r : worker_result)
  | Raised (e : exn).

(** A future together with its [submitted_files] entry; [done_at] is the
    time at which it completes, counted from the call of
    [as_completed]. *)
Record future := {
  fut_file_id : Z;
  fut_file_path : string;
  fut_run : worker_run;
  done_at : Q;
  outcome : future_outcome
}.

Definition submit_future (id : Z) (path : string) (r : worker_run) : future :=
  {| fut_file_id := id; fut_file_path := path; fut_run := r;
     done_at := (queued_seconds r + run_seconds r)%Q;
     outcome := match pool_failure r with
                | Some msg => Raised (OtherException msg)
                | None => Returned (process_single_file_process_safe id path
                                      (behaviour r) (run_seconds r))
                end |}.

(** A future is done by [timeout] when its call does not hang and ends
    within that time. *)
Definition done_by (timeout : Q) (f : future) : bool :=
  negb (hangs (fut_run f)) && Qle_bool (done_at f) timeout.

(** [concurrent.futures.as_completed(fs, timeout)] yields each future
    once it is done, earliest first, and raises [TimeoutError] from the
    iterator when futures are still unfinished [timeout] seconds after
    the call.  The pair is the futures yielded, in order, and whether the
    iterator then raises. *)
Fixpoint insert_by_done (f : future) (l : list future) : list future :=
  match l with
  | [] => [f]
  | g :: l' => if Qltb (done_at g) (done_at f) then g :: insert_by_done f l'
               else f :: g :: l'
  end.

Definition as_completed (fs : list future) (timeout : Q) : list future * bool :=
  (foldr insert_by_done [] (filter (fun f => done_by timeout f = true) fs),
   existsb (fun f => negb (done_by timeout f)) fs).

(** The exception raised by the iterator of [as_completed]. *)
Definition unfinished (fs : list future) (timeout : Q) : exn :=
  TimeoutError
    (pretty (length (filter (fun f => done_by timeout f = false) fs))
     +:+ " (of " +:+ pretty (length fs) +:+ ") futures unfinished").

(** [future.result(timeout)] on a future that [as_completed] has yielded:
    the future is done, so the call returns its result or raises its
    exception at once, whatever [timeout] is. *)
Definition result (f : future) (timeout : Z) : future_outcome := outcome f.

(** ** process_files_parallel *)

(** The events handed to [progress_callback]. *)
Record progress_event := {
  ev_type : string;
  ev_file_id : option Z;
  ev_file_path : option string;
  ev_entities : list entity;
  ev_error : option string
}.

(** [stop_event.is_set()] as read at the top of iteration [k] and at the
    [i]-th completion of iteration [k]. *)
Record stop_signal := {
  is_set_at_top : nat -> bool;
  is_set_at_completion : nat -> nat -> bool
}.

(** Everything the scheduler reads from outside, indexed by the
    iteration of the batch loop (logging is left out throughout). *)
Record environment := {
  clock_start : Q;
  clock_at_check : nat -> Q;
  clock_after_check : nat -> Q;
  get_system_utilization : nat -> utilization;
  probe_at_start : option system_probe;
  probe_at_check : nat -> option system_probe;
  memory_after_batch : nat -> Q;
  run_of : nat -> Z -> string -> worker_run
}.

Record scaling_stats := {
  adjustments : Z;
  worker_increases : Z;
  worker_decreases : Z;
  batch_increases : Z;
  batch_decreases : Z
}.

(** The arguments of [process_files_parallel]; [progress_callback] tells
    whether a callback was passed, its calls are recorded in the sink. *)
Record arguments := {
  arg_job_id : Z;
  max_workers : option Z;
  batch_size : Z;
  max_files : option Z;
  progress_callback : bool;
  enable_dynamic_scaling : bool;
  stop_event : option stop_signal
}.

Definition stop_is_set_at_top (a : arguments) (k : nat) : bool :=
  match stop_event a with Some ev => is_set_at_top ev k | None => false end.

Definition stop_is_set_at_completion (a : arguments) (k i : nat) : bool :=
  match stop_event a with Some ev => is_set_at_completion ev k i | None => false end.

(** The state threaded through the completions of one batch. *)
Record drain_state := {
  d_db : PIIDatabase;
  d_sink : list progress_event;
  d_processed_count : Z;
  d_error_count : Z;
  d_consecutive_errors : Z;
  d_stop_requested : bool
}.

Definition call_back (cb : bool) (sink : list progress_event) (ev : progress_event)
  : list progress_event :=
  if cb then sink ++ [ev] else sink.

(** The body of the [for future in as_completed(...)] loop. *)
Definition handle_completion (a : arguments) (stop_set : bool) (f : future)
    (st : drain_state) : drain_state :=
  let stop_requested := d_stop_requested st || stop_set in
  match result f WORKER_TIMEOUT_SECONDS with
  | Returned r =>
      let ev :=
        {| ev_type := if res_success r then "file_completed" else "file_error";
           ev_file_id := Some (res_file_id r);
           ev_file_path := Some (res_file_path r);
           ev_entities := res_entities r;
           ev_error := if res_success r then None else res_error_message r |} in
      if res_success r then
        let db1 := store_file_results (d_db st) (res_file_id r)
                     (res_processing_time r) (res_entities r) in
        let db2 := mark_file_completed db1 (res_file_id r) (arg_job_id a) in
        let consecutive_errors := 0 in
        {| d_db := db2;
           d_sink := call_back (progress_callback a) (d_sink st) ev;
           d_processed_count := d_processed_count st + 1;
           d_error_count := d_error_count st;
           d_consecutive_errors := consecutive_errors;
           d_stop_requested :=
             stop_requested || (MAX_CONSECUTIVE_ERRORS <=? consecutive_errors) |}
      else
        let error_msg := default "Unknown error" (res_error_message r) in
        let db1 := mark_file_error (d_db st) (res_file_id r) (arg_job_id a) error_msg in
        let consecutive_errors := d_consecutive_errors st + 1 in
        {| d_db := db1;
           d_sink := call_back (progress_callback a) (d_sink st) ev;
           d_processed_count := d_processed_count st;
           d_error_count := d_error_count st + 1;
           d_consecutive_errors := consecutive_errors;
           d_stop_requested :=
             stop_requested || (MAX_CONSECUTIVE_ERRORS <=? consecutive_errors) |}
  | Raised (TimeoutError _) =>
      let db1 := if fut_file_id f =? 0 then d_db st
                 else mark_file_error (d_db st) (fut_file_id f) (arg_job_id a)
                        "Processing timeout (180s)" in
      {| d_db := db1;
         d_sink := d_sink st;
         d_processed_count := d_processed_count st;
         d_error_count := d_error_count st + 1;
         d_consecutive_errors := d_consecutive_errors st + 1;
         d_stop_requested := stop_requested |}
  | Raised (OtherException _ as e) =>
      {| d_db := d_db st;
         d_sink := call_back (progress_callback a) (d_sink st)
                     {| ev_type := "file_error"; ev_file_id := None;
                        ev_file_path := None; ev_entities := [];
                        ev_error := Some (str e) |};
         d_processed_count := d_processed_count st;
         d_error_count := d_error_count st + 1;
         d_consecutive_errors := d_consecutive_errors st + 1;
         d_stop_requested := stop_requested |}
  end.

(** The completions of iteration [k], in the order [as_completed] yields
    them; [i] numbers them. *)
Fixpoint drain_from (a : arguments) (k i : nat) (fs : list future) (st : drain_state)
  : drain_state :=
  match fs with
  | [] => st
  | f :: fs' =>
      drain_from a k (S i) fs'
        (handle_completion a (stop_is_set_at_completion a k i) f st)
  end.

(** The submission loop: claim each row, submit the ones claimed. *)
Fixpoint submit (env : environment) (k : nat) (db : PIIDatabase)
    (pending_files : list (Z * string)) : list future * PIIDatabase :=
  match pending_files with
  | [] => ([], db)
  | (id, path) :: rest =>
      let '(claimed, db1) := mark_file_processing db id in
      let '(futures, db2) := submit env k db1 rest in
      if claimed then (submit_future id path (run_of env k id path) :: futures, db2)
      else (futures, db2)
  end.

(** One entry per iteration that reached the claim step, kept for
    stating properties of a run: the batch size in force, the rows read,
    the futures submitted (one per successful claim), the futures
    drained, whether [as_completed] ran out of time, and the values of
    [consecutive_errors] and [stop_requested] when the drain ended. *)
Record batch_record := {
  b_index : nat;
  b_batch_size : Z;
  b_pending : list (Z * string);
  b_submitted : list future;
  b_drained : list future;
  b_timed_out : bool;
  b_consecutive_errors : Z;
  b_stop_requested : bool
}.

(** The variables of the batch loop. *)
Record loop_state := {
  l_db : PIIDatabase;
  l_sink : list progress_event;
  processed_count : Z;
  error_count : Z;
  current_batch_size : Z;
  current_max_workers : Z;
  last_scaling_check : Q;
  l_scaling_stats : scaling_stats;
  l_trace : list batch_record
}.

Definition count_batch_decrease (s : scaling_stats) : scaling_stats :=
  {| adjustments := adjustments s; worker_increases := worker_increases s;
     worker_decreases := worker_decreases s; batch_increases := batch_increases s;
     batch_decreases := batch_decreases s + 1 |}.

Definition count_batch_increase (s : scaling_stats) : scaling_stats :=
  {| adjustments := adjustments s; worker_increases := worker_increases s;
     worker_decreases := worker_decreases s; batch_increases := batch_increases s + 1;
     batch_decreases := batch_decreases s |}.

Definition count_worker_change (s : scaling_stats) (up : bool) : scaling_stats :=
  {| adjustments := adjustments s + 1;
     worker_increases := if up then worker_increases s + 1 else worker_increases s;
     worker_decreases := if up then worker_decreases s else worker_decreases s + 1;
     batch_increases := batch_increases s; batch_decreases := batch_decreases s |}.

(** The emergency clamp of the batch size: lines 338-343. *)
Definition emergency_batch (u : utilization) (bs : Z) : Z :=
  if Qltb CRITICAL_LOAD_FACTOR (load_factor u) then
    if MIN_BATCH_SIZE <? bs then MIN_BATCH_SIZE else bs
  else bs.

(** The branch taken by the batch-size adjustment of lines 358-371:
    [Some true] to grow, [Some false] to shrink. *)
Definition batch_rule (u : utilization) : option bool :=
  if Qltb (load_factor u) LOW_LOAD_FACTOR && Qltb (cpu_percent u) MIN_CPU_UTILIZATION
     && Qltb (memory_percent u) (80 # 1) then Some true
  else if Qltb MAX_LOAD_FACTOR (load_factor u) || Qltb MAX_CPU_UTILIZATION (cpu_percent u)
          || Qltb (90 # 1) (memory_percent u) then Some false
  else None.

(** The adjustment of the batch size: lines 358-371. *)
Definition adjust_batch (u : utilization) (bs : Z) : Z :=
  match batch_rule u with
  | Some true => Z.min MAX_BATCH_SIZE (bs + BATCH_STEP_SIZE)
  | Some false => Z.max MIN_BATCH_SIZE (bs - BATCH_STEP_SIZE)
  | None => bs
  end.

(** The halving after a batch under memory pressure: lines 551-555. *)
Definition relieve_memory (mem_percent : Q) (bs : Z) : Z :=
  if Qltb (90 # 1) mem_percent then Z.max MIN_BATCH_SIZE (bs / 2) else bs.

(** The dynamic scaling block of iteration [k]: lines 326-374. *)
Definition adapt (env : environment) (k : nat) (st : loop_state) : loop_state :=
  let u := get_system_utilization env k in
  let bs1 := emergency_batch u (current_batch_size st) in
  let stats1 := if bs1 =? current_batch_size st then l_scaling_stats st
                else count_batch_decrease (l_scaling_stats st) in
  let new_workers :=
    calculate_optimal_workers (probe_at_check env k)
      (Some (current_max_workers st)) (Some u) in
  let stats2 := if new_workers =? current_max_workers st then stats1
                else count_worker_change stats1 (current_max_workers st <? new_workers) in
  let bs2 := adjust_batch u bs1 in
  let stats3 := if bs2 =? bs1 then stats2
                else match batch_rule u with
                     | Some true => count_batch_increase stats2
                     | Some false => count_batch_decrease stats2
                     | None => stats2
                     end in
  {| l_db := l_db st; l_sink := l_sink st;
     processed_count := processed_count st; error_count := error_count st;
     current_batch_size := bs2;
     current_max_workers := new_workers;
     last_scaling_check := clock_after_check env k;
     l_scaling_stats := stats3;
     l_trace := l_trace st |}.

Inductive loop_exit :=
  | loop_done (files_remaining : bool)
  | loop_raised (e : exn).

(** [max_files is None or processed_count < max_files] *)
Definition below_max_files (a : arguments) (st : loop_state) : bool :=
  match max_files a with None => true | Some m => processed_count st <? m end.

(** [min(current_batch_size, max_files - processed_count if max_files
    else current_batch_size)] *)
Definition batch_limit (a : arguments) (st : loop_state) : Z :=
  Z.min (current_batch_size st)
        (match max_files a with
         | Some m => if m =? 0 then current_batch_size st else m - processed_count st
         | None => current_batch_size st
         end).

(** The loop variables at the start of a drain, and after it. *)
Definition start_drain (db : PIIDatabase) (st : loop_state) : drain_state :=
  {| d_db := db; d_sink := l_sink st;
     d_processed_count := processed_count st;
     d_error_count := error_count st;
     d_consecutive_errors := 0;
     d_stop_requested := false |}.

Definition after_drain (st : loop_state) (d : drain_state) (b : batch_record) : loop_state :=
  {| l_db := d_db d; l_sink := d_sink d;
     processed_count := d_processed_count d;
     error_count := d_error_count d;
     current_batch_size := current_batch_size st;
     current_max_workers := current_max_workers st;
     last_scaling_check := last_scaling_check st;
     l_scaling_stats := l_scaling_stats st;
     l_trace := l_trace st ++ [b] |}.

Definition with_batch_size (st : loop_state) (bs : Z) : loop_state :=
  {| l_db := l_db st; l_sink := l_sink st;
     processed_count := processed_count st;
     error_count := error_count st;
     current_batch_size := bs;
     current_max_workers := current_max_workers st;
     last_scaling_check := last_scaling_check st;
     l_scaling_stats := l_scaling_stats st;
     l_trace := l_trace st |}.

(** [enable_dynamic_scaling and time.time() - last_scaling_check >
    SCALING_INTERVAL] *)
Definition scaling_due (env : environment) (a : arguments) (k : nat) (st : loop_state)
  : bool :=
  enable_dynamic_scaling a
  && Qltb SCALING_INTERVAL (clock_at_check env k - last_scaling_check st)%Q.

(** The deadline handed to [as_completed]: [WORKER_TIMEOUT_SECONDS * 2]. *)
Definition BATCH_DEADLINE : Q := inject_Z (WORKER_TIMEOUT_SECONDS * 2).

(** Claim, submit and drain one batch: the drain's final state and the
    record of the batch. *)
Definition run_batch (env : environment) (a : arguments) (k : nat) (st : loop_state)
    (pending_files : list (Z * string)) : drain_state * batch_record :=
  let '(futures, db1) := submit env k (l_db st) pending_files in
  let '(yielded, timed_out) := as_completed futures BATCH_DEADLINE in
  let d := drain_from a k 0 yielded (start_drain db1 st) in
  (d, {| b_index := k; b_batch_size := current_batch_size st;
         b_pending := pending_files; b_submitted := futures;
         b_drained := yielded; b_timed_out := timed_out;
         b_consecutive_errors := d_consecutive_errors d;
         b_stop_requested := d_stop_requested d |}).

(** The loop variables once the scaling block of iteration [k] is
    passed. *)
Definition prepared (env : environment) (a : arguments) (k : nat) (st : loop_state)
  : loop_state :=
  if scaling_due env a k st then adapt env k st else st.

(** Iteration [k] of the [while] loop: either the loop is left (by its
    condition, a [break] or an exception) or the next iteration starts
    from the new variables. *)
Definition iteration (env : environment) (a : arguments) (k : nat) (st : loop_state)
  : (loop_exit * loop_state) + loop_state :=
  if negb (below_max_files a st) then inl (loop_done true, st)
  else if stop_is_set_at_top a k then inl (loop_done false, st)
  else
    let st1 := prepared env a k st in
    let pending_files := get_pending_files (l_db st1) (arg_job_id a) (batch_limit a st1) in
    match pending_files with
    | [] => inl (loop_done false, st1)
    | _ :: _ =>
        let '(d, b) := run_batch env a k st1 pending_files in
        let st2 := after_drain st1 d b in
        if b_timed_out b
        then inl (loop_raised (unfinished (b_submitted b) BATCH_DEADLINE), st2)
        else if d_stop_requested d then inl (loop_done false, st2)
        else
          inr (with_batch_size st2
                 (relieve_memory (memory_after_batch env k) (current_batch_size st2)))
    end.

(** The [while] loop, iteration [k] onwards.  [fuel] bounds the number
    of iterations; [None] means it ran out. *)
Fixpoint batch_loop (fuel : nat) (env : environment) (a : arguments) (k : nat)
    (st : loop_state) : option (loop_exit * loop_state) :=
  match fuel with
  | O => None
  | S fuel' =>
      match iteration env a k st with
      | inl out => Some out
      | inr st' => batch_loop fuel' env a (S k) st'
      end
  end.

(** The dictionary returned by [process_files_parallel] (without the
    timing entries). *)
Record return_value := {
  ret_processed : Z;
  ret_errors : Z;
  ret_status : string;
  ret_scaling_stats : option scaling_stats
}.

Inductive completion :=
  | returns (r : return_value)
  | raises (e : exn)
  | blocks.

(** A call: how it ended, or that it never comes back ([blocks]), the
    store and the sink it left, and the final loop variables. *)
Record run := {
  run_completion : completion;
  run_db : PIIDatabase;
  run_sink : list progress_event;
  run_final : option loop_state
}.

Definition no_scaling : scaling_stats :=
  {| adjustments := 0; worker_increases := 0; worker_decreases := 0;
     batch_increases := 0; batch_decreases := 0 |}.

Definition initial_state (env : environment) (db : PIIDatabase) (a : arguments)
    (workers : Z) : loop_state :=
  {| l_db := db; l_sink := []; processed_count := 0; error_count := 0;
     current_batch_size := batch_size a;
     current_max_workers := workers;
     last_scaling_check := clock_start env;
     l_scaling_stats := no_scaling;
     l_trace := [] |}.

(** [if not max_workers: max_workers = calculate_optimal_workers()] *)
Definition resolve_workers (env : environment) (a : arguments) : Z :=
  match max_workers a with
  | Some w => if w =? 0 then calculate_optimal_workers (probe_at_start env) None None else w
  | None => calculate_optimal_workers (probe_at_start env) None None
  end.

(** The code after the loop: lines 567-581. *)
Definition finish (a : arguments) (files_remaining : bool) (st : loop_state) : run :=
  let s := if negb files_remaining then "completed" else "interrupted" in
  {| run_completion :=
       returns {| ret_processed := processed_count st;
                  ret_errors := error_count st;
                  ret_status := s;
                  ret_scaling_stats :=
                    if enable_dynamic_scaling a then Some (l_scaling_stats st) else None |};
     run_db := update_job_status (l_db st) (arg_job_id a) s;
     run_sink := l_sink st;
     run_final := Some st |}.

(** An exception that leaves the loop leaves the [with
    ProcessPoolExecutor] block, whose exit shuts the pool down and waits
    for the calls still running: with a call that hangs among those of
    the batch that ran out of time, the wait never ends. *)
Definition pool_shutdown_hangs (st : loop_state) : bool :=
  match last (l_trace st) with
  | Some b => existsb (fun f => hangs (fut_run f)) (b_submitted b)
  | None => false
  end.

(** The whole call, given enough [fuel] for the loop.
    [ProcessPoolExecutor] rejects a worker count that is not positive
    with [ValueError]; an exception leaving the loop leaves the function
    before the job status is written, once the pool has shut down. *)
Definition process_files_parallel_fuel (fuel : nat) (env : environment)
    (db : PIIDatabase) (a : arguments) : option run :=
  let workers := resolve_workers env a in
  if workers <=? 0 then
    Some {| run_completion :=
              raises (OtherException "max_workers must be greater than 0");
            run_db := db; run_sink := []; run_final := None |}
  else
    '(exit, st) ← batch_loop fuel env a 0 (initial_state env db a workers);
    match exit with
    | loop_done files_remaining => Some (finish a files_remaining st)
    | loop_raised e =>
        Some {| run_completion := if pool_shutdown_hangs st then blocks else raises e;
                run_db := l_db st; run_sink := l_sink st; run_final := Some st |}
    end.

(** Every iteration but the last claims at least one pending row, so
    one more iteration than there are pending rows is enough. *)
Definition process_files_parallel (env : environment) (db : PIIDatabase)
    (a : arguments) : option run :=
  process_files_parallel_fuel (S (pending_count db (arg_job_id a))) env db a.

(** ** Fixtures: small stores, quiet environments, simple workers *)

(** A store holding one running job with [n] pending files, numbered
    from 1. *)
Definition discovered (job : Z) (n : nat) : PIIDatabase :=
  {| jobs := [{| job_id := job; directory := "/data"; job_status := "running";
                 processed_files := 0; error_files := 0 |}];
     files := map (fun i => {| file_id := i; file_job_id := job;
                               file_path := "/data/f" +:+ pretty i;
                               status := FilePending; error_message := None;
                               processing_time_seconds := None |})
                  (seqZ 1 (Z.of_nat n));
     entities := [] |}.

Definition steady_utilization : utilization :=
  {| cpu_percent := 65 # 1; memory_percent := 50 # 1;
     load_avg_1min := 1 # 1; load_factor := 1 # 1 |}.

Definition overloaded (lf : Q) : utilization :=
  {| cpu_percent := 65 # 1; memory_percent := 50 # 1;
     load_avg_1min := lf; load_factor := lf |}.

Definition plain_probe (cpus total : Z) : system_probe :=
  {| cpu_count := Some cpus; memory_total := total |}.

(** An environment in which the clock stands still (no scaling check
    falls due), memory stays at 50% and each file's worker behaves as
    [behave] says. *)
Definition calm (behave : Z -> worker_run) : environment :=
  {| clock_start := 0 # 1;
     clock_at_check := fun _ => 0 # 1;
     clock_after_check := fun _ => 0 # 1;
     get_system_utilization := fun _ => steady_utilization;
     probe_at_start := None;
     probe_at_check := fun _ => None;
     memory_after_batch := fun _ => 50 # 1;
     run_of := fun _ id _ => behave id |}.

Definition succeeding (seconds : Q) : worker_run :=
  {| queued_seconds := 0 # 1; run_seconds := seconds;
     behaviour := analyzer_returns
                    {| a_success := true; a_entities := []; a_error_message := None |};
     pool_failure := None; hangs := false |}.

Definition failing (seconds : Q) : worker_run :=
  {| queued_seconds := 0 # 1; run_seconds := seconds;
     behaviour := analyzer_raises "cannot extract text";
     pool_failure := None; hangs := false |}.

(** A call whose process dies: the pool leaves [BrokenProcessPool] in
    its future. *)
Definition breaking (seconds : Q) : worker_run :=
  {| queued_seconds := 0 # 1; run_seconds := seconds;
     behaviour := analyzer_returns
                    {| a_success := true; a_entities := []; a_error_message := None |};
     pool_failure :=
       Some "A process in the process pool was terminated abruptly while the future was running or pending.";
     hangs := false |}.

(** A call that never comes to an end. *)
Definition stuck : worker_run :=
  {| queued_seconds := 0 # 1; run_seconds := 0 # 1;
     behaviour := analyzer_returns
                    {| a_success := true; a_entities := []; a_error_message := None |};
     pool_failure := None; hangs := true |}.

(** The call made by the service: explicit workers, batches of 50, a
    progress callback, dynamic scaling on. *)
Definition service_call (stop : option stop_signal) : arguments :=
  {| arg_job_id := 1; max_workers := Some 8; batch_size := 50; max_files := None;
     progress_callback := true; enable_dynamic_scaling := true; stop_event := stop |}.

(** The analyzer of scenario 5: it fails on files 11 to 60. *)
Definition burst (id : Z) : worker_run :=
  if (11 <=? id) && (id <=? 60) then failing (1 # 1) else succeeding (1 # 1).

(** A stop signal raised while iteration [k] drains, first seen at its
    [i]-th completion and set ever after. *)
Definition raised_during (k i : nat) : stop_signal :=
  {| is_set_at_top := fun n => bool_decide (k < n)%nat;
     is_set_at_completion := fun n j =>
       bool_decide (k < n)%nat || (bool_decide (n = k) && bool_decide (i <= j)%nat) |}.

Definition a_service (s : AnalysisState) (data db : string) : AnalysisService :=
  {| _state := s; _current_job_id := Some 1; _analysis_thread := Some 0%nat;
     _stop_requested := false; _progress := {["files_completed" := 12]};
     _error_message := Some "earlier failure";
     _db_path := db; _data_path := data;
     _start_time := Some 100; _end_time := Some 200 |}.

Definition a_world : world :=
  {| fs := {["/data" := Directory; "/app/db/pii_results.db" := RegularFile]};
     threads := [run_analysis_target] |}.

(** ** Predicates on runs *)

(** The loop variables respect the minimum batch size, now and at every
    batch fetched so far. *)
Definition batch_floor (st : loop_state) : Prop :=
  MIN_BATCH_SIZE <= current_batch_size st /\
  Forall (fun b => MIN_BATCH_SIZE <= b_batch_size b) (l_trace st).

(** Facts recorded with every batch: the signal was not set when its
    iteration began, it was drained of exactly the futures that
    [as_completed] yields, and a signal seen at one of its completions
    is remembered in [stop_requested]. *)
Definition batch_ok (a : arguments) (b : batch_record) : Prop :=
  stop_is_set_at_top a (b_index b) = false /\
  b_drained b = (as_completed (b_submitted b) BATCH_DEADLINE).1 /\
  forall i, (i < length (b_drained b))%nat ->
            stop_is_set_at_completion a (b_index b) i = true ->
            b_stop_requested b = true.

(** The batches behind an iteration that goes on: numbered from 0, none
    timed out, none with a stop request. *)
Definition trace_open (a : arguments) (k : nat) (tr : list batch_record) : Prop :=
  map b_index tr = seq 0 k /\
  Forall (batch_ok a) tr /\
  Forall (fun b => b_stop_requested b = false /\ b_timed_out b = false) tr.

(** The batches of a finished loop: open ones, then at most one more. *)
Definition trace_closed (a : arguments) (tr : list batch_record) : Prop :=
  exists k, trace_open a k tr \/
            exists init b, tr = init ++ [b] /\ trace_open a k init /\
                           b_index b = k /\ batch_ok a b.

Definition drained_total (tr : list batch_record) : Z :=
  Z.of_nat (length (concat (map b_drained tr))).

(** Every row that was pending in [db0] is still pending, or was read
    into one of the batches recorded so far. *)
Definition claims_recorded (db0 : PIIDatabase) (st : loop_state) : Prop :=
  forall id, file_status_of db0 id = Some FilePending ->
    file_status_of (l_db st) id = Some FilePending \/
    exists b, In b (l_trace st) /\ In id (map fst (b_pending b)).

(** A completion that counts as an error. *)
Definition failed (f : future) : bool :=
  match outcome f with
  | Returned r => negb (res_success r)
  | Raised _ => true
  end.

Definition count_failed (fs : list future) : Z :=
  Z.of_nat (length (filter (fun f => failed f = true) fs)).

(** What a trace shows of a batch: its index, how many futures were
    drained, and the counter and the stop request at the end of the
    drain. *)
Definition batch_summary (b : batch_record) : nat * nat * Z * bool :=
  (b_index b, length (b_drained b), b_consecutive_errors b, b_stop_requested b).

Definition trace_of (r : run) : list (nat * nat * Z * bool) :=
  match run_final r with
  | Some st => map batch_summary (l_trace st)
  | None => []
  end.

(** The runs examined below. *)

(** Scenario 5: 100 files, the analyzer fails on files 11 to 60. *)
Definition burst_run : option run :=
  process_files_parallel (calm burst) (discovered 1 100) (service_call None).

(** 60 files, the analyzer fails on every one. *)
Definition failing_run : option run :=
  process_files_parallel (calm (fun _ => failing (1 # 1))) (discovered 1 60)
    (service_call None).

(** Two files; the worker of the first one needs [seconds]. *)
Definition slow_worker (seconds : Q) (id : Z) : worker_run :=
  if id =? 1 then succeeding seconds else succeeding (1 # 1).

Definition slow_run (seconds : Q) : option run :=
  process_files_parallel (calm (slow_worker seconds)) (discovered 1 2) (service_call None).

(** Three files; the process working on the second one dies, the
    analyzer raises on the third. *)
Definition mixed_worker (id : Z) : worker_run :=
  if id =? 2 then breaking (1 # 1)
  else if id =? 3 then failing (1 # 1)
  else succeeding (1 # 1).

Definition mixed_run : option run :=
  process_files_parallel (calm mixed_worker) (discovered 1 3) (service_call None).

(** 100 good files; the stop signal is first seen at the 26th
    completion of the first batch. *)
Definition stopped_run : option run :=
  process_files_parallel (calm (fun _ => succeeding (1 # 1))) (discovered 1 100)
    (service_call (Some (raised_during 0 25))).

(** ** The specification's formulas, for comparison *)

(** Spec 4.3, control law, first two rows as written. *)
Definition spec_critical_workers (w : Z) : Z :=
  Z.max 8 (w - Z.max WORKER_EMERGENCY_REDUCTION (w / 3)).

Definition spec_high_load_workers (w : Z) : Z :=
  Z.max 8 (w - Z.max (2 * WORKER_STEP_SIZE) (w / 5)).

(** Spec 4.3, initial worker sizing as written, over the reals: [C]
    logical CPUs and [total] bytes of RAM, [M = total / 2^30] GB. *)
Definition floor_of_memory (num den total : Z) : Z := (num * total) / (den * 2 ^ 30).

Definition spec_initial_workers (C total : Z) : Z :=
  if 96 <=? C then Z.min (Z.min (5 * C / 10) (floor_of_memory 7 10 total)) 64
  else if 32 <=? C then Z.min (Z.min 24 (75 * C / 100)) (floor_of_memory 6 10 total)
  else if 8 <=? C then Z.min (Z.max 4 (8 * C / 10)) (floor_of_memory 6 10 total)
  else Z.min (Z.max 2 (9 * C / 10)) (floor_of_memory 6 10 total).

(** The memory term as the code computes it: [int(memory_gb * lit)]. *)
Definition memory_term (total : Z) (lit : Float.float) : option Z :=
  memory_gb ← Float.int_truediv_pow2 total 30; max_by_memory memory_gb lit.

(** ** Auxiliary notions *)

(** The pending rows of a job in a table. *)
Definition pending_rows (job : Z) (fl : list file_row) : nat :=
  length (filter (fun r => is_pending_of job r = true) fl).

(** Comparison of an optional integer with an integer. *)
Definition option_Z_eqb (x : option Z) (y : Z) : bool :=
  match x with Some v => v =? y | None => false end.

(** What an iteration can do. *)
Inductive iteration_spec (env : environment) (a : arguments) (k : nat) (st : loop_state)
  : (loop_exit * loop_state) + loop_state -> Prop :=
  | it_max_files :
      below_max_files a st = false ->
      iteration_spec env a k st (inl (loop_done true, st))
  | it_stopped :
      below_max_files a st = true -> stop_is_set_at_top a k = true ->
      iteration_spec env a k st (inl (loop_done false, st))
  | it_drained_store :
      below_max_files a st = true -> stop_is_set_at_top a k = false ->
      get_pending_files (l_db (prepared env a k st)) (arg_job_id a)
        (batch_limit a (prepared env a k st)) = [] ->
      iteration_spec env a k st (inl (loop_done false, prepared env a k st))
  | it_batch (d : drain_state) (b : batch_record) :
      below_max_files a st = true -> stop_is_set_at_top a k = false ->
      get_pending_files (l_db (prepared env a k st)) (arg_job_id a)
        (batch_limit a (prepared env a k st)) <> [] ->
      run_batch env a k (prepared env a k st)
        (get_pending_files (l_db (prepared env a k st)) (arg_job_id a)
           (batch_limit a (prepared env a k st))) = (d, b) ->
      iteration_spec env a k st
        (if b_timed_out b
         then inl (loop_raised (unfinished (b_submitted b) BATCH_DEADLINE),
                   after_drain (prepared env a k st) d b)
         else if d_stop_requested d
         then inl (loop_done false, after_drain (prepared env a k st) d b)
         else inr (with_batch_size (after_drain (prepared env a k st) d b)
                     (relieve_memory (memory_after_batch env k)
                        (current_batch_size (prepared env a k st))))).

(** ** The control law over several scaling checks *)

(** The worker target after [n] scaling checks that all read the same
    utilization [u] and probe [p], starting from [w]. *)
Definition after_checks (p : system_probe) (u : utilization) (n : nat) (w : Z) : Z :=
  Nat.iter n (fun w => calculate_optimal_workers (Some p) (Some w) (Some u)) w.

(** The futures of a batch whose [result] raises
    [concurrent.futures.TimeoutError]. *)
Definition timed_out (f : future) : bool :=
  match outcome f with Raised (TimeoutError _) => true | _ => false end.

Definition count_timed_out (fs : list future) : Z :=
  Z.of_nat (length (filter (fun f => timed_out f = true) fs)).

Definition timed_out_total (tr : list batch_record) : Z :=
  count_timed_out (concat (map b_drained tr)).

(** The type of the event a completion is reported with. *)
Definition event_type_of (f : future) : string :=
  if failed f then "file_error" else "file_completed".

(** The calls of the callback that report an event of type [t]. *)
Definition count_events (t : string) (sink : list progress_event) : Z :=
  Z.of_nat (length (filter (fun ev => ev_type ev = t) sink)).

(** A future submitted for the file [id], whose result names that file. *)
Definition future_for (id : Z) (f : future) : Prop :=
  fut_file_id f = id /\
  match outcome f with Returned r => res_file_id r = id | Raised _ => True end.

(** The rows of a job still pending, in table order. *)
Definition pending_in (job : Z) (fl : list file_row) : list (Z * string) :=
  map (fun r => (file_id r, file_path r))
      (filter (fun r => is_pending_of job r = true) fl).

Definition pending_list (db : PIIDatabase) (job : Z) : list (Z * string) :=
  pending_in job (files db).



(** Every file id occurs once in the table. *)
Definition unique_ids (db : PIIDatabase) : Prop := NoDup (map file_id (files db)).

(** ** The thread-pool path (worker_management.py) *)

(** [SafeQueue]: the two counters guarded by its lock (the [queue] member
    is never used). *)
Record SafeQueue := {
  sq_processed : Z;
  sq_errors : Z
}.

Definition SafeQueue_init : SafeQueue := {| sq_processed := 0; sq_errors := 0 |}.

Definition add_processed (q : SafeQueue) : SafeQueue :=
  {| sq_processed := sq_processed q + 1; sq_errors := sq_errors q |}.

Definition add_error (q : SafeQueue) : SafeQueue :=
  {| sq_processed := sq_processed q; sq_errors := sq_errors q + 1 |}.

Definition get_stats (q : SafeQueue) : Z * Z := (sq_processed q, sq_errors q).

(** The dictionary returned by [process_single_file]; the error
    dictionaries carry no processing time. *)
Record file_result := {
  fr_file_id : Z;
  fr_file_path : string;
  fr_success : bool;
  fr_entities : list entity;
  fr_error_message : option string;
  fr_processing_time : option Q
}.

(** [process_single_file]: claim the row, run [processing_func] (whose
    behaviour is [b], timed at [elapsed]) and write the outcome. *)
Definition process_single_file (id : Z) (path : string) (db : PIIDatabase) (job : Z)
    (b : analyzer_behaviour) (elapsed : Q) : file_result * PIIDatabase :=
  let '(claimed, db1) := mark_file_processing db id in
  if negb claimed then
    ({| fr_file_id := id; fr_file_path := path; fr_success := false; fr_entities := [];
        fr_error_message := Some "Could not mark file as processing";
        fr_processing_time := None |}, db1)
  else
    match b with
    | analyzer_returns a =>
        let result :=
          {| fr_file_id := id; fr_file_path := path; fr_success := a_success a;
             fr_entities := a_entities a; fr_error_message := a_error_message a;
             fr_processing_time := Some elapsed |} in
        if a_success a then
          (result,
           mark_file_completed (store_file_results db1 id elapsed (a_entities a)) id job)
        else
          (result,
           mark_file_error db1 id job (default "Unknown error" (a_error_message a)))
    | analyzer_raises msg =>
        ({| fr_file_id := id; fr_file_path := path; fr_success := false;
            fr_entities := []; fr_error_message := Some msg;
            fr_processing_time := None |},
         mark_file_error db1 id job msg)
    end.

(** [process_single_file_thread_safe]: the same on the thread's own
    connection to the store, with the outcome counted in [stats_queue]. *)
Definition process_single_file_thread_safe (id : Z) (path : string) (db : PIIDatabase)
    (job : Z) (b : analyzer_behaviour) (elapsed : Q) (stats_queue : SafeQueue)
  : file_result * PIIDatabase * SafeQueue :=
  let '(result, db') := process_single_file id path db job b elapsed in
  (result, db',
   if fr_success result then add_processed stats_queue else add_error stats_queue).

(** ** interrupt_processing *)

(** Modelled from the spec: the row of a job in the [jobs] table
    (section 3), as [db.get_job] of the absent db_utils.py hands it out;
    [None] when the job is unknown. *)
Definition get_job (db : PIIDatabase) (job : Z) : option job_row :=
  List.find (fun j => job_id j =? job) (jobs db).

Definition is_stalled_of (job : Z) (r : file_row) : bool :=
  (file_job_id r =? job) && bool_decide (status r = FileProcessing).

(** The counters [processed_files] and [error_files] of a job's row. *)
Definition job_counters (db : PIIDatabase) (job : Z) : option (Z * Z) :=
  (fun j => (processed_files j, error_files j)) <$> get_job db job.

(** A stalled row goes back to pending. *)
Definition requeue (job : Z) (r : file_row) : file_row :=
  if is_stalled_of job r then set_status r FilePending (error_message r) else r.

(** Modelled from the spec: [ResetStalledFiles(job_id) -> n] of the
    absent file_discovery.py, "bulk update [processing -> pending]". *)
Definition reset_stalled_files (db : PIIDatabase) (job : Z) : nat * PIIDatabase :=
  (length (filter (fun r => is_stalled_of job r = true) (files db)),
   with_files db (map (requeue job) (files db))).

(** [interrupt_processing]; [written] is what [db.update_job_status]
    hands back, which the function returns as it is. *)
Definition interrupt_processing (db : PIIDatabase) (job : Z) (written : bool)
  : bool * PIIDatabase :=
  match get_job db job with
  | None => (false, db)
  | Some j =>
      if negb (bool_decide (job_status j = "running")) then (false, db)
      else
        let '(reset_count, db1) := reset_stalled_files db job in
        (written, update_job_status db1 job "interrupted")
  end.

Definition stalled_count (db : PIIDatabase) (job : Z) : nat :=
  length (filter (fun r => is_stalled_of job r = true) (files db)).

(** ** The run routine of the service *)

(** The [can_stop] entry of [get_status]. *)
Definition can_stop (self : AnalysisService) : bool := is_running self.

(** The configuration fields of [AnalysisService] read by
    [_run_analysis]. *)
Record configuration := {
  _workers : Z;
  _batch_size : Z;
  _threshold : Q;
  _file_size_limit : Z
}.

(** Modelled from the spec: [CreateJob(directory) -> job_id] of the absent
    db_utils.py, "inserts a row with status [pending]"; the id is
    "monotonic": one more than the largest id in the table. *)
Definition create_job (db : PIIDatabase) (dir : string) : Z * PIIDatabase :=
  let id := 1 + foldr Z.max 0 (map job_id (jobs db)) in
  (id, with_jobs db (jobs db ++ [{| job_id := id; directory := dir; job_status := "pending";
                                    processed_files := 0; error_files := 0 |}])).

(** One call of the scan callback: the reading of the stop signal at
    that moment and the state dictionary passed in. *)
Record scan_state := {
  sc_stop_set : bool;
  sc_type : string;
  sc_files_scanned : option Z
}.

(** The closure [scan_callback] of [_run_analysis], acting on
    [_progress]. *)
Definition scan_callback (progress : gmap string Z) (s : scan_state) : gmap string Z :=
  if sc_stop_set s then progress
  else if bool_decide (sc_type s = "progress")
       then <["files_scanned" := default 0 (sc_files_scanned s)]> progress
       else progress.

(** The closure [progress_callback] of [_run_analysis]: [stop_set] and
    [completed] are its readings of the stop signal and of
    [db.get_completed_count_for_job]. *)
Definition service_progress_callback (progress : gmap string Z) (stop_set : bool)
    (completed : Z) (ev : progress_event) : gmap string Z :=
  if stop_set then progress
  else if bool_decide (ev_type ev = "file_completed")
       then <["files_completed" := completed]> progress
       else progress.

Fixpoint replay_progress (stop_at : nat -> bool) (completed_at : nat -> Z) (i : nat)
    (sink : list progress_event) (progress : gmap string Z) : gmap string Z :=
  match sink with
  | [] => progress
  | ev :: rest =>
      replay_progress stop_at completed_at (S i) rest
        (service_progress_callback progress (stop_at i) (completed_at i) ev)
  end.

(** What [_run_analysis] meets outside the service: the directory walk
    ([scan_directory] of the absent file_discovery.py: the store it
    leaves, the callbacks it makes, and the number of files added or the
    exception it ends with), the readings of the stop signal after the
    scan, at each progress callback and after processing, the counts read
    back from the store at each progress callback, everything the
    scheduler meets, and the clock at the end. *)
Record run_environment := {
  scan_store : PIIDatabase -> Z -> string -> PIIDatabase;
  scan_calls : list scan_state;
  scan_end : exn + Z;
  stop_after_scan : bool;
  scheduler_environment : environment;
  scheduler_stop : stop_signal;
  callback_stop : nat -> bool;
  completed_at_callback : nat -> Z;
  stop_after_processing : bool;
  clock_at_end : Z
}.

Definition with_service (self : AnalysisService) (s : AnalysisState) (job : option Z)
    (progress : gmap string Z) (err : option string) (end_time : option Z)
  : AnalysisService :=
  {| _state := s; _current_job_id := job;
     _analysis_thread := _analysis_thread self;
     _stop_requested := _stop_requested self;
     _progress := progress; _error_message := err;
     _db_path := _db_path self; _data_path := _data_path self;
     _start_time := _start_time self; _end_time := end_time |}.

(** The call of [process_files_parallel] made by the service. *)
Definition scheduler_call (cfg : configuration) (job : Z) (stop : stop_signal) : arguments :=
  {| arg_job_id := job; max_workers := Some (_workers cfg); batch_size := _batch_size cfg;
     max_files := None; progress_callback := true; enable_dynamic_scaling := true;
     stop_event := Some stop |}.

(** [_run_analysis], started on the store [db] (opened and given its
    new job without error): the service and the store it leaves.  When
    the scheduler call never comes back the routine never ends, and the
    result is the service as it then stands for good, in the state
    assigned before the call.  [None] only if the scheduler ran out of
    fuel. *)
Definition _run_analysis (renv : run_environment) (cfg : configuration)
    (self : AnalysisService) (db : PIIDatabase) : option (AnalysisService * PIIDatabase) :=
  let '(job, db1) := create_job db (_data_path self) in
  let db2 := scan_store renv db1 job (_data_path self) in
  let progress1 := foldl scan_callback (_progress self) (scan_calls renv) in
  match scan_end renv with
  | inl e =>
      Some (with_service self ERROR (Some job) progress1 (Some (str e))
              (Some (clock_at_end renv)), db2)
  | inr added =>
      if stop_after_scan renv then
        Some (with_service self IDLE (Some job) progress1 (_error_message self)
                (_end_time self), db2)
      else
        let progress2 := <["files_discovered" := added]> progress1 in
        if (pending_count db2 job =? 0)%nat then
          Some (with_service self COMPLETED (Some job) progress2 (_error_message self)
                  (Some (clock_at_end renv)), db2)
        else
          let db3 := update_job_status db2 job "running" in
          r ← process_files_parallel (scheduler_environment renv) db3
                (scheduler_call cfg job (scheduler_stop renv));
          let progress3 :=
            replay_progress (callback_stop renv) (completed_at_callback renv) 0
              (run_sink r) progress2 in
          match run_completion r with
          | blocks =>
              Some (with_service self PROCESSING (Some job) progress3
                      (_error_message self) (_end_time self), run_db r)
          | raises e =>
              Some (with_service self ERROR (Some job) progress3 (Some (str e))
                      (Some (clock_at_end renv)), run_db r)
          | returns v =>
              if stop_after_processing renv then
                Some (with_service self IDLE (Some job) progress3 (_error_message self)
                        (Some (clock_at_end renv)),
                      update_job_status (run_db r) job "interrupted")
              else if bool_decide (ret_status v = "completed") then
                Some (with_service self COMPLETED (Some job) progress3
                        (_error_message self) (Some (clock_at_end renv)),
                      update_job_status (run_db r) job "completed")
              else
                Some (with_service self IDLE (Some job) progress3 (_error_message self)
                        (Some (clock_at_end renv)),
                      update_job_status (run_db r) job "interrupted")
          end
  end.

(** Fixtures for the run routine: a walk that registers [n] files for
    the job and reports once, workers that succeed, no stop. *)
Definition never_set : stop_signal :=
  {| is_set_at_top := fun _ => false; is_set_at_completion := fun _ _ => false |}.

Definition a_walk (n : nat) : run_environment :=
  {| scan_store := fun db job _ => with_files db (files db ++ files (discovered job n));
     scan_calls := [{| sc_stop_set := false; sc_type := "progress";
                       sc_files_scanned := Some (Z.of_nat n) |}];
     scan_end := inr (Z.of_nat n);
     stop_after_scan := false;
     scheduler_environment := calm (fun _ => succeeding (1 # 1));
     scheduler_stop := never_set;
     callback_stop := fun _ => false;
     completed_at_callback := fun i => Z.of_nat (S i);
     stop_after_processing := false;
     clock_at_end := 500 |}.

(** The same walk, with the worker of file 2 hanging. *)
Definition a_stuck_walk (n : nat) : run_environment :=
  {| scan_store := scan_store (a_walk n);
     scan_calls := scan_calls (a_walk n);
     scan_end := scan_end (a_walk n);
     stop_after_scan := false;
     scheduler_environment := calm (fun id => if id =? 2 then stuck else succeeding (1 # 1));
     scheduler_stop := never_set;
     callback_stop := fun _ => false;
     completed_at_callback := fun i => Z.of_nat (S i);
     stop_after_processing := false;
     clock_at_end := 500 |}.

Definition a_configuration : configuration :=
  {| _workers := 8; _batch_size := 50; _threshold := 7 # 10;
     _file_size_limit := 100 * 1024 * 1024 |}.

Definition an_empty_store : PIIDatabase := {| jobs := []; files := []; entities := [] |}.

(** ** Report helpers (pdf_generator.py)

    Two expressions of [_build_detailed_findings], over strings taken as
    lists of characters. *)

(** [text[:2] + '*' * (len(text) - 4) + text[-2:] if len(text) > 4 else
    '*' * len(text)] *)
Definition mask_text {A : Type} (star : A) (text : list A) : list A :=
  if (4 <? length text)%nat
  then take 2 text ++ replicate (length text - 4) star ++ drop (length text - 2) text
  else replicate (length text) star.

(** [file_path if len(file_path) <= 70 else '...' + file_path[-67:]] *)
Definition display_path {A : Type} (dot : A) (file_path : list A) : list A :=
  if (length file_path <=? 70)%nat then file_path
  else [dot; dot; dot] ++ drop (length file_path - 67) file_path.

(** The risk assessment of [_build_executive_summary] over the entity
    statistics (entity type to number of instances). *)
Inductive risk_level := HIGH_RISK | MODERATE_RISK | LOW_RISK.

Definition high_risk_entities : list string :=
  ["US_SSN"; "CREDIT_CARD"; "US_DRIVER_LICENSE"; "US_PASSPORT"].

(** [sum(entity_stats.values())] *)
Definition total_entities (entity_stats : gmap string Z) : Z :=
  foldr Z.add 0 (map snd (map_to_list entity_stats)).

(** [sum(entity_stats.get(e, 0) for e in high_risk_entities)] *)
Definition high_risk_count (entity_stats : gmap string Z) : Z :=
  foldr Z.add 0 (map (fun e => default 0 (entity_stats !! e)) high_risk_entities).

Definition risk_assessment (entity_stats : gmap string Z) : risk_level :=
  if 0 <? high_risk_count entity_stats then HIGH_RISK
  else if 0 <? total_entities entity_stats then MODERATE_RISK
  else LOW_RISK.

(** The callout of [_build_entity_analysis]. *)
Definition high_risk_types : list string :=
  ["US_SSN"; "CREDIT_CARD"; "US_DRIVER_LICENSE"; "US_PASSPORT"; "US_BANK_NUMBER"].

Definition high_risk_found (entity_stats : gmap string Z) : gmap string Z :=
  filter (fun kv => kv.1 ∈ high_risk_types /\ 0 < kv.2) entity_stats.

(** ** Comparisons of readings *)

Lemma Qltb_lt (a b : Q) : Qltb a b = true <-> (a < b)%Q.
Proof.
  unfold Qltb. rewrite negb_true_iff. split.
  - intros H. apply Qnot_le_lt. intros Hle. apply Qle_bool_iff in Hle. congruence.
  - intros H. destruct (Qle_bool b a) eqn:E; [|reflexivity].
    apply Qle_bool_iff in E. exfalso. exact (Qlt_not_le _ _ H E).
Qed.

Lemma Qltb_ge (a b : Q) : Qltb a b = false <-> (b <= a)%Q.
Proof.
  unfold Qltb. rewrite negb_false_iff. apply Qle_bool_iff.
Qed.

(** ** Binary64 arithmetic *)

Lemma lit_0_5_exact : Float.to_Q Float.lit_0_5 == 1 # 2.
Proof. reflexivity. Qed.

Lemma lit_0_75_exact : Float.to_Q Float.lit_0_75 == 3 # 4.
Proof. reflexivity. Qed.

Lemma lit_0_8_nearest : Float.nearest_to Float.lit_0_8 8 10.
Proof. repeat split; vm_compute; first [reflexivity | intro; discriminate]. Qed.

Lemma lit_0_9_nearest : Float.nearest_to Float.lit_0_9 9 10.
Proof. repeat split; vm_compute; first [reflexivity | intro; discriminate]. Qed.

Lemma lit_0_7_nearest : Float.nearest_to Float.lit_0_7 7 10.
Proof. repeat split; vm_compute; first [reflexivity | intro; discriminate]. Qed.

Lemma lit_0_6_nearest : Float.nearest_to Float.lit_0_6 6 10.
Proof. repeat split; vm_compute; first [reflexivity | intro; discriminate]. Qed.

(** Below [2^53] nothing is rounded away. *)
Lemma round_small (m e : Z) : Z.abs m < 2 ^ 53 -> Float.round m e = Float.mk m e.
Proof.
  intros H. unfold Float.round.
  destruct (Z.eq_dec m 0) as [->|Hm]; [reflexivity|].
  assert (Z.log2 (Z.abs m) < 53) by (apply Z.log2_lt_pow2; lia).
  destruct (Z.leb_spec (Z.log2 (Z.abs m) - 52) 0); [reflexivity|lia].
Qed.

Lemma small_not_too_large (m e : Z) :
  Z.abs m < 2 ^ 53 -> e <= 0 -> Float.too_large (Float.mk m e) = false.
Proof.
  intros H He. unfold Float.too_large; simpl.
  destruct (Z.eqb_spec m 0); [reflexivity|]. simpl.
  assert (Z.log2 (Z.abs m) < 53) by (apply Z.log2_lt_pow2; lia).
  apply Z.leb_gt. lia.
Qed.

Lemma of_int_exact (n : Z) : Z.abs n < 2 ^ 53 -> Float.of_int n = Some (Float.mk n 0).
Proof.
  intros H. unfold Float.of_int, Float.checked.
  rewrite round_small by assumption.
  rewrite small_not_too_large by (assumption || lia). reflexivity.
Qed.

Lemma memory_gb_exact (total : Z) :
  Z.abs total < 2 ^ 53 ->
  Float.int_truediv_pow2 total 30 = Some (Float.mk total (-30)).
Proof.
  intros H. unfold Float.int_truediv_pow2, Float.checked.
  rewrite round_small by assumption.
  rewrite small_not_too_large by (assumption || lia). reflexivity.
Qed.

(** [int(C * 0.5)] is [C // 2]: halving is exact. *)
Lemma int_scaled_half (C : Z) : 0 <= C < 2 ^ 53 -> int_scaled C Float.lit_0_5 = Some (C / 2).
Proof.
  intros H. unfold int_scaled. rewrite of_int_exact by lia. simpl.
  unfold Float.fmul; simpl. rewrite Z.mul_1_r.
  rewrite round_small by lia. unfold Float.to_int.
  rewrite small_not_too_large by lia. simpl.
  f_equal. apply Z.quot_div_nonneg; lia.
Qed.

(** A property checked on every integer of a range. *)
Lemma forall_range (P : Z -> bool) (lo len : Z) :
  forallb P (seqZ lo len) = true -> forall z, lo <= z < lo + len -> P z = true.
Proof.
  intros H z Hz. rewrite forallb_forall in H. apply H.
  apply list_elem_of_In, elem_of_seqZ. lia.
Qed.

Lemma option_Z_eqb_eq (x : option Z) (y : Z) : option_Z_eqb x y = true -> x = Some y.
Proof. destruct x; simpl; [intros ->%Z.eqb_eq; reflexivity | discriminate]. Qed.

(** On the CPU counts of each remaining tier the rounded products
    truncate to the exact floors. *)
Lemma int_scaled_0_75 (C : Z) : 32 <= C < 96 -> int_scaled C Float.lit_0_75 = Some (75 * C / 100).
Proof.
  intros H. apply option_Z_eqb_eq.
  apply (forall_range (fun z => option_Z_eqb (int_scaled z Float.lit_0_75) (75 * z / 100)) 32 64);
    [vm_compute; reflexivity | lia].
Qed.

Lemma int_scaled_0_8 (C : Z) : 8 <= C < 32 -> int_scaled C Float.lit_0_8 = Some (8 * C / 10).
Proof.
  intros H. apply option_Z_eqb_eq.
  apply (forall_range (fun z => option_Z_eqb (int_scaled z Float.lit_0_8) (8 * z / 10)) 8 24);
    [vm_compute; reflexivity | lia].
Qed.

Lemma int_scaled_0_9 (C : Z) : 0 <= C < 8 -> int_scaled C Float.lit_0_9 = Some (9 * C / 10).
Proof.
  intros H. apply option_Z_eqb_eq.
  apply (forall_range (fun z => option_Z_eqb (int_scaled z Float.lit_0_9) (9 * z / 10)) 0 8);
    [vm_compute; reflexivity | lia].
Qed.

Lemma rne_shift_range (n k : Z) :
  0 <= n -> 0 < k -> n / 2 ^ k <= Float.rne_shift n k <= n / 2 ^ k + 1.
Proof.
  intros Hn Hk. unfold Float.rne_shift.
  rewrite Z.shiftr_div_pow2 by lia.
  repeat match goal with |- context [if ?c then _ else _] => destruct c end; lia.
Qed.

(** Rounding keeps at most 54 bits (53, or [2^53] itself after a carry). *)
Lemma round_mant_bound (m e : Z) : Z.abs (Float.mant (Float.round m e)) <= 2 ^ 53.
Proof.
  unfold Float.round.
  destruct (Z.eq_dec m 0) as [->|Hm]; [simpl; lia|].
  set (k := Z.log2 (Z.abs m) - 52).
  assert (Hlog : 2 ^ Z.log2 (Z.abs m) <= Z.abs m < 2 ^ Z.succ (Z.log2 (Z.abs m)))
    by (apply Z.log2_spec; lia).
  destruct (Z.leb_spec k 0) as [Hk|Hk]; simpl.
  - assert (Z.succ (Z.log2 (Z.abs m)) <= 53) by lia.
    assert (2 ^ Z.succ (Z.log2 (Z.abs m)) <= 2 ^ 53) by (apply Z.pow_le_mono_r; lia).
    lia.
  - pose proof (rne_shift_range (Z.abs m) k ltac:(lia) Hk) as Hr.
    assert (Hlt : Z.abs m / 2 ^ k < 2 ^ 53).
    { apply Z.div_lt_upper_bound; [apply Z.pow_pos_nonneg; lia|].
      rewrite <- Z.pow_add_r by lia.
      replace (k + 53) with (Z.succ (Z.log2 (Z.abs m))) by lia. lia. }
    assert (0 <= Z.abs m / 2 ^ k) by (apply Z.div_pos; [lia|apply Z.pow_pos_nonneg; lia]).
    destruct (Z.sgn_spec m) as [[? ->]|[[? ->]|[? ->]]]; lia.
Qed.

Lemma round_expo (m e : Z) :
  Float.expo (Float.round m e) = e + Z.max 0 (Z.log2 (Z.abs m) - 52).
Proof.
  unfold Float.round.
  destruct (Z.leb_spec (Z.log2 (Z.abs m) - 52) 0); simpl; lia.
Qed.

Lemma round_finite (m e : Z) :
  Z.log2 (Z.abs m) + e < 1000 -> e <= 0 -> Float.too_large (Float.round m e) = false.
Proof.
  intros H He. unfold Float.too_large.
  destruct (Z.eqb_spec (Float.mant (Float.round m e)) 0); [reflexivity|]. simpl.
  apply Z.leb_gt. rewrite round_expo.
  pose proof (round_mant_bound m e) as Hb.
  assert (Z.log2 (Z.abs (Float.mant (Float.round m e))) <= 53).
  { change 53 with (Z.log2 (2 ^ 53)). apply Z.log2_le_mono. exact Hb. }
  pose proof (Z.log2_nonneg (Z.abs m)). lia.
Qed.

(** The memory term is defined for every amount of RAM below [2^53]
    bytes. *)
Lemma memory_term_defined (total : Z) (lit : Float.float) :
  0 <= total < 2 ^ 53 -> 0 < Float.mant lit <= 2 ^ 53 -> -53 <= Float.expo lit <= 0 ->
  exists v, memory_term total lit = Some v.
Proof.
  intros Ht Hm He. unfold memory_term. rewrite memory_gb_exact by lia. simpl.
  unfold max_by_memory, Float.to_int, Float.fmul. simpl.
  rewrite round_finite; [destruct (_ <=? _); eauto| |lia].
  assert (Z.log2 (Z.abs (total * Float.mant lit)) <= 106); [|lia].
  change 106 with (Z.log2 (2 ^ 106)). apply Z.log2_le_mono.
  rewrite Z.abs_eq by nia. change (2 ^ 106) with (2 ^ 53 * 2 ^ 53). nia.
Qed.

(** The sizing of a fresh pool, tier by tier: the CPU terms are the
    exact floors, the memory terms are the truncated binary64 products. *)
Lemma initial_workers_tiers (C total : Z) (m7 m6 : Z) :
  0 <= C < 2 ^ 53 -> 0 <= total < 2 ^ 53 ->
  memory_term total Float.lit_0_7 = Some m7 ->
  memory_term total Float.lit_0_6 = Some m6 ->
  calculate_optimal_workers (Some (plain_probe C total)) None None =
    if 96 <=? C then Z.min (Z.min (5 * C / 10) m7) 64
    else if 32 <=? C then Z.min (Z.min 24 (75 * C / 100)) m6
    else if 8 <=? C then Z.min (Z.max 4 (8 * C / 10)) m6
    else Z.min (Z.max 2 (9 * C / 10)) m6.
Proof.
  intros HC Ht H7 H6.
  unfold memory_term in H7, H6. rewrite memory_gb_exact in H7, H6 by lia. simpl in H7, H6.
  unfold calculate_optimal_workers, calculate_optimal_workers_try. simpl.
  rewrite memory_gb_exact by lia. simpl.
  destruct (Z.leb_spec 96 C).
  { rewrite int_scaled_half by lia. simpl. rewrite H7. simpl.
    replace (5 * C / 10) with (C / 2); [reflexivity|].
    replace 10 with (5 * 2) by lia. rewrite Z.div_mul_cancel_l; lia. }
  destruct (Z.leb_spec 32 C).
  { rewrite int_scaled_0_75 by lia. simpl. rewrite H6. reflexivity. }
  destruct (Z.leb_spec 8 C).
  { rewrite int_scaled_0_8 by lia. simpl. rewrite H6. reflexivity. }
  rewrite int_scaled_0_9 by lia. simpl. rewrite H6. reflexivity.
Qed.

(** Rounding to nearest moves the value by at most half a unit of the
    kept digits. *)
Lemma rne_shift_half (n k : Z) :
  0 <= n -> 0 < k -> 2 * (Float.rne_shift n k * 2 ^ k) <= 2 * n + 2 ^ k.
Proof.
  intros Hn Hk. unfold Float.rne_shift.
  rewrite Z.shiftr_div_pow2, !Z.shiftl_mul_pow2 by lia.
  assert (HP : 2 ^ k = 2 * 2 ^ (k - 1)).
  { replace k with (1 + (k - 1)) at 1 by lia. rewrite Z.pow_add_r by lia. reflexivity. }
  assert (0 < 2 ^ (k - 1)) by (apply Z.pow_pos_nonneg; lia).
  pose proof (Z.div_mod n (2 ^ k) ltac:(lia)) as Hdm.
  pose proof (Z.mod_pos_bound n (2 ^ k) ltac:(lia)) as Hmod.
  set (q := n / 2 ^ k) in *. set (h := 2 ^ (k - 1)) in *.
  repeat match goal with |- context [if ?c then _ else _] => destruct c eqn:? end;
    rewrite ?Z.ltb_lt, ?Z.ltb_ge in *; nia.
Qed.

(** [int(round(n * 2^-E))] for a product [n] of two 53-bit mantissas:
    never below the floor of the exact value, and below every integer
    that the exact value misses by more than [2^49] units of [2^-E]. *)
Lemma to_int_round_bounds (n E : Z) :
  0 <= n < 2 ^ 103 -> 54 <= E <= 200 ->
  exists v, Float.to_int (Float.round n (- E)) = Some v /\
            n / 2 ^ E <= v /\
            forall B, n + 2 ^ 49 < B * 2 ^ E -> v < B.
Proof.
  intros Hn HE.
  assert (HlogB : Z.log2 (Z.abs n) <= 102).
  { rewrite Z.abs_eq by lia. destruct (Z.eq_dec n 0) as [->|]; [simpl; lia|].
    assert (Z.log2 n < 103) by (apply Z.log2_lt_pow2; lia). lia. }
  assert (0 < 2 ^ E) by (apply Z.pow_pos_nonneg; lia).
  unfold Float.to_int. rewrite round_finite by lia. rewrite round_expo.
  unfold Float.round. set (k := Z.log2 (Z.abs n) - 52) in *.
  destruct (Z.leb_spec k 0) as [Hk|Hk]; cbn [Float.mant].
  - rewrite Z.max_l by lia. replace (- E + 0) with (- E) by lia.
    destruct (Z.leb_spec 0 (- E)); [lia|]. rewrite Z.opp_involutive.
    rewrite Z.quot_div_nonneg by lia.
    eexists; split; [reflexivity|]. split; [lia|].
    intros B HB. apply Z.div_lt_upper_bound; lia.
  - rewrite Z.max_r by lia.
    destruct (Z.leb_spec 0 (- E + k)); [lia|].
    replace (- (- E + k)) with (E - k) by lia.
    assert (Hnpos : 0 < n).
    { destruct (Z.eq_dec n 0) as [->|]; [simpl in k; lia|lia]. }
    rewrite Z.abs_eq by lia. rewrite Z.sgn_pos, Z.mul_1_l by lia.
    pose proof (rne_shift_range n k ltac:(lia) Hk) as Hr.
    pose proof (rne_shift_half n k ltac:(lia) Hk) as Hh.
    set (r := Float.rne_shift n k) in *.
    assert (HP : 0 < 2 ^ k <= 2 ^ 50).
    { split; [apply Z.pow_pos_nonneg; lia|apply Z.pow_le_mono_r; lia]. }
    assert (HD : 0 < 2 ^ (E - k)) by (apply Z.pow_pos_nonneg; lia).
    assert (HPD : 2 ^ (E - k) * 2 ^ k = 2 ^ E).
    { rewrite <- Z.pow_add_r by lia. f_equal. lia. }
    assert (0 <= n / 2 ^ k) by (apply Z.div_pos; lia).
    rewrite Z.quot_div_nonneg by lia.
    eexists; split; [reflexivity|]. split.
    + rewrite <- HPD, Z.mul_comm, <- Z.div_div by lia.
      apply Z.div_le_mono; lia.
    + intros B HB. apply Z.div_lt_upper_bound; [lia|].
      apply Z.mul_lt_mono_pos_r with (p := 2 ^ k); [lia|].
      replace (2 ^ (E - k) * B * 2 ^ k) with (B * 2 ^ E) by (rewrite <- HPD; ring).
      change (2 ^ 50) with (2 * 2 ^ 49) in HP. lia.
Qed.

(** The memory terms against the floors of the specification: equal, or
    one less. *)
Lemma memory_term_0_7 (total : Z) :
  0 <= total < 2 ^ 50 ->
  exists v, memory_term total Float.lit_0_7 = Some v /\
            floor_of_memory 7 10 total - 1 <= v <= floor_of_memory 7 10 total.
Proof.
  intros Ht. unfold memory_term. rewrite memory_gb_exact by lia. simpl.
  unfold max_by_memory, Float.fmul. cbn [Float.mant Float.expo Float.lit_0_7].
  change (-30 + -53) with (- 83).
  destruct (to_int_round_bounds (total * 6305039478318694) 83) as (v & Hv & Hlo & Hup);
    [lia|lia|].
  exists v. split; [exact Hv|].
  unfold floor_of_memory. set (F := 7 * total / (10 * 2 ^ 30)).
  assert (HF : (10 * 2 ^ 30) * F <= 7 * total < (10 * 2 ^ 30) * (F + 1)).
  { pose proof (Z.mul_div_le (7 * total) (10 * 2 ^ 30) ltac:(lia)).
    pose proof (Z.mul_succ_div_gt (7 * total) (10 * 2 ^ 30) ltac:(lia)).
    unfold F. lia. }
  change (2 ^ 30) with 1073741824 in HF.
  split.
  - assert (F - 1 <= total * 6305039478318694 / 2 ^ 83); [|lia].
    apply Z.div_le_lower_bound; [lia|]. change (2 ^ 83) with 9671406556917033397649408. lia.
  - assert (v < F + 1); [|lia]. apply Hup.
    change (2 ^ 83) with 9671406556917033397649408. change (2 ^ 49) with 562949953421312. lia.
Qed.

Lemma memory_term_0_6 (total : Z) :
  0 <= total < 2 ^ 50 ->
  exists v, memory_term total Float.lit_0_6 = Some v /\
            floor_of_memory 6 10 total - 1 <= v <= floor_of_memory 6 10 total.
Proof.
  intros Ht. unfold memory_term. rewrite memory_gb_exact by lia. simpl.
  unfold max_by_memory, Float.fmul. cbn [Float.mant Float.expo Float.lit_0_6].
  change (-30 + -53) with (- 83).
  destruct (to_int_round_bounds (total * 5404319552844595) 83) as (v & Hv & Hlo & Hup);
    [lia|lia|].
  exists v. split; [exact Hv|].
  unfold floor_of_memory. set (F := 6 * total / (10 * 2 ^ 30)).
  assert (HF : (10 * 2 ^ 30) * F <= 6 * total < (10 * 2 ^ 30) * (F + 1)).
  { pose proof (Z.mul_div_le (6 * total) (10 * 2 ^ 30) ltac:(lia)).
    pose proof (Z.mul_succ_div_gt (6 * total) (10 * 2 ^ 30) ltac:(lia)).
    unfold F. lia. }
  change (2 ^ 30) with 1073741824 in HF.
  split.
  - assert (F - 1 <= total * 5404319552844595 / 2 ^ 83); [|lia].
    apply Z.div_le_lower_bound; [lia|]. change (2 ^ 83) with 9671406556917033397649408. lia.
  - assert (v < F + 1); [|lia]. apply Hup.
    change (2 ^ 83) with 9671406556917033397649408. change (2 ^ 49) with 562949953421312. lia.
Qed.

(** ** Worker sizing and the control law *)

(** The probe at the top of [calculate_optimal_workers] succeeds for any
    realistic amount of memory. *)
Lemma memory_gb_defined (total : Z) :
  0 <= total < 2 ^ 1000 -> exists g, Float.int_truediv_pow2 total 30 = Some g.
Proof.
  intros H. unfold Float.int_truediv_pow2, Float.checked.
  rewrite round_finite; [eauto| |lia].
  rewrite Z.abs_eq by lia. destruct (Z.eq_dec total 0) as [->|]; [simpl; lia|].
  assert (Z.log2 total < 1000) by (apply Z.log2_lt_pow2; lia). lia.
Qed.

Lemma adjusted_workers (p : system_probe) (w : Z) (u : utilization) :
  0 <= memory_total p < 2 ^ 1000 ->
  calculate_optimal_workers (Some p) (Some w) (Some u) = adjust_workers w u.
Proof.
  intros H. destruct (memory_gb_defined _ H) as [g Hg].
  unfold calculate_optimal_workers, calculate_optimal_workers_try. simpl.
  rewrite Hg. reflexivity.
Qed.

Lemma critical_load_batch (u : utilization) (bs : Z) :
  (CRITICAL_LOAD_FACTOR < load_factor u)%Q ->
  adjust_batch u (emergency_batch u bs) = MIN_BATCH_SIZE.
Proof.
  intros Hc. unfold emergency_batch, adjust_batch, batch_rule.
  assert (H1 : Qltb CRITICAL_LOAD_FACTOR (load_factor u) = true) by (apply Qltb_lt; exact Hc).
  assert (H2 : Qltb (load_factor u) LOW_LOAD_FACTOR = false).
  { apply Qltb_ge. apply Qlt_le_weak. eapply Qlt_trans; [|exact Hc]. reflexivity. }
  assert (H3 : Qltb MAX_LOAD_FACTOR (load_factor u) = true).
  { apply Qltb_lt. eapply Qlt_trans; [|exact Hc]. reflexivity. }
  rewrite H1, H2, H3. simpl. unfold MIN_BATCH_SIZE, BATCH_STEP_SIZE.
  destruct (Z.ltb_spec 20 bs); lia.
Qed.

(** C3, as the code has it: under critical load (load factor above 2.0)
    the worker count becomes max(8, w - min(20, w // 3)) and the batch
    size becomes MIN_BATCH_SIZE; under high load (above 1.5, at most 2.0)
    the worker count becomes max(8, w - min(20, w // 5)).  The reduction
    is capped by min, where the specification writes max. *)
Theorem load_reduction_rules (p : system_probe) (w : Z) (u : utilization) :
  0 <= memory_total p < 2 ^ 1000 ->
  ((CRITICAL_LOAD_FACTOR < load_factor u)%Q ->
     calculate_optimal_workers (Some p) (Some w) (Some u)
       = Z.max 8 (w - Z.min WORKER_EMERGENCY_REDUCTION (w / 3)) /\
     forall env k st, get_system_utilization env k = u ->
       current_batch_size (adapt env k st) = MIN_BATCH_SIZE) /\
  ((MAX_LOAD_FACTOR < load_factor u)%Q -> (load_factor u <= CRITICAL_LOAD_FACTOR)%Q ->
     calculate_optimal_workers (Some p) (Some w) (Some u)
       = Z.max 8 (w - Z.min (2 * WORKER_STEP_SIZE) (w / 5))).
Proof.
  intros Hp. rewrite adjusted_workers by exact Hp. split.
  - intros Hc. split.
    + unfold adjust_workers. apply Qltb_lt in Hc. rewrite Hc. reflexivity.
    + intros env k st Hu. unfold adapt. cbn [current_batch_size]. rewrite Hu.
      apply critical_load_batch, Hc.
  - intros Hh Hnc. unfold adjust_workers.
    apply Qltb_ge in Hnc. apply Qltb_lt in Hh. rewrite Hnc, Hh.
    rewrite (Z.mul_comm 2). reflexivity.
Qed.

Lemma load_reduction_rules_witness :
  calculate_optimal_workers (Some (plain_probe 32 (64 * 2 ^ 30))) (Some 90)
    (Some (overloaded (5 # 2))) = 70 /\
  calculate_optimal_workers (Some (plain_probe 32 (64 * 2 ^ 30))) (Some 90)
    (Some (overloaded (7 # 4))) = 72.
Proof.
  pose proof (load_reduction_rules (plain_probe 32 (64 * 2 ^ 30)) 90 (overloaded (5 # 2))
                ltac:(simpl; lia)) as [H1 _].
  pose proof (load_reduction_rules (plain_probe 32 (64 * 2 ^ 30)) 90 (overloaded (7 # 4))
                ltac:(simpl; lia)) as [_ H2].
  split.
  - apply H1. reflexivity.
  - apply H2; [reflexivity | intro; discriminate].
Defined.

(** C3, the rules as the specification words them, fail at 30 workers:
    under load factor 2.5 the code keeps 20 workers where
    max(8, 30 - max(20, 30/3)) is 10, and under load factor 1.75 it
    keeps 24 where max(8, 30 - max(20, 30/5)) is 10. *)
Lemma reduction_by_max_fails :
  calculate_optimal_workers (Some (plain_probe 32 (64 * 2 ^ 30))) (Some 30)
    (Some (overloaded (5 # 2))) <> spec_critical_workers 30 /\
  calculate_optimal_workers (Some (plain_probe 32 (64 * 2 ^ 30))) (Some 30)
    (Some (overloaded (7 # 4))) <> spec_high_load_workers 30.
Proof. split; vm_compute; discriminate. Qed.

(** C7, as the code has it: for C logical CPUs (below 2^53) and
    [total] bytes of RAM (below 2^50) the fresh pool has
    min(floor(0.5 C), m7, 64) workers for C >= 96,
    min(24, floor(0.75 C), m6) for 32 <= C < 96,
    min(max(4, floor(0.8 C)), m6) for 8 <= C < 32 and
    min(max(2, floor(0.9 C)), m6) for C < 8, where m7 and m6 are the
    truncated binary64 products int(memory_gb * 0.7) and
    int(memory_gb * 0.6): each equals the exact floor of 0.7 M or 0.6 M
    or falls one below it.  When psutil raises or reports no CPU count
    the result is 16. *)
Theorem initial_worker_sizing (C total : Z) :
  0 <= C < 2 ^ 53 -> 0 <= total < 2 ^ 50 ->
  (exists m7 m6,
     memory_term total Float.lit_0_7 = Some m7 /\
     memory_term total Float.lit_0_6 = Some m6 /\
     floor_of_memory 7 10 total - 1 <= m7 <= floor_of_memory 7 10 total /\
     floor_of_memory 6 10 total - 1 <= m6 <= floor_of_memory 6 10 total /\
     calculate_optimal_workers (Some (plain_probe C total)) None None =
       if 96 <=? C then Z.min (Z.min (5 * C / 10) m7) 64
       else if 32 <=? C then Z.min (Z.min 24 (75 * C / 100)) m6
       else if 8 <=? C then Z.min (Z.max 4 (8 * C / 10)) m6
       else Z.min (Z.max 2 (9 * C / 10)) m6) /\
  calculate_optimal_workers None None None = 16 /\
  calculate_optimal_workers (Some {| cpu_count := None; memory_total := total |}) None None = 16.
Proof.
  intros HC Ht. split; [|split].
  - destruct (memory_term_0_7 total Ht) as (m7 & H7 & B7).
    destruct (memory_term_0_6 total Ht) as (m6 & H6 & B6).
    exists m7, m6. repeat split; try assumption; try lia.
    apply initial_workers_tiers; try assumption; lia.
  - reflexivity.
  - unfold calculate_optimal_workers, calculate_optimal_workers_try. simpl.
    rewrite memory_gb_exact by lia. reflexivity.
Qed.

Lemma initial_worker_sizing_witness :
  exists m7 m6,
    floor_of_memory 7 10 (64 * 2 ^ 30) - 1 <= m7 <= floor_of_memory 7 10 (64 * 2 ^ 30) /\
    calculate_optimal_workers (Some (plain_probe 32 (64 * 2 ^ 30))) None None
      = Z.min (Z.min 24 (75 * 32 / 100)) m6.
Proof.
  destruct (initial_worker_sizing 32 (64 * 2 ^ 30) ltac:(lia) ltac:(lia))
    as [(m7 & m6 & _ & _ & B7 & _ & Hw) _].
  exists m7, m6. split; [exact B7 | exact Hw].
Defined.

(** C7, the formula over the reals fails on a machine with 128 logical
    CPUs and 90 GiB of RAM: [memory_gb] is 90.0 and the binary64 product
    [90.0 * 0.7] is 62.99999999999999, so the code sizes the pool at
    min(64, 62, 64) = 62 where min(floor(0.5 C), floor(0.7 M), 64) is
    63. *)
Lemma memory_term_falls_short_at_90GiB :
  calculate_optimal_workers (Some (plain_probe 128 (90 * 2 ^ 30))) None None = 62 /\
  spec_initial_workers 128 (90 * 2 ^ 30) = 63 /\
  calculate_optimal_workers (Some (plain_probe 128 (90 * 2 ^ 30))) None None
    <> spec_initial_workers 128 (90 * 2 ^ 30).
Proof. repeat split; vm_compute; first [reflexivity | discriminate]. Qed.

(** ** The guards of the analysis service *)

Lemma is_running_states (self : AnalysisService) :
  is_running self = true <-> _state self = SCANNING \/ _state self = PROCESSING.
Proof.
  unfold is_running. destruct (_state self); split; intros H;
    try discriminate; try reflexivity; auto; destruct H; discriminate.
Qed.

(** [get_status] advertises [can_start] in the idle state only, while
    [start_analysis] lets every state that is not running through. *)
Lemma can_start_is_narrower (self : AnalysisService) :
  can_start self = true -> is_running self = false.
Proof. unfold can_start, is_running. destruct (_state self); congruence. Qed.

(** C5: Start is guarded by [is_running], not by the idle state.  It is
    refused, answering {success: false, error, state} and changing
    neither the service nor the world, when the state is scanning or
    processing or the data path is not an existing directory.  In every
    other state with an existing data directory it goes ahead, in
    completed, error and stopping as in idle, although [get_status]
    reports [can_start] in the idle state only: it clears the stop
    signal, the error message and the progress, stamps the start time,
    starts a run routine and answers success.  It does not assign
    [_state] itself; the state entry of the answer is what the started
    thread has made of [_state] by the time the answer is built. *)
Theorem start_analysis_guard (now : Z) (seen : AnalysisState) (self : AnalysisService)
    (w : world) :
  (is_running self = true \/ os_path_isdir w (_data_path self) = false ->
     exists e, start_analysis now seen self w =
       ({| success := false; error := Some e; message := None;
           state := value (_state self) |}, self, w)) /\
  (is_running self = false -> os_path_isdir w (_data_path self) = true ->
     exists self' w',
       start_analysis now seen self w =
         ({| success := true; error := None; message := Some "Analysis started";
             state := value seen |}, self', w') /\
       _state self' = _state self /\
       _stop_requested self' = false /\ _error_message self' = None /\
       _progress self' = ∅ /\ _start_time self' = Some now /\ _end_time self' = None /\
       threads w' = threads w ++ [run_analysis_target] /\ fs w' = fs w) /\
  (_state self = COMPLETED \/ _state self = ERROR \/ _state self = STOPPING ->
     can_start self = false /\ is_running self = false).
Proof.
  split; [|split].
  - intros [Hr|Hd]; unfold start_analysis.
    + rewrite Hr. eauto.
    + destruct (is_running self); [eauto|]. rewrite Hd. simpl. eauto.
  - intros Hr Hd. unfold start_analysis.
    rewrite Hr, Hd. simpl. eexists _, _. repeat split.
  - unfold can_start, is_running. intros [->|[->| ->]]; split; reflexivity.
Qed.

Lemma start_analysis_guard_witness :
  can_start (a_service COMPLETED "/data" "/app/db/pii_results.db") = false /\
  exists self' w',
    start_analysis 300 SCANNING (a_service COMPLETED "/data" "/app/db/pii_results.db")
      a_world =
      ({| success := true; error := None; message := Some "Analysis started";
          state := "scanning" |}, self', w') /\
    _start_time self' = Some 300 /\ _stop_requested self' = false /\
    threads w' = [run_analysis_target; run_analysis_target].
Proof.
  destruct (start_analysis_guard 300 SCANNING
              (a_service COMPLETED "/data" "/app/db/pii_results.db") a_world)
    as (_ & Hgo & Hflag).
  destruct Hflag as [Hc _]; [left; reflexivity|].
  destruct Hgo as (self' & w' & E & _ & Hs & _ & _ & Ht & _ & Hth & _);
    [reflexivity | reflexivity |].
  split; [exact Hc|]. exists self', w'. repeat split; assumption.
Defined.

(** In the stopping state a second Start also clears the stop signal
    the draining run still has to observe. *)
Lemma start_analysis_while_stopping (now : Z) (seen : AnalysisState)
    (self : AnalysisService) (w : world) :
  is_running self = true -> os_path_isdir w (_data_path self) = true ->
  let '(_, stopping) := stop_analysis self in
  let '(r, self', w') := start_analysis now seen stopping w in
  _stop_requested stopping = true /\ success r = true /\ _stop_requested self' = false.
Proof.
  intros Hr Hd. unfold stop_analysis. rewrite Hr. simpl.
  unfold start_analysis. simpl. rewrite Hd. simpl. repeat split.
Qed.

(** C9: in every state that is not running (idle, completed, error and
    also stopping), provided the database path does not name a
    directory, [clear_results] succeeds: the database file is gone
    afterwards, nothing else on the file system changes, and the service
    is back in idle with job id, progress, error message, start time and
    end time cleared. *)
Theorem clear_results_recovers (self : AnalysisService) (w : world) :
  _state self = IDLE \/ _state self = COMPLETED \/ _state self = ERROR \/
    _state self = STOPPING ->
  fs w !! _db_path self <> Some Directory ->
  exists self' w',
    clear_results self w =
      ({| success := true; error := None; message := Some "Results cleared successfully";
          state := "idle" |}, self', w') /\
    fs w' = delete (_db_path self) (fs w) /\
    fs w' !! _db_path self = None /\
    threads w' = threads w /\
    _state self' = IDLE /\ _current_job_id self' = None /\ _progress self' = ∅ /\
    _error_message self' = None /\ _start_time self' = None /\ _end_time self' = None /\
    _db_path self' = _db_path self /\ _data_path self' = _data_path self.
Proof.
  intros Hs Hd. unfold clear_results.
  assert (Hr : is_running self = false).
  { unfold is_running. destruct Hs as [->|[->|[->| ->]]]; reflexivity. }
  rewrite Hr. unfold os_path_exists, os_remove.
  destruct (fs w !! _db_path self) as [[]|] eqn:E; [|congruence|].
  - eexists _, _. split; [reflexivity|]. cbn.
    repeat split. apply lookup_delete_eq.
  - exists (reset_state self), w. split; [reflexivity|]. cbn.
    repeat split; [|exact E]. symmetry. apply delete_id. exact E.
Qed.

Lemma clear_results_recovers_witness :
  exists self' w',
    clear_results (a_service ERROR "/data" "/app/db/pii_results.db") a_world =
      ({| success := true; error := None; message := Some "Results cleared successfully";
          state := "idle" |}, self', w') /\
    fs w' !! "/app/db/pii_results.db" = None /\ _state self' = IDLE.
Proof.
  destruct (clear_results_recovers (a_service ERROR "/data" "/app/db/pii_results.db") a_world)
    as (self' & w' & E & _ & Hgone & _ & Hidle & _).
  - right; right; left; reflexivity.
  - vm_compute. discriminate.
  - exists self', w'. split; [exact E|]. split; [exact Hgone | exact Hidle].
Defined.

(** Clear is refused while scanning or processing, and fails without
    resetting anything when the database path cannot be removed. *)
Lemma clear_results_refused (self : AnalysisService) (w : world) :
  is_running self = true ->
  exists e, clear_results self w =
    ({| success := false; error := Some e; message := None;
        state := value (_state self) |}, self, w).
Proof. intros H. unfold clear_results. rewrite H. eauto. Qed.

(** ** The store under the scheduler's operations *)

Section PendingRows.

Variable job : Z.

Lemma pending_rows_cons (r : file_row) (fl : list file_row) :
  pending_rows job (r :: fl) =
    ((if is_pending_of job r then 1 else 0) + pending_rows job fl)%nat.
Proof.
  unfold pending_rows. rewrite filter_cons.
  destruct (decide (is_pending_of job r = true)) as [E|E].
  - rewrite E. reflexivity.
  - destruct (is_pending_of job r); [congruence|reflexivity].
Qed.

Lemma set_status_not_pending (r : file_row) (s : file_status) (msg : option string) :
  s <> FilePending -> is_pending_of job (set_status r s msg) = false.
Proof.
  intros H. unfold is_pending_of, set_status; simpl.
  rewrite bool_decide_eq_false_2 by exact H. apply andb_false_r.
Qed.

(** A transition between two states other than [pending] leaves the
    pending rows alone. *)
Lemma transition_keeps_pending (fl : list file_row) (id : Z) (from to : file_status)
    (msg : option string) :
  from <> FilePending -> to <> FilePending ->
  pending_rows job (transition fl id from to msg).1 = pending_rows job fl.
Proof.
  intros Hf Ht. unfold transition; cbn [fst].
  induction fl as [|r fl IH]; [reflexivity|].
  cbn [map]. rewrite !pending_rows_cons, IH. f_equal.
  destruct (file_id r =? id); cbn [andb]; [|reflexivity].
  destruct (bool_decide_reflect (status r = from)) as [E|E]; [|reflexivity].
  rewrite set_status_not_pending by exact Ht.
  unfold is_pending_of. rewrite E.
  rewrite bool_decide_eq_false_2 by exact Hf. rewrite andb_false_r. reflexivity.
Qed.

(** A claim never adds pending rows, and removes one when a pending row
    of the job carries the id. *)
Lemma claim_pending_le (fl : list file_row) (id : Z) :
  (pending_rows job (transition fl id FilePending FileProcessing None).1
     <= pending_rows job fl)%nat.
Proof.
  unfold transition; cbn [fst].
  induction fl as [|r fl IH]; [reflexivity|].
  cbn [map]. rewrite !pending_rows_cons.
  destruct ((file_id r =? id) && bool_decide (status r = FilePending)).
  - rewrite set_status_not_pending by discriminate.
    destruct (is_pending_of job r); lia.
  - lia.
Qed.

Lemma claim_pending_lt (fl : list file_row) (id : Z) (r : file_row) :
  In r fl -> file_id r = id -> is_pending_of job r = true ->
  (pending_rows job (transition fl id FilePending FileProcessing None).1 < pending_rows job fl)%nat.
Proof.
  intros Hin Hid Hp. induction fl as [|r' fl IH]; [destruct Hin|].
  pose proof (claim_pending_le fl id) as Hle.
  unfold transition in *; cbn [fst map] in *. rewrite !pending_rows_cons.
  destruct Hin as [->|Hin].
  - rewrite Hid, Z.eqb_refl. cbn [andb].
    assert (Hs : status r = FilePending).
    { unfold is_pending_of in Hp. apply andb_true_iff in Hp as [_ Hp].
      apply bool_decide_eq_true in Hp. exact Hp. }
    rewrite bool_decide_eq_true_2 by exact Hs.
    rewrite set_status_not_pending by discriminate. rewrite Hp. lia.
  - specialize (IH Hin).
    destruct ((file_id r' =? id) && bool_decide (status r' = FilePending)).
    + rewrite set_status_not_pending by discriminate.
      destruct (is_pending_of job r'); lia.
    + lia.
Qed.

End PendingRows.

Lemma pending_count_rows (db : PIIDatabase) (job : Z) :
  pending_count db job = pending_rows job (files db).
Proof. reflexivity. Qed.

Lemma mark_file_processing_pending (db : PIIDatabase) (job id : Z) :
  (pending_count (mark_file_processing db id).2 job <= pending_count db job)%nat.
Proof.
  unfold mark_file_processing.
  pose proof (claim_pending_le job (files db) id) as H.
  destruct (transition (files db) id FilePending FileProcessing None) as [fl n]. exact H.
Qed.

Lemma mark_file_processing_claims (db : PIIDatabase) (job id : Z) (r : file_row) :
  In r (files db) -> file_id r = id -> is_pending_of job r = true ->
  (pending_count (mark_file_processing db id).2 job < pending_count db job)%nat.
Proof.
  intros Hin Hid Hp. unfold mark_file_processing.
  pose proof (claim_pending_lt job (files db) id r Hin Hid Hp) as H.
  destruct (transition (files db) id FilePending FileProcessing None) as [fl n]. exact H.
Qed.

Lemma mark_file_completed_pending (db : PIIDatabase) (job id j : Z) :
  pending_count (mark_file_completed db id j) job = pending_count db job.
Proof.
  unfold mark_file_completed.
  pose proof (transition_keeps_pending job (files db) id FileProcessing FileCompleted None
                ltac:(discriminate) ltac:(discriminate)) as H.
  destruct (transition (files db) id FileProcessing FileCompleted None) as [fl n]. exact H.
Qed.

Lemma mark_file_error_pending (db : PIIDatabase) (job id j : Z) (msg : string) :
  pending_count (mark_file_error db id j msg) job = pending_count db job.
Proof.
  unfold mark_file_error.
  pose proof (transition_keeps_pending job (files db) id FileProcessing FileError (Some msg)
                ltac:(discriminate) ltac:(discriminate)) as H.
  destruct (transition (files db) id FileProcessing FileError (Some msg)) as [fl n]. exact H.
Qed.

Lemma store_file_results_pending (db : PIIDatabase) (job id : Z) (t : Q) (es : list entity) :
  pending_count (store_file_results db id t es) job = pending_count db job.
Proof.
  rewrite !pending_count_rows. unfold store_file_results; cbn [files].
  induction (files db) as [|r fl IH]; [reflexivity|].
  cbn [map]. rewrite !pending_rows_cons, IH. f_equal.
  destruct (file_id r =? id); reflexivity.
Qed.

Lemma update_job_status_files (db : PIIDatabase) (job : Z) (s : string) :
  files (update_job_status db job s) = files db.
Proof. reflexivity. Qed.

(** The first row handed out by [get_pending_files] is a pending row of
    the job. *)
Lemma get_pending_files_head (db : PIIDatabase) (job limit id : Z) (path : string)
    (rest : list (Z * string)) :
  get_pending_files db job limit = (id, path) :: rest ->
  exists r, In r (files db) /\ file_id r = id /\ is_pending_of job r = true.
Proof.
  unfold get_pending_files. intros H.
  assert (Hin : In (id, path)
                  (map (fun r => (file_id r, file_path r))
                     (filter (fun r => is_pending_of job r = true) (files db)))).
  { rewrite <- (firstn_skipn (Z.to_nat limit)). apply in_or_app. left.
    rewrite H. left. reflexivity. }
  apply in_map_iff in Hin as (r & Hr & Hin).
  apply list_elem_of_In, list_elem_of_filter in Hin as [Hp Hin].
  exists r. split; [apply list_elem_of_In; exact Hin|].
  split; [congruence | exact Hp].
Qed.

(** ** The submission and the drain *)

Lemma submit_pending (env : environment) (k : nat) (job : Z) (pf : list (Z * string))
    (db : PIIDatabase) :
  (pending_count (submit env k db pf).2 job <= pending_count db job)%nat.
Proof.
  revert db. induction pf as [|[id path] rest IH]; intros db; [reflexivity|].
  cbn [submit].
  pose proof (mark_file_processing_pending db job id) as H1.
  destruct (mark_file_processing db id) as [claimed db1].
  pose proof (IH db1) as H2.
  destruct (submit env k db1 rest) as [futures db2].
  simpl in *. destruct claimed; simpl; lia.
Qed.

Lemma submit_claims (env : environment) (k : nat) (job limit : Z) (db : PIIDatabase) :
  get_pending_files db job limit <> [] ->
  (pending_count (submit env k db (get_pending_files db job limit)).2 job
     < pending_count db job)%nat.
Proof.
  intros Hne. destruct (get_pending_files db job limit) as [|[id path] rest] eqn:E;
    [congruence|].
  destruct (get_pending_files_head _ _ _ _ _ _ E) as (r & Hin & Hid & Hp).
  cbn [submit].
  pose proof (mark_file_processing_claims db job id r Hin Hid Hp) as H1.
  destruct (mark_file_processing db id) as [claimed db1].
  pose proof (submit_pending env k job rest db1) as H2.
  destruct (submit env k db1 rest) as [futures db2].
  simpl in *. destruct claimed; simpl; lia.
Qed.

Lemma handle_completion_pending (a : arguments) (job : Z) (b : bool) (f : future)
    (st : drain_state) :
  pending_count (d_db (handle_completion a b f st)) job = pending_count (d_db st) job.
Proof.
  unfold handle_completion, result.
  destruct (outcome f) as [r|[m|m]]; [destruct (res_success r)| |]; cbn [d_db].
  - rewrite mark_file_completed_pending, store_file_results_pending. reflexivity.
  - apply mark_file_error_pending.
  - destruct (fut_file_id f =? 0); [reflexivity|apply mark_file_error_pending].
  - reflexivity.
Qed.

Lemma drain_from_pending (a : arguments) (job : Z) (k : nat) (fs : list future) :
  forall i st,
    pending_count (d_db (drain_from a k i fs st)) job = pending_count (d_db st) job.
Proof.
  induction fs as [|f fs IH]; intros i st; [reflexivity|].
  cbn [drain_from]. rewrite IH. apply handle_completion_pending.
Qed.

(** Every completion is counted once, as processed or as an error. *)
Lemma handle_completion_counts (a : arguments) (b : bool) (f : future) (st : drain_state) :
  d_processed_count (handle_completion a b f st) + d_error_count (handle_completion a b f st)
    = d_processed_count st + d_error_count st + 1.
Proof.
  unfold handle_completion, result.
  destruct (outcome f) as [r|[m|m]]; [destruct (res_success r)| |]; simpl; lia.
Qed.

Lemma drain_from_counts (a : arguments) (k : nat) (fs : list future) :
  forall i st,
    d_processed_count (drain_from a k i fs st) + d_error_count (drain_from a k i fs st)
      = d_processed_count st + d_error_count st + Z.of_nat (length fs).
Proof.
  induction fs as [|f fs IH]; intros i st; [simpl; lia|].
  cbn [drain_from]. rewrite IH, handle_completion_counts.
  cbn [length]. lia.
Qed.

(** ** One iteration of the batch loop *)

Lemma run_batch_record (env : environment) (a : arguments) (k : nat) (st : loop_state)
    (pf : list (Z * string)) (d : drain_state) (b : batch_record) :
  run_batch env a k st pf = (d, b) ->
  b_index b = k /\ b_batch_size b = current_batch_size st /\ b_pending b = pf /\
  b_submitted b = (submit env k (l_db st) pf).1 /\
  b_drained b = (as_completed (b_submitted b) (BATCH_DEADLINE)).1 /\
  b_timed_out b = (as_completed (b_submitted b) (BATCH_DEADLINE)).2 /\
  d = drain_from a k 0 (b_drained b) (start_drain (submit env k (l_db st) pf).2 st) /\
  b_consecutive_errors b = d_consecutive_errors d /\
  b_stop_requested b = d_stop_requested d.
Proof.
  unfold run_batch. destruct (submit env k (l_db st) pf) as [futures db1].
  destruct (as_completed futures _) as [yielded timed_out] eqn:E.
  intros [= <- <-].
  cbn [b_index b_batch_size b_pending b_submitted b_drained b_timed_out
       b_consecutive_errors b_stop_requested fst snd].
  rewrite E. repeat split.
Qed.

Lemma iteration_cases (env : environment) (a : arguments) (k : nat) (st : loop_state) :
  iteration_spec env a k st (iteration env a k st).
Proof.
  unfold iteration.
  destruct (below_max_files a st) eqn:Hm; cbn [negb]; [|apply it_max_files; exact Hm].
  destruct (stop_is_set_at_top a k) eqn:Hs; [apply it_stopped; assumption|].
  destruct (get_pending_files _ _ _) as [|x rest] eqn:Hp.
  - apply it_drained_store; assumption.
  - destruct (run_batch env a k (prepared env a k st) (x :: rest)) as [d b] eqn:Hb.
    rewrite <- Hp in Hb.
    pose proof (it_batch env a k st d b Hm Hs ltac:(rewrite Hp; discriminate) Hb) as H.
    exact H.
Qed.

(** A loop invariant carries from the first iteration to the exit. *)
Lemma batch_loop_invariant (env : environment) (a : arguments)
    (I : nat -> loop_state -> Prop) (R : loop_exit -> loop_state -> Prop) :
  (forall k st st', I k st -> iteration env a k st = inr st' -> I (S k) st') ->
  (forall k st out st', I k st -> iteration env a k st = inl (out, st') -> R out st') ->
  forall fuel k st out st',
    I k st -> batch_loop fuel env a k st = Some (out, st') -> R out st'.
Proof.
  intros Hstep Hexit. induction fuel as [|fuel IH]; intros k st out st' HI Hrun;
    [discriminate|].
  cbn [batch_loop] in Hrun. destruct (iteration env a k st) as [[o s]|s] eqn:E.
  - injection Hrun as <- <-. eapply Hexit; eauto.
  - eapply IH; [|exact Hrun]. eapply Hstep; eauto.
Qed.

Lemma prepared_db (env : environment) (a : arguments) (k : nat) (st : loop_state) :
  l_db (prepared env a k st) = l_db st.
Proof. unfold prepared. destruct (scaling_due env a k st); reflexivity. Qed.

Lemma prepared_trace (env : environment) (a : arguments) (k : nat) (st : loop_state) :
  l_trace (prepared env a k st) = l_trace st.
Proof. unfold prepared. destruct (scaling_due env a k st); reflexivity. Qed.

Lemma prepared_counts (env : environment) (a : arguments) (k : nat) (st : loop_state) :
  processed_count (prepared env a k st) = processed_count st /\
  error_count (prepared env a k st) = error_count st /\
  l_sink (prepared env a k st) = l_sink st.
Proof. unfold prepared. destruct (scaling_due env a k st); repeat split. Qed.

(** Each iteration that goes on has claimed at least one pending row. *)
Lemma iteration_claims (env : environment) (a : arguments) (k : nat) (st st' : loop_state) :
  iteration env a k st = inr st' ->
  (pending_count (l_db st') (arg_job_id a) < pending_count (l_db st) (arg_job_id a))%nat.
Proof.
  intros E. pose proof (iteration_cases env a k st) as H. rewrite E in H.
  inversion H as [| | |d b Hm Hs Hp Hb Heq]; subst.
  destruct (b_timed_out b); [discriminate|].
  destruct (d_stop_requested d); [discriminate|].
  injection Heq as <-. cbn [with_batch_size after_drain l_db].
  destruct (run_batch_record _ _ _ _ _ _ _ Hb) as (_ & _ & _ & _ & _ & _ & Hd & _).
  rewrite Hd, drain_from_pending. cbn [start_drain d_db].
  rewrite <- (prepared_db env a k st). apply submit_claims. exact Hp.
Qed.

(** The loop ends within one iteration more than there are pending rows. *)
Lemma batch_loop_total (env : environment) (a : arguments) :
  forall fuel k st,
    (pending_count (l_db st) (arg_job_id a) < fuel)%nat ->
    exists out st', batch_loop fuel env a k st = Some (out, st').
Proof.
  induction fuel as [|fuel IH]; intros k st Hlt; [lia|].
  cbn [batch_loop]. destruct (iteration env a k st) as [[o s]|s] eqn:E; [eauto|].
  apply IH. pose proof (iteration_claims _ _ _ _ _ E). lia.
Qed.

(** [process_files_parallel] always comes back: with a result or with an
    exception. *)
Lemma process_files_parallel_total (env : environment) (db : PIIDatabase) (a : arguments) :
  exists r, process_files_parallel env db a = Some r.
Proof.
  unfold process_files_parallel, process_files_parallel_fuel.
  destruct (resolve_workers env a <=? 0); [eauto|].
  destruct (batch_loop_total env a (S (pending_count db (arg_job_id a))) 0%nat
              (initial_state env db a (resolve_workers env a))) as (out & st' & E);
    [cbn; lia|].
  rewrite E. cbn. destruct out; eauto.
Qed.

(** How a call ended, in terms of the loop. *)
Lemma process_files_parallel_inv (env : environment) (db : PIIDatabase) (a : arguments)
    (r : run) (st : loop_state) :
  process_files_parallel env db a = Some r -> run_final r = Some st ->
  exists fuel out,
    batch_loop fuel env a 0 (initial_state env db a (resolve_workers env a)) = Some (out, st) /\
    match out with
    | loop_done files_remaining => r = finish a files_remaining st
    | loop_raised e =>
        run_completion r = (if pool_shutdown_hangs st then blocks else raises e) /\
        run_db r = l_db st /\ run_sink r = l_sink st
    end.
Proof.
  unfold process_files_parallel, process_files_parallel_fuel.
  destruct (resolve_workers env a <=? 0); [intros [= <-]; discriminate|].
  destruct (batch_loop _ env a 0 _) as [[out st']|] eqn:E; [|discriminate].
  cbn. destruct out; intros [= <-]; cbn; intros [= <-]; eexists _, _; (split; [exact E|]).
  - reflexivity.
  - repeat split.
Qed.

(** ** The batch size never drops below the minimum *)

Lemma emergency_batch_minimum (u : utilization) (bs : Z) :
  MIN_BATCH_SIZE <= bs -> MIN_BATCH_SIZE <= emergency_batch u bs.
Proof.
  unfold emergency_batch, MIN_BATCH_SIZE. intros H.
  destruct (Qltb _ _); [destruct (20 <? bs)|]; lia.
Qed.

Lemma adjust_batch_minimum (u : utilization) (bs : Z) :
  MIN_BATCH_SIZE <= bs -> MIN_BATCH_SIZE <= adjust_batch u bs.
Proof.
  unfold adjust_batch, MIN_BATCH_SIZE, MAX_BATCH_SIZE, BATCH_STEP_SIZE. intros H.
  destruct (batch_rule u) as [[]|]; lia.
Qed.

Lemma relieve_memory_minimum (m : Q) (bs : Z) :
  MIN_BATCH_SIZE <= bs -> MIN_BATCH_SIZE <= relieve_memory m bs.
Proof.
  unfold relieve_memory, MIN_BATCH_SIZE. intros H. destruct (Qltb _ _); lia.
Qed.

Lemma adapt_minimum (env : environment) (k : nat) (st : loop_state) :
  MIN_BATCH_SIZE <= current_batch_size st ->
  MIN_BATCH_SIZE <= current_batch_size (adapt env k st).
Proof.
  intros H. unfold adapt. cbn [current_batch_size].
  apply adjust_batch_minimum, emergency_batch_minimum, H.
Qed.

Lemma prepared_minimum (env : environment) (a : arguments) (k : nat) (st : loop_state) :
  MIN_BATCH_SIZE <= current_batch_size st ->
  MIN_BATCH_SIZE <= current_batch_size (prepared env a k st).
Proof.
  intros H. unfold prepared. destruct (scaling_due env a k st); [apply adapt_minimum|]; exact H.
Qed.

Lemma iteration_minimum (env : environment) (a : arguments) (k : nat) (st : loop_state) :
  batch_floor st ->
  match iteration env a k st with
  | inl (_, st') => batch_floor st'
  | inr st' => batch_floor st'
  end.
Proof.
  intros [Hbs Htr].
  destruct (iteration_cases env a k st) as [| | |d b Hm Hs Hp Hb]; try (split; assumption).
  - split; [apply prepared_minimum; exact Hbs | rewrite prepared_trace; exact Htr].
  - destruct (run_batch_record _ _ _ _ _ _ _ Hb) as (_ & Hsize & _).
    assert (Hnew : batch_floor (after_drain (prepared env a k st) d b)).
    { split; cbn [after_drain current_batch_size l_trace].
      - apply prepared_minimum; exact Hbs.
      - rewrite prepared_trace. apply Forall_app. split; [exact Htr|].
        constructor; [|constructor]. rewrite Hsize. apply prepared_minimum; exact Hbs. }
    destruct (b_timed_out b); [exact Hnew|].
    destruct (d_stop_requested d); [exact Hnew|].
    destruct Hnew as [H1 H2]. split; cbn [with_batch_size current_batch_size l_trace].
    + apply relieve_memory_minimum, prepared_minimum, Hbs.
    + exact H2.
Qed.

(** C10: in a run started with a batch size of at least MIN_BATCH_SIZE
    (20) the current batch size never drops below 20: every batch is
    fetched under a size of at least 20 and the loop ends with one; and
    each reduction site bounds its result from below by MIN_BATCH_SIZE,
    whatever the size it starts from: the critical-load clamp sets it
    to 20 exactly, the adaptive decrease and the halving under memory
    pressure above 90% both take the maximum with 20. *)
Theorem batch_size_never_below_minimum (env : environment) (db : PIIDatabase)
    (a : arguments) :
  MIN_BATCH_SIZE <= batch_size a ->
  (exists r, process_files_parallel env db a = Some r /\
     forall st, run_final r = Some st ->
       MIN_BATCH_SIZE <= current_batch_size st /\
       Forall (fun b => MIN_BATCH_SIZE <= b_batch_size b) (l_trace st)) /\
  (forall u bs, (CRITICAL_LOAD_FACTOR < load_factor u)%Q -> MIN_BATCH_SIZE < bs ->
     emergency_batch u bs = MIN_BATCH_SIZE) /\
  (forall u bs, batch_rule u = Some false ->
     adjust_batch u bs = Z.max MIN_BATCH_SIZE (bs - BATCH_STEP_SIZE) /\
     MIN_BATCH_SIZE <= adjust_batch u bs) /\
  (forall m bs, (90 # 1 < m)%Q ->
     relieve_memory m bs = Z.max MIN_BATCH_SIZE (bs / 2) /\
     MIN_BATCH_SIZE <= relieve_memory m bs).
Proof.
  intros Hinit. split; [|split; [|split]].
  - destruct (process_files_parallel_total env db a) as [r Hr].
    exists r. split; [exact Hr|]. intros st Hst.
    destruct (process_files_parallel_inv _ _ _ _ _ Hr Hst) as (fuel & out & Hloop & _).
    refine (batch_loop_invariant env a (fun _ => batch_floor) (fun _ => batch_floor)
              _ _ fuel 0%nat _ out st _ Hloop).
    + intros k s s' HI E. pose proof (iteration_minimum env a k s HI) as H.
      rewrite E in H. exact H.
    + intros k s o s' HI E. pose proof (iteration_minimum env a k s HI) as H.
      rewrite E in H. exact H.
    + split; [exact Hinit | constructor].
  - intros u bs Hc Hbs. unfold emergency_batch.
    apply Qltb_lt in Hc. rewrite Hc. apply Z.ltb_lt in Hbs. rewrite Hbs. reflexivity.
  - intros u bs Hr. unfold adjust_batch. rewrite Hr. split; [reflexivity|lia].
  - intros m bs Hm. unfold relieve_memory. apply Qltb_lt in Hm. rewrite Hm.
    split; [reflexivity|lia].
Qed.

Lemma batch_size_never_below_minimum_witness :
  exists r, process_files_parallel (calm burst) (discovered 1 100) (service_call None) = Some r /\
    forall st, run_final r = Some st ->
      MIN_BATCH_SIZE <= current_batch_size st /\
      Forall (fun b => MIN_BATCH_SIZE <= b_batch_size b) (l_trace st).
Proof.
  apply (batch_size_never_below_minimum (calm burst) (discovered 1 100) (service_call None)).
  vm_compute. discriminate.
Defined.

(** ** Rows leave 'pending' through recorded batches only *)

Lemma file_status_of_map (fl : list file_row) (g : file_row -> file_row) (id : Z) :
  (forall r, file_id (g r) = file_id r) ->
  status <$> List.find (fun r => file_id r =? id) (map g fl)
    = (fun r => status (g r)) <$> List.find (fun r => file_id r =? id) fl.
Proof.
  intros Hg. induction fl as [|r fl IH]; [reflexivity|].
  cbn [map List.find]. rewrite Hg. destruct (file_id r =? id); [reflexivity|exact IH].
Qed.

(** A conditional update leaves the rows of other ids, and the rows in
    other states, as they are. *)
Lemma transition_frame (fl : list file_row) (id' id : Z) (from to : file_status)
    (msg : option string) (s : file_status) :
  id <> id' \/ s <> from ->
  status <$> List.find (fun r => file_id r =? id) fl = Some s ->
  status <$> List.find (fun r => file_id r =? id) (transition fl id' from to msg).1 = Some s.
Proof.
  intros Hne Hs. unfold transition; cbn [fst].
  rewrite file_status_of_map by (intros r; destruct (_ && _); reflexivity).
  destruct (List.find (fun r => file_id r =? id) fl) as [r|] eqn:E; [|discriminate].
  apply find_some in E as [_ Hid]. apply Z.eqb_eq in Hid.
  cbn in Hs |- *. injection Hs as Hs. f_equal.
  destruct (Z.eqb_spec (file_id r) id'); cbn [andb]; [|exact Hs].
  destruct (bool_decide_reflect (status r = from)); [|exact Hs].
  destruct Hne; congruence.
Qed.

Lemma mark_file_processing_frame (db : PIIDatabase) (id' id : Z) (s : file_status) :
  id <> id' -> file_status_of db id = Some s ->
  file_status_of (mark_file_processing db id').2 id = Some s.
Proof.
  intros Hne Hs. unfold mark_file_processing, file_status_of.
  pose proof (transition_frame (files db) id' id FilePending FileProcessing None s
                (or_introl Hne) Hs) as H.
  destruct (transition (files db) id' FilePending FileProcessing None). exact H.
Qed.

Lemma submit_frame (env : environment) (k : nat) (pf : list (Z * string)) (id : Z)
    (s : file_status) :
  ~ In id (map fst pf) ->
  forall db, file_status_of db id = Some s ->
             file_status_of (submit env k db pf).2 id = Some s.
Proof.
  induction pf as [|[id' path] rest IH]; intros Hnin db Hs; [exact Hs|].
  cbn [submit]. cbn [map fst] in Hnin.
  assert (Hne : id <> id') by (intros ->; apply Hnin; left; reflexivity).
  assert (Hrest : ~ In id (map fst rest)) by (intros H; apply Hnin; right; exact H).
  pose proof (mark_file_processing_frame db id' id s Hne Hs) as H1.
  destruct (mark_file_processing db id') as [claimed db1].
  pose proof (IH Hrest db1 H1) as H2.
  destruct (submit env k db1 rest) as [futures db2]. destruct claimed; exact H2.
Qed.

Lemma handle_completion_keeps_pending (a : arguments) (flag : bool) (f : future)
    (st : drain_state) (id : Z) :
  file_status_of (d_db st) id = Some FilePending ->
  file_status_of (d_db (handle_completion a flag f st)) id = Some FilePending.
Proof.
  intros Hs.
  assert (Hstore : forall i t es,
            file_status_of (store_file_results (d_db st) i t es) id = Some FilePending).
  { intros i t es. unfold file_status_of, store_file_results; cbn [files].
    rewrite file_status_of_map by (intros r; destruct (_ =? _); reflexivity).
    unfold file_status_of in Hs.
    destruct (List.find (fun r => file_id r =? id) (files (d_db st))) as [r|];
      [|discriminate].
    cbn in Hs |- *. destruct (file_id r =? i); exact Hs. }
  assert (Hd : FilePending <> FileProcessing) by discriminate.
  assert (Hdone : forall db i j, file_status_of db id = Some FilePending ->
            file_status_of (mark_file_completed db i j) id = Some FilePending).
  { intros db i j H. unfold mark_file_completed, file_status_of.
    pose proof (transition_frame (files db) i id FileProcessing FileCompleted None
                  FilePending (or_intror Hd) H) as H'.
    destruct (transition (files db) i FileProcessing FileCompleted None). exact H'. }
  assert (Herr : forall db i j m, file_status_of db id = Some FilePending ->
            file_status_of (mark_file_error db i j m) id = Some FilePending).
  { intros db i j m H. unfold mark_file_error, file_status_of.
    pose proof (transition_frame (files db) i id FileProcessing FileError (Some m)
                  FilePending (or_intror Hd) H) as H'.
    destruct (transition (files db) i FileProcessing FileError (Some m)). exact H'. }
  unfold handle_completion, result.
  destruct (outcome f) as [r|[m|m]]; [destruct (res_success r)| |]; cbn [d_db]; auto.
  destruct (fut_file_id f =? 0); auto.
Qed.

Lemma drain_from_keeps_pending (a : arguments) (k : nat) (fs : list future) (id : Z) :
  forall i st, file_status_of (d_db st) id = Some FilePending ->
               file_status_of (d_db (drain_from a k i fs st)) id = Some FilePending.
Proof.
  induction fs as [|f fs IH]; intros i st H; [exact H|].
  cbn [drain_from]. apply IH, handle_completion_keeps_pending, H.
Qed.

Lemma run_batch_frame (env : environment) (a : arguments) (k : nat) (st : loop_state)
    (pf : list (Z * string)) (d : drain_state) (b : batch_record) (id : Z) :
  run_batch env a k st pf = (d, b) ->
  file_status_of (l_db st) id = Some FilePending ->
  In id (map fst (b_pending b)) \/ file_status_of (d_db d) id = Some FilePending.
Proof.
  intros Hb Hs.
  destruct (run_batch_record _ _ _ _ _ _ _ Hb) as (_ & _ & Hpf & _ & _ & _ & Hd & _).
  destruct (in_dec Z.eq_dec id (map fst pf)) as [Hin|Hnin]; [left; rewrite Hpf; exact Hin|].
  right. rewrite Hd. apply drain_from_keeps_pending. cbn [start_drain d_db].
  apply submit_frame; assumption.
Qed.

Lemma iteration_claims_recorded (env : environment) (a : arguments) (k : nat)
    (st : loop_state) (db0 : PIIDatabase) :
  claims_recorded db0 st ->
  match iteration env a k st with
  | inl (_, st') => claims_recorded db0 st'
  | inr st' => claims_recorded db0 st'
  end.
Proof.
  intros Hrec.
  destruct (iteration_cases env a k st) as [Hm|Hm Hs|Hm Hs Hp|d b Hm Hs Hp Hb]; try exact Hrec.
  - intros id Hpend. rewrite prepared_db, prepared_trace. exact (Hrec id Hpend).
  - assert (Hnew : claims_recorded db0 (after_drain (prepared env a k st) d b)).
    { intros id Hpend. cbn [after_drain l_db l_trace]. rewrite prepared_trace.
      destruct (Hrec id Hpend) as [Hs0|(b0 & Hin & Hid)].
      - rewrite <- (prepared_db env a k st) in Hs0.
        destruct (run_batch_frame _ _ _ _ _ _ _ id Hb Hs0) as [Hin|Hkeep].
        + right. exists b. split; [apply in_or_app; right; left; reflexivity | exact Hin].
        + left. exact Hkeep.
      - right. exists b0. split; [apply in_or_app; left; exact Hin | exact Hid]. }
    destruct (b_timed_out b); [exact Hnew|].
    destruct (d_stop_requested d); exact Hnew.
Qed.

(** ** Graceful stop *)

Lemma handle_completion_stop (a : arguments) (flag : bool) (f : future) (st : drain_state) :
  d_stop_requested st = true \/ flag = true ->
  d_stop_requested (handle_completion a flag f st) = true.
Proof.
  intros H. assert (E : d_stop_requested st || flag = true).
  { destruct H as [-> | ->]; [reflexivity | apply orb_true_r]. }
  unfold handle_completion, result.
  destruct (outcome f) as [r|[m|m]]; [destruct (res_success r)| |];
    cbn [d_stop_requested]; rewrite E; reflexivity.
Qed.

Lemma drain_from_keeps_stop (a : arguments) (k : nat) (fs : list future) :
  forall i st, d_stop_requested st = true ->
               d_stop_requested (drain_from a k i fs st) = true.
Proof.
  induction fs as [|f fs IH]; intros i st H; [exact H|].
  cbn [drain_from]. apply IH, handle_completion_stop. left; exact H.
Qed.

(** A signal seen at any completion of the batch leaves
    [stop_requested] set when the drain ends. *)
Lemma drain_from_sees_stop (a : arguments) (k : nat) (fs : list future) :
  forall i st j, (j < length fs)%nat ->
    stop_is_set_at_completion a k (i + j) = true ->
    d_stop_requested (drain_from a k i fs st) = true.
Proof.
  induction fs as [|f fs IH]; intros i st j Hj Hset; [simpl in Hj; lia|].
  cbn [drain_from]. destruct j as [|j].
  - rewrite Nat.add_0_r in Hset. apply drain_from_keeps_stop, handle_completion_stop.
    right; exact Hset.
  - apply (IH (S i) _ j); [simpl in Hj; lia|].
    replace (S i + j)%nat with (i + S j)%nat by lia. exact Hset.
Qed.

Lemma run_batch_ok (env : environment) (a : arguments) (k : nat) (st : loop_state)
    (pf : list (Z * string)) (d : drain_state) (b : batch_record) :
  stop_is_set_at_top a k = false -> run_batch env a k st pf = (d, b) -> batch_ok a b.
Proof.
  intros Htop Hb.
  destruct (run_batch_record _ _ _ _ _ _ _ Hb)
    as (Hi & _ & _ & _ & Hdr & _ & Hd & _ & Hstop).
  unfold batch_ok. rewrite Hi. split; [exact Htop|]. split; [exact Hdr|].
  intros i Hlt Hset. rewrite Hstop, Hd.
  apply (drain_from_sees_stop a k (b_drained b) 0%nat _ i Hlt). exact Hset.
Qed.

Lemma run_batch_counts (env : environment) (a : arguments) (k : nat) (st : loop_state)
    (pf : list (Z * string)) (d : drain_state) (b : batch_record) :
  run_batch env a k st pf = (d, b) ->
  d_processed_count d + d_error_count d
    = processed_count st + error_count st + Z.of_nat (length (b_drained b)).
Proof.
  intros Hb.
  destruct (run_batch_record _ _ _ _ _ _ _ Hb) as (_ & _ & _ & _ & _ & _ & Hd & _).
  rewrite Hd, drain_from_counts. reflexivity.
Qed.

Lemma drained_total_snoc (tr : list batch_record) (b : batch_record) :
  drained_total (tr ++ [b]) = drained_total tr + Z.of_nat (length (b_drained b)).
Proof.
  unfold drained_total. rewrite map_app, concat_app, length_app. cbn [map concat].
  rewrite app_nil_r. lia.
Qed.

Lemma trace_open_snoc (a : arguments) (k : nat) (tr : list batch_record) (b : batch_record) :
  trace_open a k tr -> b_index b = k -> batch_ok a b ->
  b_stop_requested b = false -> b_timed_out b = false ->
  trace_open a (S k) (tr ++ [b]).
Proof.
  intros (Hidx & Hok & Hq) Hi Hb Hs Ht. split; [|split].
  - rewrite map_app, Hidx, seq_S. cbn [map]. rewrite Hi. reflexivity.
  - apply Forall_app. split; [exact Hok | constructor; [exact Hb | constructor]].
  - apply Forall_app. split; [exact Hq | constructor; [split; assumption | constructor]].
Qed.

(** What each iteration keeps, and what it leaves on exit. *)
Lemma iteration_trace (env : environment) (a : arguments) (k : nat) (st : loop_state) :
  trace_open a k (l_trace st) ->
  processed_count st + error_count st = drained_total (l_trace st) ->
  match iteration env a k st with
  | inl (_, st') =>
      trace_closed a (l_trace st') /\
      processed_count st' + error_count st' = drained_total (l_trace st')
  | inr st' =>
      trace_open a (S k) (l_trace st') /\
      processed_count st' + error_count st' = drained_total (l_trace st')
  end.
Proof.
  intros Hopen Hcount.
  destruct (prepared_counts env a k st) as (Hp1 & Hp2 & _).
  destruct (iteration_cases env a k st) as [| | |d b Hm Hs Hp Hb].
  - split; [exists k; left; exact Hopen | exact Hcount].
  - split; [exists k; left; exact Hopen | exact Hcount].
  - rewrite prepared_trace, Hp1, Hp2.
    split; [exists k; left; exact Hopen | exact Hcount].
  - pose proof (run_batch_ok _ _ _ _ _ _ _ Hs Hb) as Hok.
    pose proof (run_batch_counts _ _ _ _ _ _ _ Hb) as Hc. rewrite Hp1, Hp2 in Hc.
    destruct (run_batch_record _ _ _ _ _ _ _ Hb) as (Hi & _ & _ & _ & _ & _ & _ & _ & Hstop).
    assert (Hcount' : processed_count (after_drain (prepared env a k st) d b)
                      + error_count (after_drain (prepared env a k st) d b)
                      = drained_total (l_trace (after_drain (prepared env a k st) d b))).
    { cbn [after_drain processed_count error_count l_trace].
      rewrite prepared_trace, drained_total_snoc. lia. }
    assert (Hclosed : trace_closed a (l_trace (after_drain (prepared env a k st) d b))).
    { exists k. right. exists (l_trace st), b.
      cbn [after_drain l_trace]. rewrite prepared_trace. repeat split; try assumption;
        apply Hopen || apply Hok. }
    destruct (b_timed_out b) eqn:Ht; [split; assumption|].
    destruct (d_stop_requested d) eqn:Hd; [split; assumption|].
    split; [|exact Hcount'].
    cbn [with_batch_size after_drain l_trace]. rewrite prepared_trace.
    apply trace_open_snoc; assumption.
Qed.

Lemma trace_open_index (a : arguments) (k : nat) (tr : list batch_record) (b : batch_record) :
  trace_open a k tr -> In b tr -> (b_index b < k)%nat.
Proof.
  intros (Hidx & _) Hin. apply (in_map b_index) in Hin. rewrite Hidx in Hin.
  apply in_seq in Hin. lia.
Qed.

Lemma trace_open_has (a : arguments) (k : nat) (tr : list batch_record) (n : nat) :
  trace_open a k tr -> (n < k)%nat -> exists b, In b tr /\ b_index b = n.
Proof.
  intros (Hidx & _) Hn.
  assert (Hin : In n (map b_index tr)) by (rewrite Hidx; apply in_seq; lia).
  apply in_map_iff in Hin as (b & Hb & Hin). eauto.
Qed.

Lemma trace_open_ok (a : arguments) (k : nat) (tr : list batch_record) (b : batch_record) :
  trace_open a k tr -> In b tr ->
  batch_ok a b /\ b_stop_requested b = false /\ b_timed_out b = false.
Proof.
  intros (_ & Hok & Hq) Hin. rewrite Forall_forall in Hok, Hq.
  split; [apply Hok, list_elem_of_In, Hin | apply Hq, list_elem_of_In, Hin].
Qed.

(** No batch is claimed in or after an iteration that starts with the
    signal set. *)
Lemma trace_closed_top (a : arguments) (tr : list batch_record) (n : nat)
    (b : batch_record) :
  trace_closed a tr -> stop_is_set_at_top a n = true -> In b tr -> (b_index b < n)%nat.
Proof.
  intros [k Hc] Hset Hin.
  destruct (Nat.lt_ge_cases (b_index b) n) as [|Hge]; [assumption|exfalso].
  assert (Hall : forall b', In b' tr -> batch_ok a b' /\ (b_index b' <= k)%nat).
  { destruct Hc as [Ho|(init & l & -> & Ho & Hl & Hokl)]; intros b' Hb'.
    - split; [apply (trace_open_ok a k tr b' Ho Hb')|].
      pose proof (trace_open_index a k tr b' Ho Hb'). lia.
    - apply in_app_or in Hb' as [Hb'|[<-|[]]].
      + split; [apply (trace_open_ok a k init b' Ho Hb')|].
        pose proof (trace_open_index a k init b' Ho Hb'). lia.
      + split; [exact Hokl | lia]. }
  assert (Hn : exists b', In b' tr /\ b_index b' = n).
  { destruct (Hall b Hin) as [_ Hbk].
    destruct Hc as [Ho|(init & l & -> & Ho & Hl & Hokl)].
    - apply (trace_open_has a k tr n Ho).
      pose proof (trace_open_index a k tr b Ho Hin). lia.
    - destruct (Nat.eq_dec n k) as [->|Hne].
      + exists l. split; [apply in_or_app; right; left; reflexivity | exact Hl].
      + destruct (trace_open_has a k init n Ho ltac:(lia)) as (b' & Hb' & Hi).
        exists b'. split; [apply in_or_app; left; exact Hb' | exact Hi]. }
  destruct Hn as (b' & Hb' & Hi). destruct (Hall b' Hb') as [(Htop & _) _].
  rewrite Hi in Htop. congruence.
Qed.

(** A batch in which a completion sees the signal is the last one. *)
Lemma trace_closed_drain (a : arguments) (tr : list batch_record) (b b' : batch_record)
    (i : nat) :
  trace_closed a tr -> In b tr -> (i < length (b_drained b))%nat ->
  stop_is_set_at_completion a (b_index b) i = true ->
  In b' tr -> (b_index b' <= b_index b)%nat.
Proof.
  intros [k Hc] Hin Hi Hset Hin'.
  destruct Hc as [Ho|(init & l & -> & Ho & Hl & Hokl)].
  - destruct (trace_open_ok a k tr b Ho Hin) as ((_ & _ & Hsee) & Hq & _).
    rewrite (Hsee i Hi Hset) in Hq. discriminate.
  - apply in_app_or in Hin as [Hin|[<-|[]]].
    + destruct (trace_open_ok a k init b Ho Hin) as ((_ & _ & Hsee) & Hq & _).
      rewrite (Hsee i Hi Hset) in Hq. discriminate.
    + apply in_app_or in Hin' as [Hin'|[<-|[]]]; [|lia].
      pose proof (trace_open_index a k init b' Ho Hin'). lia.
Qed.

Lemma trace_closed_drained (a : arguments) (tr : list batch_record) (b : batch_record) :
  trace_closed a tr -> In b tr ->
  b_drained b = (as_completed (b_submitted b) BATCH_DEADLINE).1.
Proof.
  intros [k Hc] Hin.
  destruct Hc as [Ho|(init & l & -> & Ho & Hl & Hokl)].
  - apply (trace_open_ok a k tr b Ho Hin).
  - apply in_app_or in Hin as [Hin|[<-|[]]].
    + apply (trace_open_ok a k init b Ho Hin).
    + apply Hokl.
Qed.

Lemma file_status_of_update_job_status (db : PIIDatabase) (job : Z) (s : string) (id : Z) :
  file_status_of (update_job_status db job s) id = file_status_of db id.
Proof. reflexivity. Qed.

Lemma run_db_files (env : environment) (db : PIIDatabase) (a : arguments) (r : run)
    (st : loop_state) (id : Z) :
  process_files_parallel env db a = Some r -> run_final r = Some st ->
  file_status_of (run_db r) id = file_status_of (l_db st) id.
Proof.
  intros Hr Hst.
  destruct (process_files_parallel_inv _ _ _ _ _ Hr Hst) as (fuel & out & _ & Hout).
  destruct out as [fr|e].
  - subst r. reflexivity.
  - destruct Hout as (_ & -> & _). reflexivity.
Qed.

(** C6: once the stop signal is set, no further batch is claimed: no
    batch belongs to an iteration at whose start the signal is set, and
    a batch during whose drain a completion sees the signal is the last
    batch of the run; a row leaves 'pending' only as part of such a
    recorded batch.  The drain is not cut short: every batch is drained
    of all the futures [as_completed] yields, whatever the signal, and
    each of them is counted as processed or as an error. *)
Theorem graceful_stop (env : environment) (db : PIIDatabase) (a : arguments)
    (ev : stop_signal) :
  stop_event a = Some ev ->
  exists r, process_files_parallel env db a = Some r /\
    forall st, run_final r = Some st ->
      (forall n b, is_set_at_top ev n = true -> In b (l_trace st) -> (b_index b < n)%nat) /\
      (forall b i b', In b (l_trace st) -> (i < length (b_drained b))%nat ->
         is_set_at_completion ev (b_index b) i = true ->
         In b' (l_trace st) -> (b_index b' <= b_index b)%nat) /\
      (forall id, file_status_of db id = Some FilePending ->
         file_status_of (run_db r) id <> Some FilePending ->
         exists b, In b (l_trace st) /\ In id (map fst (b_pending b))) /\
      (forall b, In b (l_trace st) ->
         b_drained b = (as_completed (b_submitted b) BATCH_DEADLINE).1) /\
      processed_count st + error_count st = drained_total (l_trace st).
Proof.
  intros Hev. destruct (process_files_parallel_total env db a) as [r Hr].
  exists r. split; [exact Hr|]. intros st Hst.
  destruct (process_files_parallel_inv _ _ _ _ _ Hr Hst) as (fuel & out & Hloop & _).
  assert (Hfin : (trace_closed a (l_trace st) /\
                  processed_count st + error_count st = drained_total (l_trace st)) /\
                 claims_recorded db st).
  { refine (batch_loop_invariant env a
              (fun k s => (trace_open a k (l_trace s) /\
                           processed_count s + error_count s = drained_total (l_trace s)) /\
                          claims_recorded db s)
              (fun _ s => (trace_closed a (l_trace s) /\
                           processed_count s + error_count s = drained_total (l_trace s)) /\
                          claims_recorded db s)
              _ _ fuel 0%nat _ out st _ Hloop).
    - intros k s s' [[H1 H2] H3] E.
      pose proof (iteration_trace env a k s H1 H2) as H.
      pose proof (iteration_claims_recorded env a k s db H3) as H'.
      rewrite E in H, H'. split; assumption.
    - intros k s o s' [[H1 H2] H3] E.
      pose proof (iteration_trace env a k s H1 H2) as H.
      pose proof (iteration_claims_recorded env a k s db H3) as H'.
      rewrite E in H, H'. split; assumption.
    - split; [split; [|reflexivity]|].
      + repeat split; constructor.
      + intros id Hid. left. exact Hid. }
  destruct Hfin as [[Hclosed Hcount] Hrec].
  assert (Htop : forall n, stop_is_set_at_top a n = is_set_at_top ev n)
    by (intros n; unfold stop_is_set_at_top; rewrite Hev; reflexivity).
  assert (Hdrain : forall n i, stop_is_set_at_completion a n i = is_set_at_completion ev n i)
    by (intros n i; unfold stop_is_set_at_completion; rewrite Hev; reflexivity).
  split; [|split; [|split; [|split]]].
  - intros n b Hset Hin. apply (trace_closed_top a (l_trace st) n b Hclosed); [|exact Hin].
    rewrite Htop. exact Hset.
  - intros b i b' Hin Hi Hset Hin'.
    apply (trace_closed_drain a (l_trace st) b b' i Hclosed Hin Hi); [|exact Hin'].
    rewrite Hdrain. exact Hset.
  - intros id Hid Hgone. rewrite (run_db_files env db a r st id Hr Hst) in Hgone.
    destruct (Hrec id Hid) as [Hstill|Hb]; [contradiction|exact Hb].
  - intros b Hin. apply (trace_closed_drained a (l_trace st) b Hclosed Hin).
  - exact Hcount.
Qed.

Lemma graceful_stop_witness :
  exists r, stopped_run = Some r /\
    forall st, run_final r = Some st ->
      (forall n b, is_set_at_top (raised_during 0 25) n = true -> In b (l_trace st) ->
         (b_index b < n)%nat) /\
      (forall b i b', In b (l_trace st) -> (i < length (b_drained b))%nat ->
         is_set_at_completion (raised_during 0 25) (b_index b) i = true ->
         In b' (l_trace st) -> (b_index b' <= b_index b)%nat) /\
      (forall id, file_status_of (discovered 1 100) id = Some FilePending ->
         file_status_of (run_db r) id <> Some FilePending ->
         exists b, In b (l_trace st) /\ In id (map fst (b_pending b))) /\
      (forall b, In b (l_trace st) ->
         b_drained b = (as_completed (b_submitted b) BATCH_DEADLINE).1) /\
      processed_count st + error_count st = drained_total (l_trace st).
Proof.
  apply (graceful_stop (calm (fun _ => succeeding (1 # 1))) (discovered 1 100)
           (service_call (Some (raised_during 0 25))) (raised_during 0 25)).
  reflexivity.
Defined.

(** In that run the signal is seen at the 26th of 50 completions: the
    other 24 are still handled, the second batch is never claimed, and
    50 rows stay pending. *)
Lemma stopped_run_drains_first_batch :
  exists r, stopped_run = Some r /\
    trace_of r = [(0%nat, 50%nat, 0, true)] /\
    pending_count (run_db r) 1 = 50%nat /\ length (run_sink r) = 50%nat.
Proof. eexists. split; [vm_compute; reflexivity|]. vm_compute. repeat split. Qed.

(** ** The circuit breaker *)

Lemma count_failed_cons (f : future) (fs : list future) :
  count_failed (f :: fs) = (if failed f then 1 else 0) + count_failed fs.
Proof.
  unfold count_failed. rewrite filter_cons.
  destruct (decide (failed f = true)) as [E|E].
  - rewrite E. cbn [length]. lia.
  - destruct (failed f); [congruence|]. lia.
Qed.

Lemma count_failed_nonneg (fs : list future) : 0 <= count_failed fs.
Proof. unfold count_failed. lia. Qed.

(** Within one drain the counter never exceeds the number of failed
    completions, and the breaker stays quiet while that number is below
    MAX_CONSECUTIVE_ERRORS. *)
Lemma drain_from_breaker (a : arguments) (k : nat) (fs : list future) :
  stop_event a = None ->
  forall i st,
    d_stop_requested st = false -> 0 <= d_consecutive_errors st ->
    d_consecutive_errors st + count_failed fs < MAX_CONSECUTIVE_ERRORS ->
    d_stop_requested (drain_from a k i fs st) = false /\
    0 <= d_consecutive_errors (drain_from a k i fs st)
      <= d_consecutive_errors st + count_failed fs.
Proof.
  intros Hev. induction fs as [|f fs IH]; intros i st Hs H0 Hlt.
  - cbn [drain_from]. unfold count_failed; simpl. split; [exact Hs|lia].
  - cbn [drain_from]. rewrite count_failed_cons in Hlt |- *.
    pose proof (count_failed_nonneg fs) as Hnn.
    assert (Hflag : stop_is_set_at_completion a k i = false)
      by (unfold stop_is_set_at_completion; rewrite Hev; reflexivity).
    rewrite Hflag.
    set (st1 := handle_completion a false f st).
    assert (H1 : d_stop_requested st1 = false /\
                 0 <= d_consecutive_errors st1 /\
                 d_consecutive_errors st1
                   <= d_consecutive_errors st + (if failed f then 1 else 0)).
    { unfold st1, handle_completion, result, failed, MAX_CONSECUTIVE_ERRORS in *.
      destruct (outcome f) as [r|[m|m]]; [destruct (res_success r)| |];
        cbn [negb d_stop_requested d_consecutive_errors] in *;
        rewrite Hs; cbn [orb];
        repeat split; try lia; apply Z.leb_gt; lia. }
    destruct H1 as (Hs1 & H01 & Hle1).
    destruct (IH (S i) st1 Hs1 H01 ltac:(lia)) as (Hs2 & Hc2).
    split; [exact Hs2|lia].
Qed.

(** 'interrupted' is reached through [max_files] only. *)
Lemma interrupted_needs_max_files (env : environment) (db : PIIDatabase) (a : arguments)
    (r : run) (v : return_value) :
  max_files a = None ->
  process_files_parallel env db a = Some r -> run_completion r = returns v ->
  ret_status v = "completed".
Proof.
  intros Hmax Hr Hv.
  destruct (run_final r) as [st|] eqn:Hst.
  - destruct (process_files_parallel_inv _ _ _ _ _ Hr Hst) as (fuel & out & Hloop & Hout).
    assert (Hne : out <> loop_done true).
    { refine (batch_loop_invariant env a (fun _ _ => True) (fun o _ => o <> loop_done true)
                _ _ fuel 0%nat _ out st I Hloop); [auto|].
      intros k s o s' _ E. pose proof (iteration_cases env a k s) as H. rewrite E in H.
      inversion H as [Hm| | |d b Hm Hs Hp Hb Heq]; subst; try discriminate.
      - unfold below_max_files in Hm. rewrite Hmax in Hm. discriminate.
      - destruct (b_timed_out b); [injection Heq as <- _; discriminate|].
        destruct (d_stop_requested d); [injection Heq as <- _; discriminate|discriminate]. }
    destruct out as [[]|e]; [congruence| |].
    + subst r. cbn in Hv. injection Hv as <-. reflexivity.
    + destruct Hout as (Hc & _). destruct (pool_shutdown_hangs _); congruence.
  - unfold process_files_parallel, process_files_parallel_fuel in Hr.
    destruct (resolve_workers env a <=? 0).
    + injection Hr as <-. discriminate.
    + destruct (batch_loop _ env a 0 _) as [[[fr|e] st']|]; cbn in Hr; [| |discriminate];
        injection Hr as <-; discriminate.
Qed.

(** C1, at the failing input: with 60 pending files, batches of 50 and
    an analyzer that fails on every file, the counter reaches 50 at the
    end of the first batch and the breaker asks to stop; the loop is left
    with [files_remaining = False], so the call returns status
    'completed', writes 'completed' as the job status and leaves 10 rows
    pending: it should have been 'interrupted'. *)
Theorem circuit_breaker_reports_completed :
  exists r, failing_run = Some r /\
    trace_of r = [(0%nat, 50%nat, MAX_CONSECUTIVE_ERRORS, true)] /\
    run_completion r =
      returns {| ret_processed := 0; ret_errors := 50; ret_status := "completed";
                 ret_scaling_stats := Some no_scaling |} /\
    job_status_of (run_db r) 1 = Some "completed" /\
    pending_count (run_db r) 1 = 10%nat.
Proof. eexists. split; [vm_compute; reflexivity|]. vm_compute. repeat split. Qed.

(** Within one drain the counter starts from the value it is given,
    goes back to zero with every success and grows by one with every
    failed completion. *)
Lemma drain_from_counter (a : arguments) (k : nat) (fs : list future) :
  forall i st,
    0 <= d_consecutive_errors st ->
    0 <= d_consecutive_errors (drain_from a k i fs st)
      <= d_consecutive_errors st + count_failed fs.
Proof.
  induction fs as [|f fs IH]; intros i st H0.
  - cbn [drain_from]. unfold count_failed; simpl. lia.
  - cbn [drain_from]. rewrite count_failed_cons.
    pose proof (count_failed_nonneg fs) as Hnn.
    set (st1 := handle_completion a (stop_is_set_at_completion a k i) f st).
    assert (H1 : 0 <= d_consecutive_errors st1
                   <= d_consecutive_errors st + (if failed f then 1 else 0)).
    { unfold st1, handle_completion, result, failed.
      destruct (outcome f) as [r|[m|m]]; [destruct (res_success r)| |];
        cbn [negb d_consecutive_errors]; lia. }
    specialize (IH (S i) st1 (proj1 H1)). lia.
Qed.

(** While the failed completions of a drain stay below
    MAX_CONSECUTIVE_ERRORS the breaker is quiet: a stop request at the
    end of the drain was there at its start or comes from a completion
    that saw the stop signal set. *)
Lemma drain_from_quiet_breaker (a : arguments) (k : nat) (fs : list future) :
  forall i st,
    0 <= d_consecutive_errors st ->
    d_consecutive_errors st + count_failed fs < MAX_CONSECUTIVE_ERRORS ->
    d_stop_requested (drain_from a k i fs st) = true ->
    d_stop_requested st = true \/
    exists j, (j < length fs)%nat /\ stop_is_set_at_completion a k (i + j) = true.
Proof.
  induction fs as [|f fs IH]; intros i st H0 Hlt Hstop.
  - left. exact Hstop.
  - cbn [drain_from] in Hstop. rewrite count_failed_cons in Hlt.
    pose proof (count_failed_nonneg fs) as Hnn.
    set (flag := stop_is_set_at_completion a k i) in *.
    set (st1 := handle_completion a flag f st) in *.
    assert (H1 : 0 <= d_consecutive_errors st1
                   <= d_consecutive_errors st + (if failed f then 1 else 0) /\
                 (d_stop_requested st1 = true ->
                  d_stop_requested st = true \/ flag = true)).
    { unfold st1, handle_completion, result, failed, MAX_CONSECUTIVE_ERRORS in *.
      destruct (outcome f) as [r|[m|m]]; [destruct (res_success r)| |];
        cbn [negb d_consecutive_errors d_stop_requested] in *;
        (split; [lia|]); intros Hs;
        repeat match type of Hs with
               | _ || _ = true => apply orb_true_iff in Hs as [Hs|Hs]
               end; auto;
        apply Z.leb_le in Hs; lia. }
    destruct H1 as (Hc1 & Hs1).
    destruct (IH (S i) st1 (proj1 Hc1) ltac:(lia) Hstop) as [Hst1|(j & Hj & Hset)].
    + destruct (Hs1 Hst1) as [Hst|Hflag]; [left; exact Hst|].
      right. exists 0%nat. split; [cbn [length]; lia|].
      rewrite Nat.add_0_r. exact Hflag.
    + right. exists (S j). split; [cbn [length]; lia|].
      rewrite Nat.add_succ_r. exact Hset.
Qed.

(** C4, as the code has it: the consecutive-error counter restarts at
    zero with every batch.  At the end of any batch, whatever happened in
    earlier batches and whatever the stop signal does, it is at most the
    number of failed completions of that batch; and in a batch with
    fewer than 50 failed completions the breaker does not trip: a stop
    request at its end comes from a completion that saw the stop signal
    set.  In the run over 100 files in batches of 50 where the analyzer
    fails on files 11 to 60, the counter stands at 40 at the end of the
    first batch and at 0 at the end of the second; the breaker never
    trips, all 100 files are drained (files 11 to 60 in error, the
    others completed), none stays pending and the call returns
    'completed'. *)
Theorem consecutive_errors_restart_each_batch :
  (forall env a k st pf d b,
     run_batch env a k st pf = (d, b) ->
     0 <= b_consecutive_errors b <= count_failed (b_drained b) /\
     (count_failed (b_drained b) < MAX_CONSECUTIVE_ERRORS ->
      b_stop_requested b = true ->
      exists i, (i < length (b_drained b))%nat /\
                stop_is_set_at_completion a k i = true)) /\
  (exists r, burst_run = Some r /\
     trace_of r = [(0%nat, 50%nat, 40, false); (1%nat, 50%nat, 0, false)] /\
     run_completion r =
       returns {| ret_processed := 50; ret_errors := 50; ret_status := "completed";
                  ret_scaling_stats := Some no_scaling |} /\
     job_status_of (run_db r) 1 = Some "completed" /\
     map status (files (run_db r)) =
       replicate 10 FileCompleted ++ replicate 50 FileError ++ replicate 40 FileCompleted /\
     pending_count (run_db r) 1 = 0%nat).
Proof.
  split.
  - intros env a k st pf d b Hb.
    destruct (run_batch_record _ _ _ _ _ _ _ Hb) as (_ & _ & _ & _ & _ & _ & Hd & Hc & Hs).
    rewrite Hc, Hs, Hd. split.
    + pose proof (drain_from_counter a k (b_drained b) 0%nat
                    (start_drain (submit env k (l_db st) pf).2 st)) as H.
      cbn [start_drain d_consecutive_errors] in H. lia.
    + intros Hlt Hstop.
      destruct (drain_from_quiet_breaker a k (b_drained b) 0%nat
                  (start_drain (submit env k (l_db st) pf).2 st)) as [H|H];
        cbn [start_drain d_stop_requested d_consecutive_errors]; try lia;
        [exact Hstop | discriminate | exact H].
  - eexists. split; [vm_compute; reflexivity|]. vm_compute. repeat split.
Qed.

Lemma consecutive_errors_restart_each_batch_witness :
  let first_batch :=
    (run_batch (calm burst) (service_call (Some (raised_during 5 0))) 0
       (initial_state (calm burst) (discovered 1 100)
          (service_call (Some (raised_during 5 0))) 8)
       (get_pending_files (discovered 1 100) 1 50)).2 in
  0 <= b_consecutive_errors first_batch <= count_failed (b_drained first_batch).
Proof.
  intros first_batch. destruct consecutive_errors_restart_each_batch as [H _].
  apply (H (calm burst) (service_call (Some (raised_during 5 0))) 0%nat
           (initial_state (calm burst) (discovered 1 100)
              (service_call (Some (raised_during 5 0))) 8)
           (get_pending_files (discovered 1 100) 1 50)
           (run_batch (calm burst) (service_call (Some (raised_during 5 0))) 0
              (initial_state (calm burst) (discovered 1 100)
                 (service_call (Some (raised_during 5 0))) 8)
              (get_pending_files (discovered 1 100) 1 50)).1
           first_batch).
  apply surjective_pairing.
Defined.

(** C4, the scenario as the specification words it fails: after the
    burst on files 11 to 60 the job is 'completed', not 'interrupted',
    and file 61 is completed, not pending. *)
Lemma burst_run_is_not_interrupted :
  exists r, burst_run = Some r /\
    job_status_of (run_db r) 1 <> Some "interrupted" /\
    file_status_of (run_db r) 61 <> Some FilePending.
Proof.
  eexists. split; [vm_compute; reflexivity|]. split; vm_compute; discriminate.
Qed.

(** ** Timeouts *)

(** The drain never looks at the time a future took. *)
Lemma handle_completion_ignores_time (a : arguments) (flag : bool) (f g : future)
    (st : drain_state) :
  outcome f = outcome g -> fut_file_id f = fut_file_id g ->
  handle_completion a flag f st = handle_completion a flag g st.
Proof.
  intros Ho Hi. unfold handle_completion, result. rewrite Ho, Hi. reflexivity.
Qed.

(** C2, at the failing input: the worker of file 1 runs 200 s, longer
    than WORKER_TIMEOUT_SECONDS, and then returns a success;
    [as_completed] hands the future over once it is done, [result]
    returns at once, and the file is stored as completed with no error
    message: the 180 s deadline never fires.  Past the 360 s given to
    [as_completed] the iterator raises instead: the call ends with
    [TimeoutError], the slow file stays in 'processing' and the job
    status is never written. *)
Theorem slow_worker_is_not_timed_out :
  (inject_Z WORKER_TIMEOUT_SECONDS < run_seconds (slow_worker (200 # 1) 1))%Q /\
  (exists r, slow_run (200 # 1) = Some r /\
     file_status_of (run_db r) 1 = Some FileCompleted /\
     file_error_of (run_db r) 1 = None /\
     run_completion r =
       returns {| ret_processed := 2; ret_errors := 0; ret_status := "completed";
                  ret_scaling_stats := Some no_scaling |}) /\
  (exists r, slow_run (400 # 1) = Some r /\
     run_completion r = raises (TimeoutError "1 (of 2) futures unfinished") /\
     file_status_of (run_db r) 1 = Some FileProcessing /\
     file_error_of (run_db r) 1 = None /\
     job_status_of (run_db r) 1 = Some "running").
Proof.
  split; [reflexivity|]. split.
  - eexists. split; [vm_compute; reflexivity|]. vm_compute. repeat split.
  - eexists. split; [vm_compute; reflexivity|]. vm_compute. repeat split.
Qed.

(** ** Progress events *)

(** With a callback in place every completion but one kind produces one
    event of the right type: the handler of [TimeoutError] makes no
    call to the callback.  No future handed over by [as_completed] holds
    that exception, as [submit_future] shows. *)
Lemma handle_completion_events (a : arguments) (flag : bool) (f : future)
    (st : drain_state) :
  progress_callback a = true ->
  match outcome f with
  | Returned r =>
      exists ev, d_sink (handle_completion a flag f st) = d_sink st ++ [ev] /\
                 ev_type ev = (if res_success r then "file_completed" else "file_error") /\
                 ev_file_id ev = Some (res_file_id r)
  | Raised (OtherException m) =>
      exists ev, d_sink (handle_completion a flag f st) = d_sink st ++ [ev] /\
                 ev_type ev = "file_error"
  | Raised (TimeoutError _) =>
      d_sink (handle_completion a flag f st) = d_sink st
  end.
Proof.
  intros Hcb. unfold handle_completion, result, call_back.
  destruct (outcome f) as [r|[m|m]]; [destruct (res_success r)| |];
    cbn [d_sink]; rewrite ?Hcb; eauto.
Qed.

(** ** The control law over time *)

Lemma low_load_below_max : (LOW_LOAD_FACTOR < MAX_LOAD_FACTOR)%Q.
Proof. vm_compute. reflexivity. Qed.

Lemma max_load_below_critical : (MAX_LOAD_FACTOR < CRITICAL_LOAD_FACTOR)%Q.
Proof. vm_compute. reflexivity. Qed.

Lemma adjust_workers_bounds (w : Z) (u : utilization) :
  8 <= w ->
  8 <= adjust_workers w u /\ w - 20 <= adjust_workers w u <= w + 10.
Proof.
  intros Hw. unfold adjust_workers, WORKER_EMERGENCY_REDUCTION, WORKER_STEP_SIZE.
  assert (0 <= w / 3) by (apply Z.div_pos; lia).
  assert (0 <= w / 5) by (apply Z.div_pos; lia).
  repeat match goal with |- context [if ?c then _ else _] => destruct c end; lia.
Qed.

Lemma adjust_workers_overload (w : Z) (u : utilization) :
  8 <= w -> (MAX_LOAD_FACTOR < load_factor u)%Q -> adjust_workers w u <= w.
Proof.
  intros Hw Hl. unfold adjust_workers, WORKER_EMERGENCY_REDUCTION, WORKER_STEP_SIZE.
  assert (0 <= w / 3) by (apply Z.div_pos; lia).
  assert (0 <= w / 5) by (apply Z.div_pos; lia).
  apply Qltb_lt in Hl. rewrite Hl.
  destruct (Qltb CRITICAL_LOAD_FACTOR (load_factor u)); lia.
Qed.

Lemma adjust_workers_critical (w : Z) (u : utilization) :
  8 <= w -> (CRITICAL_LOAD_FACTOR < load_factor u)%Q ->
  8 <= adjust_workers w u <= Z.max 8 (w - 3).
Proof.
  intros Hw Hl. unfold adjust_workers, WORKER_EMERGENCY_REDUCTION.
  apply Qltb_lt in Hl. rewrite Hl.
  destruct (Z.eq_dec w 8) as [->|Hne]; [vm_compute; split; discriminate|].
  assert (3 <= w / 3) by (apply Z.div_le_lower_bound; lia).
  lia.
Qed.

Lemma adjust_workers_idle (w : Z) (u : utilization) :
  (cpu_percent u < MIN_CPU_UTILIZATION)%Q -> (memory_percent u < 80 # 1)%Q ->
  (load_factor u < LOW_LOAD_FACTOR)%Q ->
  adjust_workers w u = w + WORKER_STEP_SIZE.
Proof.
  intros Hc Hm Hl. unfold adjust_workers.
  assert (H1 : Qltb CRITICAL_LOAD_FACTOR (load_factor u) = false).
  { apply Qltb_ge. apply Qlt_le_weak. eapply Qlt_trans; [exact Hl|].
    eapply Qlt_trans; [apply low_load_below_max | apply max_load_below_critical]. }
  assert (H2 : Qltb MAX_LOAD_FACTOR (load_factor u) = false).
  { apply Qltb_ge. apply Qlt_le_weak. eapply Qlt_trans; [exact Hl|].
    apply low_load_below_max. }
  rewrite H1, H2.
  apply Qltb_lt in Hc, Hm, Hl. rewrite Hc, Hm, Hl. reflexivity.
Qed.

Lemma after_checks_succ (p : system_probe) (u : utilization) (n : nat) (w : Z) :
  after_checks p u (S n) w =
    calculate_optimal_workers (Some p) (Some (after_checks p u n w)) (Some u).
Proof. reflexivity. Qed.

(** X1. One scaling check on a worker target of at least 8 never
    answers fewer than 8, takes away at most 20 and adds at most 10;
    while the load factor is above [MAX_LOAD_FACTOR] it never adds
    any. *)
Theorem scaling_check_is_bounded (p : system_probe) (w : Z) (u : utilization) :
  0 <= memory_total p < 2 ^ 1000 -> 8 <= w ->
  8 <= calculate_optimal_workers (Some p) (Some w) (Some u) /\
  w - WORKER_EMERGENCY_REDUCTION <= calculate_optimal_workers (Some p) (Some w) (Some u)
    <= w + WORKER_STEP_SIZE /\
  ((MAX_LOAD_FACTOR < load_factor u)%Q ->
     calculate_optimal_workers (Some p) (Some w) (Some u) <= w).
Proof.
  intros Hp Hw. rewrite (adjusted_workers p w u Hp).
  pose proof (adjust_workers_bounds w u Hw) as [H1 H2].
  unfold WORKER_EMERGENCY_REDUCTION, WORKER_STEP_SIZE.
  repeat split; try lia. intros Hl. apply adjust_workers_overload; assumption.
Qed.

Lemma scaling_check_is_bounded_witness :
  8 <= calculate_optimal_workers (Some (plain_probe 32 (64 * 2 ^ 30))) (Some 90)
         (Some (overloaded (7 # 4))) <= 90.
Proof.
  destruct (scaling_check_is_bounded (plain_probe 32 (64 * 2 ^ 30)) 90 (overloaded (7 # 4)))
    as (H1 & H2 & H3).
  - simpl. lia.
  - lia.
  - split; [exact H1 | apply H3; vm_compute; reflexivity].
Defined.

(** X2. Under a load factor that stays above [CRITICAL_LOAD_FACTOR], a
    worker target of [w >= 8] is down at the floor of 8 after at most
    [(w - 8) / 3] (rounded up) scaling checks, and stays there. *)
Theorem critical_load_reaches_the_floor (p : system_probe) (u : utilization) (n : nat)
    (w : Z) :
  0 <= memory_total p < 2 ^ 1000 -> (CRITICAL_LOAD_FACTOR < load_factor u)%Q ->
  8 <= w -> w - 8 <= 3 * Z.of_nat n ->
  after_checks p u n w = 8.
Proof.
  intros Hp Hl Hw Hn.
  assert (H : 8 <= after_checks p u n w <= Z.max 8 (w - 3 * Z.of_nat n)).
  { clear Hn. induction n as [|n IH].
    - cbn. lia.
    - rewrite after_checks_succ, (adjusted_workers p _ u Hp).
      destruct IH as [IH1 IH2].
      pose proof (adjust_workers_critical _ u IH1 Hl). lia. }
  lia.
Qed.

Lemma critical_load_reaches_the_floor_witness :
  after_checks (plain_probe 32 (64 * 2 ^ 30)) (overloaded (5 # 2)) 8 32 = 8.
Proof.
  apply critical_load_reaches_the_floor.
  - simpl. lia.
  - vm_compute. reflexivity.
  - lia.
  - lia.
Defined.

(** X3. Nothing caps the worker target from above: while the machine
    reads idle (CPU below 60%, memory below 80%, load factor below 0.8)
    every scaling check adds [WORKER_STEP_SIZE] workers, so [n] checks
    turn [w] into [w + 10 n]. *)
Theorem idle_load_grows_without_bound (p : system_probe) (u : utilization) (n : nat)
    (w : Z) :
  0 <= memory_total p < 2 ^ 1000 ->
  (cpu_percent u < MIN_CPU_UTILIZATION)%Q -> (memory_percent u < 80 # 1)%Q ->
  (load_factor u < LOW_LOAD_FACTOR)%Q ->
  after_checks p u n w = w + WORKER_STEP_SIZE * Z.of_nat n.
Proof.
  intros Hp Hc Hm Hl. induction n as [|n IH].
  - cbn. unfold WORKER_STEP_SIZE. lia.
  - rewrite after_checks_succ, (adjusted_workers p _ u Hp), IH.
    rewrite (adjust_workers_idle _ u Hc Hm Hl). unfold WORKER_STEP_SIZE. lia.
Qed.

Lemma idle_load_grows_without_bound_witness :
  after_checks (plain_probe 8 (16 * 2 ^ 30))
    {| cpu_percent := 10 # 1; memory_percent := 30 # 1;
       load_avg_1min := 1 # 10; load_factor := 1 # 10 |} 100 8 = 1008.
Proof.
  apply (idle_load_grows_without_bound (plain_probe 8 (16 * 2 ^ 30))
           {| cpu_percent := 10 # 1; memory_percent := 30 # 1;
              load_avg_1min := 1 # 10; load_factor := 1 # 10 |} 100 8).
  - simpl. lia.
  - vm_compute. reflexivity.
  - vm_compute. reflexivity.
  - vm_compute. reflexivity.
Defined.

(** ** Sizing a fresh pool *)

Lemma floor_of_memory_mono (total : Z) :
  0 <= total -> floor_of_memory 6 10 total <= floor_of_memory 7 10 total.
Proof.
  intros H. unfold floor_of_memory. apply Z.div_le_mono; lia.
Qed.

Lemma initial_workers_le (C total : Z) :
  0 <= C < 2 ^ 53 -> 0 <= total < 2 ^ 50 ->
  calculate_optimal_workers (Some (plain_probe C total)) None None
    <= Z.min 64 (floor_of_memory 7 10 total).
Proof.
  intros HC Ht.
  destruct (memory_term_0_7 total Ht) as (m7 & E7 & B7).
  destruct (memory_term_0_6 total Ht) as (m6 & E6 & B6).
  assert (Ht' : 0 <= total < 2 ^ 53) by (split; [lia|]; eapply Z.lt_trans; [apply Ht|]; reflexivity).
  rewrite (initial_workers_tiers C total m7 m6 HC Ht' E7 E6).
  pose proof (floor_of_memory_mono total (proj1 Ht)).
  destruct (96 <=? C) eqn:E1; [lia|].
  destruct (32 <=? C) eqn:E2; [lia|].
  apply Z.leb_gt in E1, E2.
  destruct (8 <=? C) eqn:E3.
  - assert (8 * C / 10 <= 25) by (apply Z.div_le_upper_bound; lia). lia.
  - apply Z.leb_gt in E3.
    assert (9 * C / 10 <= 7) by (apply Z.div_le_upper_bound; lia). lia.
Qed.

(** X4. The size chosen for a fresh pool never exceeds 64 workers nor
    one worker per 1/0.7 GB of RAM, whatever the number of CPUs. *)
Theorem initial_sizing_is_capped (C total : Z) :
  0 <= C < 2 ^ 53 -> 0 <= total < 2 ^ 50 ->
  calculate_optimal_workers (Some (plain_probe C total)) None None <= 64 /\
  calculate_optimal_workers (Some (plain_probe C total)) None None
    <= floor_of_memory 7 10 total.
Proof.
  intros HC Ht. pose proof (initial_workers_le C total HC Ht). lia.
Qed.

Lemma initial_sizing_is_capped_witness :
  calculate_optimal_workers (Some (plain_probe 256 (2 ^ 40))) None None <= 64.
Proof.
  apply (initial_sizing_is_capped 256 (2 ^ 40)); lia.
Defined.

(** X5. On a machine reporting less than 10/7 GB of RAM the automatic
    sizing yields no worker at all, and a call of
    [process_files_parallel] that leaves the number of workers to it
    ends with the pool's [ValueError] before any file is touched: the
    store is as it was and no event was sent. *)
Theorem too_little_memory_refuses_to_run (env : environment) (db : PIIDatabase)
    (a : arguments) (C total : Z) :
  max_workers a = None \/ max_workers a = Some 0 ->
  probe_at_start env = Some (plain_probe C total) ->
  0 <= C < 2 ^ 53 -> 0 <= total -> 7 * total < 10 * 2 ^ 30 ->
  process_files_parallel env db a =
    Some {| run_completion := raises (OtherException "max_workers must be greater than 0");
            run_db := db; run_sink := []; run_final := None |}.
Proof.
  intros Hw Hp HC Ht Hsmall.
  assert (Ht50 : 0 <= total < 2 ^ 50) by lia.
  pose proof (initial_workers_le C total HC Ht50) as Hle.
  assert (Hz : floor_of_memory 7 10 total = 0).
  { unfold floor_of_memory. apply Z.div_small. lia. }
  unfold process_files_parallel, process_files_parallel_fuel.
  assert (Hr : resolve_workers env a
               = calculate_optimal_workers (Some (plain_probe C total)) None None).
  { unfold resolve_workers. destruct Hw as [-> | ->]; rewrite ?Hp; reflexivity. }
  rewrite Hr.
  destruct (calculate_optimal_workers (Some (plain_probe C total)) None None <=? 0) eqn:E.
  - reflexivity.
  - apply Z.leb_gt in E. lia.
Qed.

Lemma too_little_memory_refuses_to_run_witness :
  run_completion <$>
    process_files_parallel
      {| clock_start := 0 # 1; clock_at_check := fun _ => 0 # 1;
         clock_after_check := fun _ => 0 # 1;
         get_system_utilization := fun _ => steady_utilization;
         probe_at_start := Some (plain_probe 4 (2 ^ 30));
         probe_at_check := fun _ => None;
         memory_after_batch := fun _ => 50 # 1;
         run_of := fun _ _ _ => succeeding (1 # 1) |}
      (discovered 1 3)
      {| arg_job_id := 1; max_workers := None; batch_size := 50; max_files := None;
         progress_callback := true; enable_dynamic_scaling := true; stop_event := None |}
  = Some (raises (OtherException "max_workers must be greater than 0")).
Proof.
  rewrite (too_little_memory_refuses_to_run _ (discovered 1 3) _ 4 (2 ^ 30)).
  - reflexivity.
  - left. reflexivity.
  - reflexivity.
  - lia.
  - lia.
  - lia.
Defined.

(** ** Stop and clear *)

Lemma reset_state_idem (self : AnalysisService) :
  reset_state (reset_state self) = reset_state self.
Proof. reflexivity. Qed.

(** X6. [stop_analysis] succeeds exactly when the status offers
    [can_stop].  When it does, the service is left [STOPPING] with the
    stop signal set and nothing else changed, and a second stop is
    refused and changes nothing. *)
Theorem stop_analysis_is_accepted_once (self : AnalysisService) :
  success (stop_analysis self).1 = can_stop self /\
  (can_stop self = false -> (stop_analysis self).2 = self) /\
  (can_stop self = true ->
     let self' := (stop_analysis self).2 in
     _state self' = STOPPING /\ _stop_requested self' = true /\
     state (stop_analysis self).1 = "stopping" /\
     _current_job_id self' = _current_job_id self /\
     _progress self' = _progress self /\
     _error_message self' = _error_message self /\
     _start_time self' = _start_time self /\ _end_time self' = _end_time self /\
     stop_analysis self' =
       ({| success := false; error := Some "No analysis is running"; message := None;
           state := "stopping" |}, self')).
Proof.
  unfold can_stop, stop_analysis.
  destruct (is_running self) eqn:E; cbn.
  - repeat split; intros; try discriminate; reflexivity.
  - repeat split; intros; try discriminate; reflexivity.
Qed.

Lemma stop_analysis_is_accepted_once_witness :
  _state (stop_analysis (a_service PROCESSING "/data" "/app/db/pii_results.db")).2 = STOPPING.
Proof.
  destruct (stop_analysis_is_accepted_once
              (a_service PROCESSING "/data" "/app/db/pii_results.db")) as (_ & _ & H).
  apply H. reflexivity.
Defined.

(** X7. When the database path cannot be removed (it names a
    directory), [clear_results] answers with the error of [os.remove]
    and resets nothing: the service keeps its state, job, progress and
    times, and the file system is as it was. *)
Theorem clear_results_failure_resets_nothing (self : AnalysisService) (w : world) :
  is_running self = false -> fs w !! _db_path self = Some Directory ->
  clear_results self w =
    ({| success := false;
        error := Some ("[Errno 21] Is a directory: '" +:+ _db_path self +:+ "'");
        message := None; state := value (_state self) |}, self, w).
Proof.
  intros Hr Hd. unfold clear_results, os_path_exists, os_remove.
  rewrite Hr, Hd. reflexivity.
Qed.

Lemma clear_results_failure_resets_nothing_witness :
  (clear_results (a_service COMPLETED "/data" "/data") a_world).1.2
    = a_service COMPLETED "/data" "/data".
Proof.
  rewrite (clear_results_failure_resets_nothing (a_service COMPLETED "/data" "/data") a_world).
  - reflexivity.
  - reflexivity.
  - vm_compute. reflexivity.
Defined.

(** X8. After a successful [clear_results] the status offers Start and
    not Stop, clearing again succeeds and changes nothing, and
    [start_analysis] is accepted whenever the data path is a
    directory. *)
Theorem clear_results_then_start (now : Z) (seen : AnalysisState)
    (self : AnalysisService) (w : world) :
  is_running self = false -> fs w !! _db_path self <> Some Directory ->
  let self1 := (clear_results self w).1.2 in
  let w1 := (clear_results self w).2 in
  can_start self1 = true /\ can_stop self1 = false /\
  clear_results self1 w1 =
    ({| success := true; error := None; message := Some "Results cleared successfully";
        state := "idle" |}, self1, w1) /\
  (os_path_isdir w (_data_path self) = true ->
     success (start_analysis now seen self1 w1).1.1 = true /\
     _state (start_analysis now seen self1 w1).1.2 = IDLE).
Proof.
  intros Hr Hd.
  assert (Hc : exists w1,
             clear_results self w =
               ({| success := true; error := None;
                   message := Some "Results cleared successfully";
                   state := "idle" |}, reset_state self, w1) /\
             fs w1 !! _db_path self = None /\
             (forall p, p <> _db_path self -> fs w1 !! p = fs w !! p)).
  { unfold clear_results, os_path_exists, os_remove. rewrite Hr.
    destruct (fs w !! _db_path self) as [[|]|] eqn:E.
    - eexists. split; [reflexivity|]. cbn. split.
      + apply lookup_delete_eq.
      + intros p Hp. apply lookup_delete_ne. congruence.
    - congruence.
    - eexists. split; [reflexivity|]. split; [exact E | reflexivity]. }
  destruct Hc as (w1 & Hc & Hgone & Hrest). rewrite Hc. cbn [fst snd].
  split; [reflexivity|]. split; [reflexivity|]. split.
  - unfold clear_results, os_path_exists. cbn [is_running reset_state _state _db_path].
    rewrite Hgone. reflexivity.
  - intros Hdir. unfold start_analysis. cbn [is_running reset_state _state _data_path].
    assert (Hne : _data_path self <> _db_path self).
    { intros Heq. unfold os_path_isdir in Hdir. rewrite Heq in Hdir.
      destruct (fs w !! _db_path self) as [[|]|]; congruence. }
    unfold os_path_isdir in *. rewrite (Hrest _ Hne).
    destruct (fs w !! _data_path self) as [[|]|]; try discriminate.
    split; reflexivity.
Qed.

Lemma clear_results_then_start_witness :
  can_start (clear_results (a_service ERROR "/data" "/app/db/pii_results.db") a_world).1.2
    = true.
Proof.
  destruct (clear_results_then_start 0 SCANNING
              (a_service ERROR "/data" "/app/db/pii_results.db") a_world) as (H & _).
  - reflexivity.
  - vm_compute. discriminate.
  - exact H.
Defined.

(** ** Conditional updates of the file table *)

Lemma with_files_same (db : PIIDatabase) : with_files db (files db) = db.
Proof. destruct db; reflexivity. Qed.

Lemma transition_ids (fl : list file_row) (id : Z) (from to : file_status)
    (msg : option string) :
  map file_id (transition fl id from to msg).1 = map file_id fl.
Proof.
  cbn [transition fst]. rewrite map_map. apply map_ext. intros r.
  destruct (_ && _); reflexivity.
Qed.

Lemma transition_miss (fl : list file_row) (id : Z) (from to : file_status)
    (msg : option string) :
  Forall (fun r => file_id r = id -> status r <> from) fl ->
  transition fl id from to msg = (fl, 0%nat).
Proof.
  intros H. unfold transition. induction H as [|r fl Hr _ IH]; [reflexivity|].
  injection IH as IH1 IH2.
  assert (E : (file_id r =? id) && bool_decide (status r = from) = false).
  { destruct (file_id r =? id) eqn:E1; [|reflexivity]. apply Z.eqb_eq in E1.
    cbn. apply bool_decide_eq_false. auto. }
  cbn [map]. rewrite filter_cons, E, IH1.
  destruct (decide (false = true)) as [?|_]; [discriminate|].
  rewrite IH2. reflexivity.
Qed.

Lemma find_row_in (fl : list file_row) (id : Z) (r : file_row) :
  List.find (fun r => file_id r =? id) fl = Some r -> In r fl /\ file_id r = id.
Proof.
  intros H. apply find_some in H as [H1 H2]. apply Z.eqb_eq in H2. auto.
Qed.

Lemma find_row_none (fl : list file_row) (id : Z) :
  List.find (fun r => file_id r =? id) fl = None -> ~ In id (map file_id fl).
Proof.
  intros H Hin. apply in_map_iff in Hin as (r & Hr & Hin).
  pose proof (find_none _ _ H r Hin) as Hn. cbn in Hn. lia.
Qed.

Lemma transition_hit_once (fl : list file_row) (id : Z) (from to : file_status)
    (msg : option string) :
  NoDup (map file_id fl) ->
  status <$> List.find (fun r => file_id r =? id) fl = Some from ->
  (transition fl id from to msg).2 = 1%nat.
Proof.
  cbn [transition snd]. induction fl as [|r fl IH]; intros Hnd Hf; [discriminate|].
  cbn [map] in Hnd. apply NoDup_cons in Hnd as [Hnotin Hnd].
  cbn [List.find] in Hf. rewrite filter_cons.
  destruct (file_id r =? id) eqn:E.
  - cbn in Hf. injection Hf as Hf. apply Z.eqb_eq in E.
    rewrite (bool_decide_eq_true_2 _ Hf). cbn [andb].
    destruct (decide (true = true)) as [_|?]; [|congruence].
    cbn [length]. f_equal.
    assert (Hm : Forall (fun r' => file_id r' = id -> status r' <> from) fl).
    { apply Forall_forall. intros r' Hin Hid. exfalso. apply Hnotin.
      rewrite E. rewrite <- Hid. apply list_elem_of_In, in_map, list_elem_of_In, Hin. }
    pose proof (transition_miss fl id from to msg Hm) as Ht.
    unfold transition in Ht. injection Ht as _ Ht. exact Ht.
  - cbn [andb]. destruct (decide (false = true)) as [?|_]; [discriminate|].
    apply IH; assumption.
Qed.

Lemma transition_hit_status (fl : list file_row) (id : Z) (from to : file_status)
    (msg : option string) :
  status <$> List.find (fun r => file_id r =? id) fl = Some from ->
  (fun r => (status r, error_message r))
    <$> List.find (fun r => file_id r =? id) (transition fl id from to msg).1
    = Some (to, msg).
Proof.
  cbn [transition fst]. induction fl as [|r fl IH]; intros Hf; [discriminate|].
  cbn [List.find map] in *.
  destruct (file_id r =? id) eqn:E.
  - cbn in Hf. injection Hf as Hf.
    rewrite (bool_decide_eq_true_2 _ Hf). cbn. rewrite E. reflexivity.
  - cbn [andb]. rewrite E. apply IH, Hf.
Qed.

Lemma transition_other (fl : list file_row) (id' id : Z) (from to : file_status)
    (msg : option string) :
  id <> id' ->
  (fun r => (status r, error_message r))
    <$> List.find (fun r => file_id r =? id) (transition fl id' from to msg).1
  = (fun r => (status r, error_message r)) <$> List.find (fun r => file_id r =? id) fl.
Proof.
  intros Hne. cbn [transition fst]. induction fl as [|r fl IH]; [reflexivity|].
  cbn [List.find map].
  destruct ((file_id r =? id') && bool_decide (status r = from)) eqn:Eh.
  - apply andb_true_iff in Eh as [E1 _]. apply Z.eqb_eq in E1.
    cbn [set_status file_id].
    destruct (file_id r =? id) eqn:E2; [apply Z.eqb_eq in E2; congruence | exact IH].
  - destruct (file_id r =? id); [reflexivity | exact IH].
Qed.

Lemma pair_status {A : Type} (x : option file_row) (s : file_status) (m : option string) :
  (fun r => (status r, error_message r)) <$> x = Some (s, m) ->
  status <$> x = Some s /\ (r ← x; error_message r) = m.
Proof.
  destruct x as [r|]; cbn; [|discriminate]. intros H. injection H as -> ->. auto.
Qed.

Lemma pair_status_eq (x y : option file_row) :
  (fun r => (status r, error_message r)) <$> x
    = (fun r => (status r, error_message r)) <$> y ->
  status <$> x = status <$> y.
Proof.
  destruct x, y; cbn; intros H; try discriminate; [|reflexivity].
  injection H as -> _. reflexivity.
Qed.

(** ** Single operations of the store *)

Lemma mark_file_processing_ids (db : PIIDatabase) (id : Z) :
  map file_id (files (mark_file_processing db id).2) = map file_id (files db).
Proof. apply transition_ids. Qed.

Lemma mark_file_completed_ids (db : PIIDatabase) (id job : Z) :
  map file_id (files (mark_file_completed db id job)) = map file_id (files db).
Proof. apply transition_ids. Qed.

Lemma mark_file_error_ids (db : PIIDatabase) (id job : Z) (msg : string) :
  map file_id (files (mark_file_error db id job msg)) = map file_id (files db).
Proof. apply transition_ids. Qed.

Lemma store_file_results_ids (db : PIIDatabase) (id : Z) (t : Q) (es : list entity) :
  map file_id (files (store_file_results db id t es)) = map file_id (files db).
Proof.
  cbn [store_file_results files]. rewrite map_map. apply map_ext. intros r.
  destruct (file_id r =? id); reflexivity.
Qed.

Lemma store_file_results_status (db : PIIDatabase) (id' : Z) (t : Q) (es : list entity)
    (id : Z) :
  file_status_of (store_file_results db id' t es) id = file_status_of db id.
Proof.
  unfold file_status_of. cbn [store_file_results files].
  rewrite file_status_of_map.
  - destruct (List.find _ _) as [r|]; [|reflexivity]. cbn.
    destruct (file_id r =? id'); reflexivity.
  - intros r. destruct (file_id r =? id'); reflexivity.
Qed.

Lemma mark_file_processing_miss (db : PIIDatabase) (id : Z) :
  Forall (fun r => file_id r = id -> status r <> FilePending) (files db) ->
  mark_file_processing db id = (false, db).
Proof.
  intros H. unfold mark_file_processing. rewrite (transition_miss _ _ _ _ _ H).
  cbn. rewrite with_files_same. reflexivity.
Qed.

Lemma mark_file_processing_hit (db : PIIDatabase) (id : Z) :
  unique_ids db -> file_status_of db id = Some FilePending ->
  (mark_file_processing db id).1 = true /\
  file_status_of (mark_file_processing db id).2 id = Some FileProcessing.
Proof.
  intros Hu Hp. unfold mark_file_processing.
  pose proof (transition_hit_once (files db) id FilePending FileProcessing None Hu Hp) as H1.
  pose proof (transition_hit_status (files db) id FilePending FileProcessing None Hp) as H2.
  destruct (transition (files db) id FilePending FileProcessing None) as [fl n].
  cbn in *. subst n. split; [reflexivity|].
  unfold file_status_of. cbn. apply (pair_status (A := unit)) in H2 as [H2 _]. exact H2.
Qed.

Lemma mark_file_processing_other (db : PIIDatabase) (id' id : Z) :
  id <> id' -> file_status_of (mark_file_processing db id').2 id = file_status_of db id.
Proof.
  intros Hne. unfold mark_file_processing, file_status_of.
  pose proof (transition_other (files db) id' id FilePending FileProcessing None Hne) as H.
  destruct (transition (files db) id' FilePending FileProcessing None) as [fl n].
  cbn in *. apply pair_status_eq, H.
Qed.

Lemma mark_file_completed_hit (db : PIIDatabase) (id job : Z) :
  file_status_of db id = Some FileProcessing ->
  file_status_of (mark_file_completed db id job) id = Some FileCompleted.
Proof.
  intros Hp. unfold mark_file_completed, file_status_of.
  pose proof (transition_hit_status (files db) id FileProcessing FileCompleted None Hp) as H.
  destruct (transition (files db) id FileProcessing FileCompleted None) as [fl n].
  cbn in *. apply (pair_status (A := unit)) in H as [H _]. exact H.
Qed.

Lemma mark_file_completed_other (db : PIIDatabase) (id' job id : Z) :
  id <> id' -> file_status_of (mark_file_completed db id' job) id = file_status_of db id.
Proof.
  intros Hne. unfold mark_file_completed, file_status_of.
  pose proof (transition_other (files db) id' id FileProcessing FileCompleted None Hne) as H.
  destruct (transition (files db) id' FileProcessing FileCompleted None) as [fl n].
  cbn in *. apply pair_status_eq, H.
Qed.

Lemma mark_file_error_hit (db : PIIDatabase) (id job : Z) (msg : string) :
  file_status_of db id = Some FileProcessing ->
  file_status_of (mark_file_error db id job msg) id = Some FileError /\
  file_error_of (mark_file_error db id job msg) id = Some msg.
Proof.
  intros Hp. unfold mark_file_error, file_status_of, file_error_of.
  pose proof (transition_hit_status (files db) id FileProcessing FileError (Some msg) Hp) as H.
  destruct (transition (files db) id FileProcessing FileError (Some msg)) as [fl n].
  cbn in *. apply (pair_status (A := unit)) in H. exact H.
Qed.

Lemma mark_file_error_other (db : PIIDatabase) (id' job id : Z) (msg : string) :
  id <> id' -> file_status_of (mark_file_error db id' job msg) id = file_status_of db id.
Proof.
  intros Hne. unfold mark_file_error, file_status_of.
  pose proof (transition_other (files db) id' id FileProcessing FileError (Some msg) Hne) as H.
  destruct (transition (files db) id' FileProcessing FileError (Some msg)) as [fl n].
  cbn in *. apply pair_status_eq, H.
Qed.

(** ** process_single_file *)

(** X9. A file whose row is not pending (already claimed, finished or
    unknown) is not analysed: [process_single_file] answers "Could not
    mark file as processing" and leaves the store exactly as it was. *)
Theorem process_single_file_skips_rows_not_pending (id : Z) (path : string)
    (db : PIIDatabase) (job : Z) (b : analyzer_behaviour) (elapsed : Q) :
  Forall (fun r => file_id r = id -> status r <> FilePending) (files db) ->
  process_single_file id path db job b elapsed =
    ({| fr_file_id := id; fr_file_path := path; fr_success := false; fr_entities := [];
        fr_error_message := Some "Could not mark file as processing";
        fr_processing_time := None |}, db).
Proof.
  intros H. unfold process_single_file.
  rewrite (mark_file_processing_miss db id H). reflexivity.
Qed.

Lemma process_single_file_skips_rows_not_pending_witness :
  (process_single_file 1 "/data/f1"
     (mark_file_processing (discovered 1 2) 1).2 1
     (analyzer_returns {| a_success := true; a_entities := []; a_error_message := None |})
     (1 # 1)).2
  = (mark_file_processing (discovered 1 2) 1).2.
Proof.
  rewrite process_single_file_skips_rows_not_pending.
  - reflexivity.
  - vm_compute. repeat constructor; intros; discriminate.
Defined.

(** X10. Run on a pending row of a table with unique ids, the thread
    worker settles that row and no other: it ends [completed] when the
    analyzer reports success and [error] (with the analyzer's message, or
    "Unknown error") otherwise, never [processing]; and the shared
    counters gain exactly one count, on the matching side. *)
Theorem thread_worker_settles_its_row (id : Z) (path : string) (db : PIIDatabase)
    (job : Z) (b : analyzer_behaviour) (elapsed : Q) (stats_queue : SafeQueue) :
  unique_ids db -> file_status_of db id = Some FilePending ->
  let out := process_single_file_thread_safe id path db job b elapsed stats_queue in
  let res := out.1.1 in
  let db' := out.1.2 in
  file_status_of db' id = Some (if fr_success res then FileCompleted else FileError) /\
  (fr_success res = false ->
     file_error_of db' id = Some (default "Unknown error" (fr_error_message res))) /\
  (forall id', id' <> id -> file_status_of db' id' = file_status_of db id') /\
  unique_ids db' /\
  get_stats out.2 =
    (if fr_success res then (sq_processed stats_queue + 1, sq_errors stats_queue)
     else (sq_processed stats_queue, sq_errors stats_queue + 1)).
Proof.
  intros Hu Hp.
  unfold process_single_file_thread_safe, process_single_file.
  destruct (mark_file_processing_hit db id Hu Hp) as [Hc Hs].
  pose proof (mark_file_processing_ids db id) as Hids.
  pose proof (fun id' H => mark_file_processing_other db id id' H) as Hoth.
  destruct (mark_file_processing db id) as [claimed db1]. cbn [fst snd] in *. subst claimed.
  cbn [negb]. unfold unique_ids in *.
  destruct b as [a|msg].
  - destruct (a_success a) eqn:Ea; cbn [fst snd fr_success fr_error_message]; rewrite ?Ea.
    + repeat split.
      * apply mark_file_completed_hit. rewrite store_file_results_status. exact Hs.
      * discriminate.
      * intros id' Hne. rewrite mark_file_completed_other, store_file_results_status by exact Hne.
        apply Hoth, Hne.
      * rewrite mark_file_completed_ids, store_file_results_ids, Hids. exact Hu.
    + repeat split.
      * apply mark_file_error_hit, Hs.
      * intros _. apply mark_file_error_hit, Hs.
      * intros id' Hne. rewrite mark_file_error_other by exact Hne. apply Hoth, Hne.
      * rewrite mark_file_error_ids, Hids. exact Hu.
  - cbn [fst snd fr_success fr_error_message]. repeat split.
    + apply mark_file_error_hit, Hs.
    + intros _. apply mark_file_error_hit, Hs.
    + intros id' Hne. rewrite mark_file_error_other by exact Hne. apply Hoth, Hne.
    + rewrite mark_file_error_ids, Hids. exact Hu.
Qed.

Lemma thread_worker_settles_its_row_witness :
  file_status_of
    (process_single_file_thread_safe 2 "/data/f2" (discovered 1 3) 1
       (analyzer_raises "cannot extract text") (1 # 1) SafeQueue_init).1.2 2
  = Some FileError.
Proof.
  destruct (thread_worker_settles_its_row 2 "/data/f2" (discovered 1 3) 1
              (analyzer_raises "cannot extract text") (1 # 1) SafeQueue_init) as (H & _).
  - unfold unique_ids. apply (bool_decide_unpack _). vm_compute. exact I.
  - reflexivity.
  - exact H.
Defined.

(** ** The job table *)

Lemma job_status_of_update_job_status (db : PIIDatabase) (job : Z) (s : string) (j : Z) :
  job_status_of (update_job_status db job s) j =
    if j =? job then (fun _ => s) <$> job_status_of db j else job_status_of db j.
Proof.
  unfold job_status_of, update_job_status. cbn [with_jobs jobs].
  induction (jobs db) as [|r jl IH]; [destruct (j =? job); reflexivity|].
  cbn [map List.find].
  destruct (job_id r =? job) eqn:E1; cbn [job_id].
  - apply Z.eqb_eq in E1. destruct (job_id r =? j) eqn:E2.
    + apply Z.eqb_eq in E2. replace (j =? job) with true by (symmetry; apply Z.eqb_eq; lia).
      reflexivity.
    + exact IH.
  - destruct (job_id r =? j) eqn:E2; [|exact IH].
    apply Z.eqb_eq in E2. replace (j =? job) with false by (symmetry; apply Z.eqb_neq; lia).
    reflexivity.
Qed.

Lemma job_status_of_bump (jl : list job_row) (job dp de j : Z) :
  job_status <$> List.find (fun x => job_id x =? j) (bump jl job dp de)
    = job_status <$> List.find (fun x => job_id x =? j) jl.
Proof.
  unfold bump. induction jl as [|r jl IH]; [reflexivity|].
  cbn [map List.find].
  destruct (job_id r =? job); cbn [job_id]; destruct (job_id r =? j); auto.
Qed.

(** ** interrupt_processing *)

Lemma requeue_pending (job : Z) (r : file_row) :
  is_pending_of job (requeue job r) = is_pending_of job r || is_stalled_of job r.
Proof.
  unfold requeue, is_pending_of, is_stalled_of.
  destruct r as [i fj p s m t]. cbn [file_job_id status].
  destruct (fj =? job) eqn:E; cbn [andb orb]; [|cbn; rewrite E; reflexivity].
  destruct s; repeat case_bool_decide; try congruence;
    cbn [set_status file_job_id status]; rewrite E; cbn [andb];
    repeat case_bool_decide; cbn in *; first [reflexivity | congruence].
Qed.

Lemma requeue_stalled (job : Z) (r : file_row) : is_stalled_of job (requeue job r) = false.
Proof.
  unfold requeue, is_stalled_of.
  destruct r as [i fj p s m t]. cbn [file_job_id status].
  destruct (fj =? job) eqn:E; cbn [andb orb]; [|cbn; rewrite E; reflexivity].
  destruct s; repeat case_bool_decide; try congruence;
    cbn [set_status file_job_id status]; rewrite E; cbn [andb];
    repeat case_bool_decide; cbn in *; first [reflexivity | congruence].
Qed.

Lemma stalled_or_pending (job : Z) (r : file_row) :
  is_stalled_of job r = true -> is_pending_of job r = false.
Proof.
  unfold is_pending_of, is_stalled_of. destruct (file_job_id r =? job); [|discriminate].
  cbn. intros H. apply bool_decide_eq_true in H. apply bool_decide_eq_false. congruence.
Qed.

Lemma reset_stalled_files_counts (db : PIIDatabase) (job : Z) :
  stalled_count (reset_stalled_files db job).2 job = 0%nat /\
  pending_count (reset_stalled_files db job).2 job
    = (pending_count db job + stalled_count db job)%nat /\
  (reset_stalled_files db job).1 = stalled_count db job.
Proof.
  unfold stalled_count, pending_count, reset_stalled_files. cbn [fst snd with_files files].
  split; [|split; [|reflexivity]].
  - induction (files db) as [|r fl IH]; [reflexivity|].
    cbn [map]. rewrite filter_cons, requeue_stalled.
    destruct (decide (false = true)); [discriminate | exact IH].
  - induction (files db) as [|r fl IH]; [reflexivity|].
    cbn [map]. rewrite !filter_cons, requeue_pending.
    destruct (is_stalled_of job r) eqn:Es.
    + rewrite (stalled_or_pending job r Es). cbn [orb].
      destruct (decide (true = true)); [|congruence].
      destruct (decide (false = true)); [discriminate|].
      cbn [length]. rewrite IH. lia.
    + rewrite orb_false_r. destruct (is_pending_of job r).
      * destruct (decide (true = true)); [|congruence].
        destruct (decide (false = true)); [discriminate|].
        cbn [length]. rewrite IH. lia.
      * destruct (decide (false = true)); [discriminate|]. exact IH.
Qed.

Lemma reset_stalled_files_frame (db : PIIDatabase) (job id : Z) (s : file_status) :
  file_status_of db id = Some s -> s <> FileProcessing ->
  file_status_of (reset_stalled_files db job).2 id = Some s.
Proof.
  unfold file_status_of, reset_stalled_files. cbn [snd with_files files].
  intros Hs Hne.
  rewrite file_status_of_map.
  - destruct (List.find _ _) as [r|]; [|discriminate]. cbn in *. injection Hs as Hs.
    unfold requeue, is_stalled_of. rewrite (bool_decide_eq_false_2 (status r = FileProcessing)).
    + rewrite andb_false_r. f_equal. exact Hs.
    + congruence.
  - intros r. unfold requeue. destruct (is_stalled_of job r); reflexivity.
Qed.

Lemma get_job_status (db : PIIDatabase) (job : Z) :
  job_status_of db job = job_status <$> get_job db job.
Proof. reflexivity. Qed.

(** X11. [interrupt_processing] acts on a running job only; on any
    other job it answers [False] and leaves the store as it was.  On a
    running job it hands back the result of the status write, the job
    reads [interrupted], no file of the job is left [processing] (each
    has gone back to [pending]), files that were not processing keep
    their status, and a second call is refused. *)
Theorem interrupt_processing_requeues_stalled_files (db : PIIDatabase) (job : Z)
    (written again : bool) :
  (job_status_of db job <> Some "running" ->
     interrupt_processing db job written = (false, db)) /\
  (job_status_of db job = Some "running" ->
     let db' := (interrupt_processing db job written).2 in
     (interrupt_processing db job written).1 = written /\
     job_status_of db' job = Some "interrupted" /\
     stalled_count db' job = 0%nat /\
     pending_count db' job = (pending_count db job + stalled_count db job)%nat /\
     (forall id s, file_status_of db id = Some s -> s <> FileProcessing ->
                   file_status_of db' id = Some s) /\
     interrupt_processing db' job again = (false, db')).
Proof.
  rewrite get_job_status. unfold interrupt_processing.
  destruct (get_job db job) as [j|] eqn:Ej; cbn [fmap option_fmap option_map].
  - destruct (bool_decide (job_status j = "running")) eqn:Er; cbn [negb].
    + apply bool_decide_eq_true in Er. split; [congruence|]. intros _.
      destruct (reset_stalled_files_counts db job) as (H1 & H2 & _).
      pose proof (reset_stalled_files_frame db job) as H3.
      assert (Hj : jobs (reset_stalled_files db job).2 = jobs db) by reflexivity.
      destruct (reset_stalled_files db job) as [n db1]. cbn [fst snd] in *.
      assert (Hs : job_status_of (update_job_status db1 job "interrupted") job
                   = Some "interrupted").
      { rewrite job_status_of_update_job_status, Z.eqb_refl.
        unfold job_status_of. rewrite Hj. fold (get_job db job). rewrite Ej. reflexivity. }
      split; [reflexivity|]. split; [exact Hs|].
      split; [exact H1|]. split; [exact H2|]. split.
      * intros id s Hs' Hne. rewrite file_status_of_update_job_status. auto.
      * rewrite get_job_status in Hs.
        destruct (get_job (update_job_status db1 job "interrupted") job) as [j'|];
          [|reflexivity].
        cbn in Hs. injection Hs as Hs. rewrite Hs. reflexivity.
    + apply bool_decide_eq_false in Er. split; [reflexivity|]. intros H. congruence.
  - split; [reflexivity | discriminate].
Qed.

Lemma interrupt_processing_requeues_stalled_files_witness :
  pending_count
    (interrupt_processing (mark_file_processing (discovered 1 3) 2).2 1 true).2 1 = 3%nat.
Proof.
  destruct (interrupt_processing_requeues_stalled_files
              (mark_file_processing (discovered 1 3) 2).2 1 true true) as (_ & H).
  destruct H as (_ & _ & _ & H & _).
  - reflexivity.
  - rewrite H. reflexivity.
Defined.

(** ** Invariants of a whole call *)

(** How a call can end. *)
Lemma run_cases (env : environment) (db : PIIDatabase) (a : arguments) (r : run) :
  process_files_parallel env db a = Some r ->
  r = {| run_completion := raises (OtherException "max_workers must be greater than 0");
         run_db := db; run_sink := []; run_final := None |} \/
  exists st, run_final r = Some st.
Proof.
  unfold process_files_parallel, process_files_parallel_fuel.
  destruct (resolve_workers env a <=? 0); [intros [= <-]; left; reflexivity|].
  destruct (batch_loop _ env a 0 _) as [[[fr|e] st']|]; cbn; [| |discriminate];
    intros [= <-]; right; eexists; reflexivity.
Qed.

(** An invariant of the iterations holds of the final loop variables,
    together with what the exit establishes. *)
Lemma run_invariant (env : environment) (db : PIIDatabase) (a : arguments)
    (I : loop_state -> Prop) (R : loop_exit -> loop_state -> Prop) (r : run)
    (st : loop_state) :
  I (initial_state env db a (resolve_workers env a)) ->
  (forall k s, I s ->
     match iteration env a k s with inl (o, s') => R o s' | inr s' => I s' end) ->
  process_files_parallel env db a = Some r -> run_final r = Some st ->
  exists out, R out st /\
    match out with
    | loop_done files_remaining => r = finish a files_remaining st
    | loop_raised e =>
        run_completion r = (if pool_shutdown_hangs st then blocks else raises e) /\
        run_db r = l_db st /\ run_sink r = l_sink st
    end.
Proof.
  intros Hinit Hstep Hr Hst.
  destruct (process_files_parallel_inv _ _ _ _ _ Hr Hst) as (fuel & out & Hloop & Hout).
  exists out. split; [|exact Hout].
  refine (batch_loop_invariant env a (fun _ s => I s) R _ _ fuel 0%nat _ out st Hinit Hloop).
  - intros k s s' HI E. specialize (Hstep k s HI). rewrite E in Hstep. exact Hstep.
  - intros k s o s' HI E. specialize (Hstep k s HI). rewrite E in Hstep. exact Hstep.
Qed.

(** What it takes for a property of the loop variables to survive an
    iteration: the scaling block, a batch, and the adjustment after it. *)
Lemma iteration_preserves (env : environment) (a : arguments) (k : nat)
    (P : loop_state -> Prop) (st : loop_state) :
  P st ->
  (P st -> P (prepared env a k st)) ->
  (forall d b,
     below_max_files a st = true -> stop_is_set_at_top a k = false ->
     get_pending_files (l_db (prepared env a k st)) (arg_job_id a)
       (batch_limit a (prepared env a k st)) <> [] ->
     run_batch env a k (prepared env a k st)
       (get_pending_files (l_db (prepared env a k st)) (arg_job_id a)
          (batch_limit a (prepared env a k st))) = (d, b) ->
     P (prepared env a k st) -> P (after_drain (prepared env a k st) d b)) ->
  (forall d b,
     P (after_drain (prepared env a k st) d b) ->
     P (with_batch_size (after_drain (prepared env a k st) d b)
          (relieve_memory (memory_after_batch env k)
             (current_batch_size (prepared env a k st))))) ->
  match iteration env a k st with inl (_, st') => P st' | inr st' => P st' end.
Proof.
  intros HP Hprep Hbatch Hsize.
  destruct (iteration_cases env a k st) as [Hm|Hm Hs|Hm Hs Hp|d b Hm Hs Hp Hb]; auto.
  pose proof (Hbatch d b Hm Hs Hp Hb (Hprep HP)) as Hnew.
  destruct (b_timed_out b); [exact Hnew|].
  destruct (d_stop_requested d); [exact Hnew|].
  apply Hsize. exact Hnew.
Qed.

(** The exits of an iteration. *)
Lemma iteration_exit (env : environment) (a : arguments) (k : nat) (st st' : loop_state)
    (out : loop_exit) :
  iteration env a k st = inl (out, st') ->
  (out = loop_done true /\ st' = st /\ below_max_files a st = false) \/
  (out = loop_done false /\ st' = st /\ stop_is_set_at_top a k = true) \/
  (out = loop_done false /\ st' = prepared env a k st /\
     below_max_files a st = true /\
     get_pending_files (l_db st') (arg_job_id a) (batch_limit a st') = []) \/
  (exists b, last (l_trace st') = Some b /\
     ((exists e, out = loop_raised e /\ b_timed_out b = true) \/
      (out = loop_done false /\ b_stop_requested b = true))).
Proof.
  intros E. pose proof (iteration_cases env a k st) as H. rewrite E in H.
  inversion H as [Hm|Hm Hs|Hm Hs Hp|d b Hm Hs Hp Hb Heq]; subst; auto.
  - right. right. left. auto.
  - right. right. right. exists b.
    destruct (run_batch_record _ _ _ _ _ _ _ Hb) as (_ & _ & _ & _ & _ & _ & _ & _ & Hstop).
    destruct (b_timed_out b) eqn:Et.
    + injection Heq as <- <-. cbn [after_drain l_trace]. rewrite last_snoc.
      split; [reflexivity|]. left. eauto.
    + destruct (d_stop_requested d) eqn:Ed; [|discriminate].
      injection Heq as <- <-. cbn [after_drain l_trace]. rewrite last_snoc.
      split; [reflexivity|]. right. split; [reflexivity | congruence].
Qed.

(** ** Sizes of the lists of a batch *)

Lemma insert_by_done_length (f : future) (l : list future) :
  length (insert_by_done f l) = S (length l).
Proof.
  induction l as [|g l IH]; [reflexivity|].
  cbn [insert_by_done]. destruct (Qltb _ _); cbn [length]; [rewrite IH|]; reflexivity.
Qed.

Lemma sorted_length (l : list future) : length (foldr insert_by_done [] l) = length l.
Proof.
  induction l as [|f l IH]; [reflexivity|].
  cbn [foldr]. rewrite insert_by_done_length, IH. reflexivity.
Qed.

Lemma as_completed_length (fs : list future) (timeout : Q) :
  (length (as_completed fs timeout).1 <= length fs)%nat.
Proof.
  cbn [as_completed fst]. rewrite sorted_length. apply length_filter.
Qed.

Lemma submit_length (env : environment) (k : nat) (pf : list (Z * string)) :
  forall db, (length (submit env k db pf).1 <= length pf)%nat.
Proof.
  induction pf as [|[id path] rest IH]; intros db; [reflexivity|].
  cbn [submit]. destruct (mark_file_processing db id) as [claimed db1].
  specialize (IH db1). destruct (submit env k db1 rest) as [futures db2].
  cbn [fst] in *. destruct claimed; cbn [fst length]; lia.
Qed.

Lemma get_pending_files_length (db : PIIDatabase) (job limit : Z) :
  (length (get_pending_files db job limit) <= Z.to_nat limit)%nat.
Proof. unfold get_pending_files. apply firstn_le_length. Qed.

Lemma run_batch_lengths (env : environment) (a : arguments) (k : nat) (st : loop_state)
    (pf : list (Z * string)) (d : drain_state) (b : batch_record) :
  run_batch env a k st pf = (d, b) ->
  (length (b_drained b) <= length (b_submitted b) <= length (b_pending b))%nat.
Proof.
  intros Hb.
  destruct (run_batch_record _ _ _ _ _ _ _ Hb) as (_ & _ & Hpf & Hsub & Hdr & _).
  rewrite Hdr, Hpf. split; [apply as_completed_length|].
  rewrite Hsub. apply submit_length.
Qed.

(** ** The limit on processed files *)

Lemma handle_completion_processed (a : arguments) (flag : bool) (f : future)
    (st : drain_state) :
  d_processed_count st <= d_processed_count (handle_completion a flag f st)
    <= d_processed_count st + 1.
Proof.
  unfold handle_completion, result.
  destruct (outcome f) as [r|[m|m]]; [destruct (res_success r)| |];
    cbn [d_processed_count]; lia.
Qed.

Lemma drain_from_processed (a : arguments) (k : nat) (fs : list future) :
  forall i st,
    d_processed_count st <= d_processed_count (drain_from a k i fs st)
      <= d_processed_count st + Z.of_nat (length fs).
Proof.
  induction fs as [|f fs IH]; intros i st; [cbn; lia|].
  cbn [drain_from length].
  pose proof (IH (S i) (handle_completion a (stop_is_set_at_completion a k i) f st)).
  pose proof (handle_completion_processed a (stop_is_set_at_completion a k i) f st).
  lia.
Qed.

Lemma iteration_max_files (env : environment) (a : arguments) (k : nat) (m : Z)
    (st : loop_state) :
  max_files a = Some m ->
  0 <= processed_count st <= m ->
  match iteration env a k st with
  | inl (_, st') => 0 <= processed_count st' <= m
  | inr st' => 0 <= processed_count st' <= m
  end.
Proof.
  intros Hmax HP.
  apply (iteration_preserves env a k (fun s => 0 <= processed_count s <= m)); auto.
  - intros _. destruct (prepared_counts env a k st) as (-> & _). exact HP.
  - intros d b Hm Hs Hp Hb _.
    destruct (prepared_counts env a k st) as (Hc & _).
    set (st1 := prepared env a k st) in *.
    set (pf := get_pending_files (l_db st1) (arg_job_id a) (batch_limit a st1)) in *.
    destruct (run_batch_record _ _ _ _ _ _ _ Hb) as (_ & _ & Hpf & _ & _ & _ & Hd & _).
    pose proof (run_batch_lengths _ _ _ _ _ _ _ Hb) as [Hl1 Hl2].
    pose proof (get_pending_files_length (l_db st1) (arg_job_id a) (batch_limit a st1)) as Hl3.
    fold pf in Hl3. rewrite Hpf in Hl2.
    pose proof (drain_from_processed a k (b_drained b) 0
                  (start_drain (submit env k (l_db st1) pf).2 st1)) as Hdp.
    rewrite <- Hd in Hdp. cbn [start_drain d_processed_count] in Hdp.
    cbn [after_drain processed_count].
    unfold below_max_files in Hm. rewrite Hmax in Hm. apply Z.ltb_lt in Hm.
    assert (Hlim : batch_limit a st1 <= m - processed_count st1).
    { unfold batch_limit. rewrite Hmax.
      destruct (m =? 0) eqn:E0; [apply Z.eqb_eq in E0; lia|]. lia. }
    lia.
Qed.

(** X12. With [max_files] set, the number of files processed never
    exceeds it, and the status 'interrupted' is returned only when the
    limit has been reached exactly. *)
Theorem max_files_is_never_exceeded (env : environment) (db : PIIDatabase)
    (a : arguments) (m : Z) :
  max_files a = Some m -> 0 <= m ->
  exists r, process_files_parallel env db a = Some r /\
    forall v, run_completion r = returns v ->
      0 <= ret_processed v <= m /\
      (ret_status v = "interrupted" -> ret_processed v = m).
Proof.
  intros Hmax Hm.
  destruct (process_files_parallel_total env db a) as (r & Hr). exists r.
  split; [exact Hr|]. intros v Hv.
  destruct (run_cases _ _ _ _ Hr) as [->|(st & Hst)]; [discriminate|].
  destruct (run_invariant env db a (fun s => 0 <= processed_count s <= m)
              (fun o s => 0 <= processed_count s <= m /\
                          (o = loop_done true -> m <= processed_count s)) r st)
    as (out & (Hb & Hint) & Hout); auto.
  - cbn. lia.
  - intros k s HI. pose proof (iteration_max_files env a k m s Hmax HI) as H.
    destruct (iteration env a k s) as [[o s']|s'] eqn:E; [|exact H].
    split; [exact H|]. intros ->.
    destruct (iteration_exit _ _ _ _ _ _ E)
      as [(_ & -> & Hb)|[(Ho & _)|[(Ho & _)|(b & _ & [(e & Ho & _)|(Ho & _)])]]];
      try discriminate.
    unfold below_max_files in Hb. rewrite Hmax in Hb. apply Z.ltb_ge in Hb. exact Hb.
  - destruct out as [fr|e].
    + subst r. cbn in Hv. injection Hv as <-. cbn. split; [exact Hb|].
      destruct fr; cbn; [intros _; specialize (Hint eq_refl); lia | discriminate].
    + destruct Hout as (Hc & _). destruct (pool_shutdown_hangs _); congruence.
Qed.

Lemma max_files_is_never_exceeded_witness :
  exists r,
    process_files_parallel (calm (fun _ => succeeding (1 # 1))) (discovered 1 100)
      {| arg_job_id := 1; max_workers := Some 8; batch_size := 50; max_files := Some 70;
         progress_callback := true; enable_dynamic_scaling := true; stop_event := None |}
      = Some r /\
    forall v, run_completion r = returns v ->
      0 <= ret_processed v <= 70 /\ (ret_status v = "interrupted" -> ret_processed v = 70).
Proof.
  apply (max_files_is_never_exceeded (calm (fun _ => succeeding (1 # 1))) (discovered 1 100)
           {| arg_job_id := 1; max_workers := Some 8; batch_size := 50;
              max_files := Some 70; progress_callback := true;
              enable_dynamic_scaling := true; stop_event := None |} 70).
  - reflexivity.
  - lia.
Defined.

(** ** The largest batch *)

Lemma adjust_batch_maximum (u : utilization) (bs : Z) :
  bs <= MAX_BATCH_SIZE -> adjust_batch u (emergency_batch u bs) <= MAX_BATCH_SIZE.
Proof.
  unfold adjust_batch, emergency_batch, MAX_BATCH_SIZE, MIN_BATCH_SIZE, BATCH_STEP_SIZE.
  intros H. destruct (batch_rule u) as [[]|]; destruct (Qltb _ _);
    try destruct (20 <? bs); lia.
Qed.

Lemma prepared_maximum (env : environment) (a : arguments) (k : nat) (st : loop_state) :
  current_batch_size st <= MAX_BATCH_SIZE ->
  current_batch_size (prepared env a k st) <= MAX_BATCH_SIZE.
Proof.
  intros H. unfold prepared. destruct (scaling_due env a k st); [|exact H].
  unfold adapt. cbn [current_batch_size]. apply adjust_batch_maximum, H.
Qed.

Lemma relieve_memory_maximum (m : Q) (bs : Z) :
  bs <= MAX_BATCH_SIZE -> relieve_memory m bs <= MAX_BATCH_SIZE.
Proof.
  unfold relieve_memory, MAX_BATCH_SIZE, MIN_BATCH_SIZE. intros H.
  destruct (Qltb _ _); [|exact H].
  assert (bs / 2 <= 50) by (apply Z.div_le_upper_bound; lia). lia.
Qed.

Lemma batch_limit_le (a : arguments) (st : loop_state) :
  batch_limit a st <= current_batch_size st.
Proof. unfold batch_limit. lia. Qed.

(** X13. In a run started with a batch size of at most
    [MAX_BATCH_SIZE] (50) every batch reads at least one and at most 50
    rows, never more than the batch size in force; it submits at most
    one worker call per row read and drains at most the calls it
    submitted. *)
Theorem batches_hold_at_most_fifty_files (env : environment) (db : PIIDatabase)
    (a : arguments) :
  batch_size a <= MAX_BATCH_SIZE ->
  exists r, process_files_parallel env db a = Some r /\
    forall st, run_final r = Some st ->
      current_batch_size st <= MAX_BATCH_SIZE /\
      Forall (fun b =>
                (length (b_drained b) <= length (b_submitted b) <= length (b_pending b))%nat /\
                0 < Z.of_nat (length (b_pending b)) <= b_batch_size b /\
                b_batch_size b <= MAX_BATCH_SIZE) (l_trace st).
Proof.
  intros Hbs.
  destruct (process_files_parallel_total env db a) as (r & Hr). exists r.
  split; [exact Hr|]. intros st Hst.
  set (P := fun s : loop_state =>
              current_batch_size s <= MAX_BATCH_SIZE /\
              Forall (fun b =>
                (length (b_drained b) <= length (b_submitted b) <= length (b_pending b))%nat /\
                0 < Z.of_nat (length (b_pending b)) <= b_batch_size b /\
                b_batch_size b <= MAX_BATCH_SIZE) (l_trace s)).
  destruct (run_invariant env db a P (fun _ s => P s) r st) as (out & HP & _); auto.
  - split; [exact Hbs | constructor].
  - intros k s HI.
    assert (H : match iteration env a k s with inl (_, s') => P s' | inr s' => P s' end).
    { apply (iteration_preserves env a k P s HI).
      - intros [H1 H2]. split; [apply prepared_maximum, H1 | rewrite prepared_trace; exact H2].
      - intros d b Hm Hs Hp Hb [H1 H2]. split; [exact H1|].
        cbn [after_drain l_trace]. apply Forall_app. split; [exact H2|].
        constructor; [|constructor].
        destruct (run_batch_record _ _ _ _ _ _ _ Hb) as (_ & Hsize & Hpf & _).
        split; [apply (run_batch_lengths _ _ _ _ _ _ _ Hb)|].
        rewrite Hsize, Hpf.
        pose proof (get_pending_files_length (l_db (prepared env a k s)) (arg_job_id a)
                      (batch_limit a (prepared env a k s))) as Hl.
        pose proof (batch_limit_le a (prepared env a k s)) as Hle.
        destruct (get_pending_files _ _ _) as [|x rest]; [congruence|].
        cbn [length] in *. lia.
      - intros d b [H1 H2]. split; [|exact H2].
        cbn [with_batch_size after_drain current_batch_size] in *.
        apply relieve_memory_maximum, H1. }
    destruct (iteration env a k s) as [[o s']|s']; exact H.
Qed.

Lemma batches_hold_at_most_fifty_files_witness :
  exists r,
    process_files_parallel (calm burst) (discovered 1 100) (service_call None) = Some r /\
    forall st, run_final r = Some st -> current_batch_size st <= MAX_BATCH_SIZE.
Proof.
  destruct (batches_hold_at_most_fifty_files (calm burst) (discovered 1 100)
              (service_call None)) as (r & Hr & H).
  - unfold MAX_BATCH_SIZE. simpl. lia.
  - exists r. split; [exact Hr|]. intros st Hst. apply (H st Hst).
Defined.

(** ** Progress events and counters *)

Lemma count_events_snoc (t : string) (sink : list progress_event) (ev : progress_event) :
  count_events t (sink ++ [ev])
    = count_events t sink + (if decide (ev_type ev = t) then 1 else 0).
Proof.
  unfold count_events. rewrite filter_app, length_app, filter_cons, filter_nil.
  destruct (decide (ev_type ev = t)); cbn [length]; lia.
Qed.

Lemma count_timed_out_cons (f : future) (fs : list future) :
  count_timed_out (f :: fs) = (if timed_out f then 1 else 0) + count_timed_out fs.
Proof.
  unfold count_timed_out. rewrite filter_cons.
  destruct (decide (timed_out f = true)) as [E|E].
  - rewrite E. cbn [length]. lia.
  - destruct (timed_out f); [congruence|]. lia.
Qed.

Lemma timed_out_total_snoc (tr : list batch_record) (b : batch_record) :
  timed_out_total (tr ++ [b]) = timed_out_total tr + count_timed_out (b_drained b).
Proof.
  unfold timed_out_total, count_timed_out.
  rewrite map_app, concat_app, filter_app, length_app. cbn [map concat].
  rewrite app_nil_r. lia.
Qed.

Lemma handle_completion_accounts (a : arguments) (flag : bool) (f : future)
    (st : drain_state) :
  progress_callback a = true ->
  d_processed_count (handle_completion a flag f st)
    - count_events "file_completed" (d_sink (handle_completion a flag f st))
  = d_processed_count st - count_events "file_completed" (d_sink st) /\
  d_error_count (handle_completion a flag f st)
    - count_events "file_error" (d_sink (handle_completion a flag f st))
  = d_error_count st - count_events "file_error" (d_sink st)
    + (if timed_out f then 1 else 0).
Proof.
  intros Hcb. unfold handle_completion, result, timed_out, call_back. rewrite Hcb.
  destruct (outcome f) as [r|[m|m]]; [destruct (res_success r)| |];
    cbn [d_processed_count d_error_count d_sink];
    rewrite ?count_events_snoc; cbn [ev_type];
    repeat match goal with
           | |- context [decide (?x = ?y)] =>
               destruct (decide (x = y)); try discriminate; try congruence
           end; lia.
Qed.

Lemma drain_from_accounts (a : arguments) (k : nat) (fs : list future) :
  progress_callback a = true ->
  forall i st,
    d_processed_count (drain_from a k i fs st)
      - count_events "file_completed" (d_sink (drain_from a k i fs st))
    = d_processed_count st - count_events "file_completed" (d_sink st) /\
    d_error_count (drain_from a k i fs st)
      - count_events "file_error" (d_sink (drain_from a k i fs st))
    = d_error_count st - count_events "file_error" (d_sink st) + count_timed_out fs.
Proof.
  intros Hcb. induction fs as [|f fs IH]; intros i st.
  - cbn [drain_from]. unfold count_timed_out. cbn. lia.
  - cbn [drain_from]. rewrite count_timed_out_cons.
    destruct (IH (S i) (handle_completion a (stop_is_set_at_completion a k i) f st))
      as [H1 H2].
    destruct (handle_completion_accounts a (stop_is_set_at_completion a k i) f st Hcb)
      as [H3 H4].
    lia.
Qed.

Lemma handle_completion_silent (a : arguments) (flag : bool) (f : future)
    (st : drain_state) :
  progress_callback a = false ->
  d_sink (handle_completion a flag f st) = d_sink st.
Proof.
  intros Hcb. unfold handle_completion, result, call_back. rewrite Hcb.
  destruct (outcome f) as [r|[m|m]]; [destruct (res_success r)| |]; reflexivity.
Qed.

Lemma drain_from_silent (a : arguments) (k : nat) (fs : list future) :
  progress_callback a = false ->
  forall i st, d_sink (drain_from a k i fs st) = d_sink st.
Proof.
  intros Hcb. induction fs as [|f fs IH]; intros i st; [reflexivity|].
  cbn [drain_from]. rewrite IH. apply handle_completion_silent, Hcb.
Qed.

(** X14. The progress callback hears of every file but those whose
    future holds a timeout: at the end of a call the number of
    'file_completed' events is the number of files processed, and the
    number of 'file_error' events is the number of errors less the
    timeouts.  Without a callback nothing is reported. *)
Theorem progress_events_match_the_counters (env : environment) (db : PIIDatabase)
    (a : arguments) :
  exists r, process_files_parallel env db a = Some r /\
    (progress_callback a = false -> run_sink r = []) /\
    (progress_callback a = true ->
       forall st, run_final r = Some st ->
         processed_count st = count_events "file_completed" (run_sink r) /\
         error_count st
           = count_events "file_error" (run_sink r) + timed_out_total (l_trace st)).
Proof.
  destruct (process_files_parallel_total env db a) as (r & Hr). exists r.
  split; [exact Hr|]. split.
  - intros Hcb. destruct (run_cases _ _ _ _ Hr) as [->|(st & Hst)]; [reflexivity|].
    set (P := fun s : loop_state => l_sink s = []).
    destruct (run_invariant env db a P (fun _ s => P s) r st) as (out & HP & Hout); auto.
    + reflexivity.
    + intros k s HI.
      assert (H : match iteration env a k s with inl (_, s') => P s' | inr s' => P s' end).
      { apply (iteration_preserves env a k P s HI); unfold P.
        - intros H. destruct (prepared_counts env a k s) as (_ & _ & ->). exact H.
        - intros d b _ _ _ Hb H.
          destruct (run_batch_record _ _ _ _ _ _ _ Hb) as (_ & _ & _ & _ & _ & _ & Hd & _).
          cbn [after_drain l_sink]. rewrite Hd, drain_from_silent by exact Hcb.
          exact H.
        - intros d b H. exact H. }
      destruct (iteration env a k s) as [[o s']|s']; exact H.
    + destruct out as [fr|e]; [subst r; exact HP|].
      destruct Hout as (_ & _ & ->). exact HP.
  - intros Hcb st Hst.
    set (P := fun s : loop_state =>
                processed_count s = count_events "file_completed" (l_sink s) /\
                error_count s
                  = count_events "file_error" (l_sink s) + timed_out_total (l_trace s)).
    destruct (run_invariant env db a P (fun _ s => P s) r st) as (out & HP & Hout); auto.
    + split; reflexivity.
    + intros k s HI.
      assert (H : match iteration env a k s with inl (_, s') => P s' | inr s' => P s' end).
      { apply (iteration_preserves env a k P s HI); unfold P.
        - intros H. destruct (prepared_counts env a k s) as (-> & -> & ->).
          rewrite prepared_trace. exact H.
        - intros d b _ _ _ Hb [H1 H2].
          destruct (run_batch_record _ _ _ _ _ _ _ Hb) as (_ & _ & _ & _ & _ & _ & Hd & _).
          cbn [after_drain l_sink processed_count error_count l_trace].
          rewrite timed_out_total_snoc.
          destruct (drain_from_accounts a k (b_drained b) Hcb 0%nat
                      (start_drain
                         (submit env k (l_db (prepared env a k s))
                            (get_pending_files (l_db (prepared env a k s)) (arg_job_id a)
                               (batch_limit a (prepared env a k s)))).2
                         (prepared env a k s))) as [H3 H4].
          rewrite <- Hd in H3, H4. cbn [start_drain d_processed_count d_error_count d_sink]
            in H3, H4.
          lia.
        - intros d b H. exact H. }
      destruct (iteration env a k s) as [[o s']|s']; exact H.
    + assert (Hs : run_sink r = l_sink st).
      { destruct out as [fr|e]; [subst r; reflexivity|]. apply Hout. }
      rewrite Hs. exact HP.
Qed.

(** ** Rows that are not pending *)

Lemma mark_file_processing_keeps (db : PIIDatabase) (id' id : Z) (s : file_status) :
  s <> FilePending -> file_status_of db id = Some s ->
  file_status_of (mark_file_processing db id').2 id = Some s.
Proof.
  intros Hne Hs. unfold mark_file_processing, file_status_of.
  pose proof (transition_frame (files db) id' id FilePending FileProcessing None s
                (or_intror Hne) Hs) as H.
  destruct (transition (files db) id' FilePending FileProcessing None). exact H.
Qed.

Lemma submit_keeps (env : environment) (k : nat) (pf : list (Z * string)) (id : Z)
    (s : file_status) :
  s <> FilePending ->
  forall db, file_status_of db id = Some s ->
             file_status_of (submit env k db pf).2 id = Some s.
Proof.
  intros Hne. induction pf as [|[id' path] rest IH]; intros db Hs; [exact Hs|].
  cbn [submit].
  pose proof (mark_file_processing_keeps db id' id s Hne Hs) as H1.
  destruct (mark_file_processing db id') as [claimed db1].
  pose proof (IH db1 H1) as H2.
  destruct (submit env k db1 rest) as [futures db2]. destruct claimed; exact H2.
Qed.

Lemma handle_completion_keeps (a : arguments) (flag : bool) (f : future)
    (st : drain_state) (id : Z) (s : file_status) :
  s <> FileProcessing ->
  file_status_of (d_db st) id = Some s ->
  file_status_of (d_db (handle_completion a flag f st)) id = Some s.
Proof.
  intros Hne Hs.
  assert (Hdone : forall db i j, file_status_of db id = Some s ->
            file_status_of (mark_file_completed db i j) id = Some s).
  { intros db i j H. unfold mark_file_completed, file_status_of.
    pose proof (transition_frame (files db) i id FileProcessing FileCompleted None
                  s (or_intror Hne) H) as H'.
    destruct (transition (files db) i FileProcessing FileCompleted None). exact H'. }
  assert (Herr : forall db i j m, file_status_of db id = Some s ->
            file_status_of (mark_file_error db i j m) id = Some s).
  { intros db i j m H. unfold mark_file_error, file_status_of.
    pose proof (transition_frame (files db) i id FileProcessing FileError (Some m)
                  s (or_intror Hne) H) as H'.
    destruct (transition (files db) i FileProcessing FileError (Some m)). exact H'. }
  unfold handle_completion, result.
  destruct (outcome f) as [r|[m|m]]; [destruct (res_success r)| |]; cbn [d_db]; auto.
  - apply Hdone. rewrite store_file_results_status. exact Hs.
  - destruct (fut_file_id f =? 0); auto.
Qed.

Lemma drain_from_keeps (a : arguments) (k : nat) (fs : list future) (id : Z)
    (s : file_status) :
  s <> FileProcessing ->
  forall i st, file_status_of (d_db st) id = Some s ->
               file_status_of (d_db (drain_from a k i fs st)) id = Some s.
Proof.
  intros Hne. induction fs as [|f fs IH]; intros i st H; [exact H|].
  cbn [drain_from]. apply IH, handle_completion_keeps; assumption.
Qed.

(** X15. A call never touches a file that is already settled: a row
    that reads [completed] or [error] when the call starts reads the
    same when it ends, however the call ends. *)
Theorem settled_files_are_left_alone (env : environment) (db : PIIDatabase)
    (a : arguments) (id : Z) (s : file_status) :
  s = FileCompleted \/ s = FileError ->
  file_status_of db id = Some s ->
  exists r, process_files_parallel env db a = Some r /\
            file_status_of (run_db r) id = Some s.
Proof.
  intros Hs Hdb.
  assert (Hn1 : s <> FilePending) by (destruct Hs; subst; discriminate).
  assert (Hn2 : s <> FileProcessing) by (destruct Hs; subst; discriminate).
  destruct (process_files_parallel_total env db a) as (r & Hr). exists r.
  split; [exact Hr|].
  destruct (run_cases _ _ _ _ Hr) as [->|(st & Hst)]; [exact Hdb|].
  rewrite (run_db_files _ _ _ _ _ id Hr Hst).
  set (P := fun st0 : loop_state => file_status_of (l_db st0) id = Some s).
  destruct (run_invariant env db a P (fun _ st0 => P st0) r st) as (out & HP & _); auto.
  intros k s0 HI.
  assert (H : match iteration env a k s0 with inl (_, s') => P s' | inr s' => P s' end).
  { apply (iteration_preserves env a k P s0 HI); unfold P.
    - intros H. rewrite prepared_db. exact H.
    - intros d b _ _ _ Hb H.
      destruct (run_batch_record _ _ _ _ _ _ _ Hb) as (_ & _ & _ & _ & _ & _ & Hd & _).
      cbn [after_drain l_db]. rewrite Hd. apply drain_from_keeps; [exact Hn2|].
      cbn [start_drain d_db]. apply submit_keeps; assumption.
    - intros d b H. exact H. }
  destruct (iteration env a k s0) as [[o s']|s']; exact H.
Qed.

Lemma settled_files_are_left_alone_witness :
  exists r,
    process_files_parallel (calm (fun _ => succeeding (1 # 1)))
      (mark_file_error (mark_file_processing (discovered 1 3) 2).2 2 1 "unreadable")
      (service_call None) = Some r /\
    file_status_of (run_db r) 2 = Some FileError.
Proof.
  apply (settled_files_are_left_alone (calm (fun _ => succeeding (1 # 1)))
           (mark_file_error (mark_file_processing (discovered 1 3) 2).2 2 1 "unreadable")
           (service_call None) 2 FileError).
  - right. reflexivity.
  - reflexivity.
Defined.

Lemma progress_events_match_the_counters_witness :
  exists r,
    process_files_parallel (calm mixed_worker) (discovered 1 3) (service_call None) = Some r /\
    forall st, run_final r = Some st ->
      processed_count st = count_events "file_completed" (run_sink r).
Proof.
  destruct (progress_events_match_the_counters (calm mixed_worker) (discovered 1 3)
              (service_call None)) as (r & Hr & _ & H).
  exists r. split; [exact Hr|]. intros st Hst.
  apply (H eq_refl st Hst).
Defined.

(** ** Rows left in processing by an earlier run *)

Lemma find_unique (fl : list file_row) (id : Z) (r : file_row) :
  NoDup (map file_id fl) -> In r fl -> file_id r = id ->
  List.find (fun r => file_id r =? id) fl = Some r.
Proof.
  induction fl as [|r0 fl IH]; intros Hnd Hin Hid; [destruct Hin|].
  cbn [map] in Hnd. apply NoDup_cons in Hnd as [Hnotin Hnd].
  cbn [List.find]. destruct Hin as [->|Hin].
  - rewrite Hid, Z.eqb_refl. reflexivity.
  - destruct (file_id r0 =? id) eqn:E; [|apply IH; assumption].
    apply Z.eqb_eq in E. exfalso. apply Hnotin. rewrite E, <- Hid.
    apply list_elem_of_In, in_map, Hin.
Qed.

Lemma get_pending_files_in (db : PIIDatabase) (job limit : Z) (x : Z * string) :
  In x (get_pending_files db job limit) ->
  exists r, In r (files db) /\ file_id r = x.1 /\ file_path r = x.2 /\
            is_pending_of job r = true.
Proof.
  unfold get_pending_files. intros Hin.
  assert (Hin' : In x (map (fun r => (file_id r, file_path r))
                         (filter (fun r => is_pending_of job r = true) (files db)))).
  { rewrite <- (firstn_skipn (Z.to_nat limit)). apply in_or_app. left. exact Hin. }
  apply in_map_iff in Hin' as (r & <- & Hr).
  apply list_elem_of_In, list_elem_of_filter in Hr as [Hp Hr].
  exists r. repeat split; [apply list_elem_of_In, Hr | exact Hp].
Qed.

Lemma not_pending_not_read (db : PIIDatabase) (job limit id : Z) (s : file_status) :
  unique_ids db -> file_status_of db id = Some s -> s <> FilePending ->
  ~ In id (map fst (get_pending_files db job limit)).
Proof.
  intros Hu Hs Hne Hin. apply in_map_iff in Hin as (x & <- & Hin).
  apply get_pending_files_in in Hin as (r & Hr & Hid & _ & Hp).
  unfold file_status_of in Hs. rewrite (find_unique _ _ r Hu Hr Hid) in Hs.
  cbn in Hs. injection Hs as Hs.
  unfold is_pending_of in Hp. apply andb_true_iff in Hp as [_ Hp].
  apply bool_decide_eq_true in Hp. congruence.
Qed.

Lemma submit_future_for (id : Z) (path : string) (w : worker_run) :
  future_for id (submit_future id path w).
Proof.
  split; [reflexivity|]. cbn [submit_future outcome].
  destruct (pool_failure w); [exact I|].
  unfold process_single_file_process_safe. destruct (behaviour w); reflexivity.
Qed.

Lemma submit_futures (env : environment) (k : nat) (pf : list (Z * string)) :
  forall db f, In f (submit env k db pf).1 ->
               exists id, In id (map fst pf) /\ future_for id f.
Proof.
  induction pf as [|[id path] rest IH]; intros db f Hin; [destruct Hin|].
  cbn [submit] in Hin. destruct (mark_file_processing db id) as [claimed db1].
  specialize (IH db1 f). destruct (submit env k db1 rest) as [futures db2].
  cbn [fst map] in *.
  assert (Hrest : In f futures -> exists id0, In id0 (id :: map fst rest) /\ future_for id0 f).
  { intros H. destruct (IH H) as (id0 & H1 & H2). exists id0. split; [right; exact H1|exact H2]. }
  destruct claimed; cbn [fst] in Hin; [|auto].
  destruct Hin as [<-|Hin]; [|auto].
  exists id. split; [left; reflexivity | apply submit_future_for].
Qed.

Lemma insert_by_done_in (f g : future) (l : list future) :
  In g (insert_by_done f l) -> g = f \/ In g l.
Proof.
  induction l as [|h l IH]; cbn [insert_by_done].
  - intros [<-|[]]. left. reflexivity.
  - destruct (Qltb _ _).
    + intros [<-|H]; [right; left; reflexivity|].
      destruct (IH H) as [->|H']; [left; reflexivity | right; right; exact H'].
    + intros [<-|H]; [left; reflexivity | right; exact H].
Qed.

Lemma as_completed_in (fs : list future) (timeout : Q) (f : future) :
  In f (as_completed fs timeout).1 -> In f fs.
Proof.
  cbn [as_completed fst].
  assert (H : forall l, In f (foldr insert_by_done [] l) -> In f l).
  { induction l as [|g l IH]; [auto|]. cbn [foldr]. intros Hin.
    apply insert_by_done_in in Hin as [->|Hin]; [left; reflexivity | right; auto]. }
  intros Hin. apply H in Hin.
  apply list_elem_of_In, list_elem_of_filter in Hin as [_ Hin].
  apply list_elem_of_In, Hin.
Qed.

Lemma handle_completion_other (a : arguments) (flag : bool) (f : future)
    (st : drain_state) (id' id : Z) :
  future_for id' f -> id <> id' ->
  file_status_of (d_db (handle_completion a flag f st)) id = file_status_of (d_db st) id.
Proof.
  intros [Hf Hr] Hne. unfold handle_completion, result.
  destruct (outcome f) as [r|[m|m]]; [destruct (res_success r)| |]; cbn [d_db].
  - rewrite Hr, mark_file_completed_other, store_file_results_status by exact Hne.
    reflexivity.
  - rewrite Hr, mark_file_error_other by exact Hne. reflexivity.
  - destruct (fut_file_id f =? 0); [reflexivity|].
    rewrite Hf, mark_file_error_other by exact Hne. reflexivity.
  - reflexivity.
Qed.

Lemma drain_from_other (a : arguments) (k : nat) (fs : list future) (id : Z) :
  (forall f, In f fs -> exists id', id <> id' /\ future_for id' f) ->
  forall i st,
    file_status_of (d_db (drain_from a k i fs st)) id = file_status_of (d_db st) id.
Proof.
  induction fs as [|f fs IH]; intros Hfs i st; [reflexivity|].
  cbn [drain_from]. rewrite IH by (intros g Hg; apply Hfs; right; exact Hg).
  destruct (Hfs f (or_introl eq_refl)) as (id' & Hne & Hf).
  apply (handle_completion_other a _ f st id' id Hf Hne).
Qed.

Lemma submit_ids (env : environment) (k : nat) (pf : list (Z * string)) :
  forall db, map file_id (files (submit env k db pf).2) = map file_id (files db).
Proof.
  induction pf as [|[id path] rest IH]; intros db; [reflexivity|].
  cbn [submit]. pose proof (mark_file_processing_ids db id) as H1.
  destruct (mark_file_processing db id) as [claimed db1].
  specialize (IH db1). destruct (submit env k db1 rest) as [futures db2].
  cbn [snd] in *. destruct claimed; cbn [snd]; congruence.
Qed.

Lemma handle_completion_ids (a : arguments) (flag : bool) (f : future) (st : drain_state) :
  map file_id (files (d_db (handle_completion a flag f st)))
    = map file_id (files (d_db st)).
Proof.
  unfold handle_completion, result.
  destruct (outcome f) as [r|[m|m]]; [destruct (res_success r)| |]; cbn [d_db].
  - rewrite mark_file_completed_ids, store_file_results_ids. reflexivity.
  - apply mark_file_error_ids.
  - destruct (fut_file_id f =? 0); [reflexivity | apply mark_file_error_ids].
  - reflexivity.
Qed.

Lemma drain_from_ids (a : arguments) (k : nat) (fs : list future) :
  forall i st,
    map file_id (files (d_db (drain_from a k i fs st))) = map file_id (files (d_db st)).
Proof.
  induction fs as [|f fs IH]; intros i st; [reflexivity|].
  cbn [drain_from]. rewrite IH. apply handle_completion_ids.
Qed.

Lemma run_batch_ids (env : environment) (a : arguments) (k : nat) (st : loop_state)
    (pf : list (Z * string)) (d : drain_state) (b : batch_record) :
  run_batch env a k st pf = (d, b) ->
  map file_id (files (d_db d)) = map file_id (files (l_db st)).
Proof.
  intros Hb.
  destruct (run_batch_record _ _ _ _ _ _ _ Hb) as (_ & _ & _ & _ & _ & _ & Hd & _).
  rewrite Hd, drain_from_ids. cbn [start_drain d_db]. apply submit_ids.
Qed.

Lemma run_batch_other (env : environment) (a : arguments) (k : nat) (st : loop_state)
    (pf : list (Z * string)) (d : drain_state) (b : batch_record) (id : Z)
    (s : file_status) :
  run_batch env a k st pf = (d, b) -> ~ In id (map fst pf) ->
  file_status_of (l_db st) id = Some s -> file_status_of (d_db d) id = Some s.
Proof.
  intros Hb Hnin Hs.
  destruct (run_batch_record _ _ _ _ _ _ _ Hb) as (_ & _ & _ & Hsub & Hdr & _ & Hd & _).
  rewrite Hd, drain_from_other.
  - cbn [start_drain d_db]. apply submit_frame; assumption.
  - intros f Hin. rewrite Hdr in Hin. apply as_completed_in in Hin.
    rewrite Hsub in Hin. apply submit_futures in Hin as (id' & Hin' & Hf).
    exists id'. split; [|exact Hf]. intros ->. contradiction.
Qed.

(** X16. A call neither retries nor settles a file that an earlier run
    left in [processing]: in a table with unique file ids such a row
    still reads [processing] when the call ends. *)
Theorem stalled_files_stay_stalled (env : environment) (db : PIIDatabase)
    (a : arguments) (id : Z) :
  unique_ids db -> file_status_of db id = Some FileProcessing ->
  exists r, process_files_parallel env db a = Some r /\
            file_status_of (run_db r) id = Some FileProcessing.
Proof.
  intros Hu Hdb.
  destruct (process_files_parallel_total env db a) as (r & Hr). exists r.
  split; [exact Hr|].
  destruct (run_cases _ _ _ _ Hr) as [->|(st & Hst)]; [exact Hdb|].
  rewrite (run_db_files _ _ _ _ _ id Hr Hst).
  set (P := fun s : loop_state =>
              unique_ids (l_db s) /\ file_status_of (l_db s) id = Some FileProcessing).
  destruct (run_invariant env db a P (fun _ s => P s) r st) as (out & HP & _); auto.
  - split; assumption.
  - intros k s HI.
    assert (H : match iteration env a k s with inl (_, s') => P s' | inr s' => P s' end).
    { apply (iteration_preserves env a k P s HI); unfold P.
      - rewrite prepared_db. auto.
      - intros d b _ _ _ Hb [H1 H2]. cbn [after_drain l_db]. split.
        + unfold unique_ids in *. rewrite (run_batch_ids _ _ _ _ _ _ _ Hb). exact H1.
        + apply (run_batch_other _ _ _ _ _ _ _ id FileProcessing Hb); [|exact H2].
          apply (not_pending_not_read _ _ _ _ FileProcessing H1 H2). discriminate.
      - intros d b H. exact H. }
    destruct (iteration env a k s) as [[o s']|s']; exact H.
  - apply HP.
Qed.

Lemma stalled_files_stay_stalled_witness :
  exists r,
    process_files_parallel (calm (fun _ => succeeding (1 # 1)))
      (mark_file_processing (discovered 1 3) 2).2 (service_call None) = Some r /\
    file_status_of (run_db r) 2 = Some FileProcessing.
Proof.
  apply (stalled_files_stay_stalled (calm (fun _ => succeeding (1 # 1)))
           (mark_file_processing (discovered 1 3) 2).2 (service_call None) 2).
  - unfold unique_ids. apply (bool_decide_unpack _). vm_compute. exact I.
  - reflexivity.
Defined.

(** ** One event for every completion *)

Lemma submit_future_not_timed_out (id : Z) (path : string) (w : worker_run) :
  timed_out (submit_future id path w) = false.
Proof.
  unfold timed_out, submit_future. cbn [outcome]. destruct (pool_failure w); reflexivity.
Qed.

Lemma submit_not_timed_out (env : environment) (k : nat) (pf : list (Z * string)) :
  forall db f, In f (submit env k db pf).1 -> timed_out f = false.
Proof.
  induction pf as [|[id path] rest IH]; intros db f Hin; [destruct Hin|].
  cbn [submit] in Hin. destruct (mark_file_processing db id) as [claimed db1].
  specialize (IH db1 f). destruct (submit env k db1 rest) as [futures db2].
  cbn [fst] in *. destruct claimed; cbn [fst] in Hin; [|auto].
  destruct Hin as [<-|Hin]; [apply submit_future_not_timed_out | auto].
Qed.

Lemma handle_completion_one_event (a : arguments) (flag : bool) (f : future)
    (st : drain_state) :
  progress_callback a = true -> timed_out f = false ->
  exists ev, d_sink (handle_completion a flag f st) = d_sink st ++ [ev] /\
             ev_type ev = event_type_of f.
Proof.
  intros Hcb Ht. pose proof (handle_completion_events a flag f st Hcb) as H.
  unfold event_type_of, failed, timed_out in *.
  destruct (outcome f) as [r|[m|m]]; [| discriminate |].
  - destruct H as (ev & H1 & H2 & _). exists ev. split; [exact H1|].
    rewrite H2. destruct (res_success r); reflexivity.
  - destruct H as (ev & H1 & H2). exists ev. split; assumption.
Qed.

Lemma drain_from_one_event_each (a : arguments) (k : nat) (fs : list future) :
  progress_callback a = true -> (forall f, In f fs -> timed_out f = false) ->
  forall i st,
    map ev_type (d_sink (drain_from a k i fs st))
      = map ev_type (d_sink st) ++ map event_type_of fs.
Proof.
  intros Hcb. induction fs as [|f fs IH]; intros Hfs i st.
  - cbn [drain_from map]. rewrite app_nil_r. reflexivity.
  - cbn [drain_from map]. rewrite IH by (intros g Hg; apply Hfs; right; exact Hg).
    destruct (handle_completion_one_event a (stop_is_set_at_completion a k i) f st Hcb
                (Hfs f (or_introl eq_refl))) as (ev & -> & <-).
    rewrite map_app, <- app_assoc. reflexivity.
Qed.

(** C8: with a progress callback in place, every file drained in a
    batch is reported by exactly one event, 'file_completed' when its
    worker succeeded and 'file_error' otherwise (the analyzer reported a
    failure or raised, or the pool lost the call), however long the
    worker took.  This holds of every completion the pool can hand
    over, and so of a whole call: the types of the events in the sink
    are, in order, those of the futures drained by its batches. *)
Theorem one_progress_event_per_drained_file (env : environment) (db : PIIDatabase)
    (a : arguments) :
  progress_callback a = true ->
  (forall flag id path w st,
     exists ev,
       d_sink (handle_completion a flag (submit_future id path w) st) = d_sink st ++ [ev] /\
       ev_type ev = event_type_of (submit_future id path w)) /\
  exists r, process_files_parallel env db a = Some r /\
    forall st, run_final r = Some st ->
      map ev_type (run_sink r) = map event_type_of (concat (map b_drained (l_trace st))) /\
      Z.of_nat (length (run_sink r)) = drained_total (l_trace st).
Proof.
  intros Hcb. split.
  - intros flag id path w st. apply handle_completion_one_event; [exact Hcb|].
    apply submit_future_not_timed_out.
  - destruct (process_files_parallel_total env db a) as (r & Hr). exists r.
    split; [exact Hr|]. intros st Hst.
    set (P := fun s : loop_state =>
                map ev_type (l_sink s)
                  = map event_type_of (concat (map b_drained (l_trace s)))).
    destruct (run_invariant env db a P (fun _ s => P s) r st) as (out & HP & Hout); auto.
    + reflexivity.
    + intros k s HI.
      assert (H : match iteration env a k s with inl (_, s') => P s' | inr s' => P s' end).
      { apply (iteration_preserves env a k P s HI); unfold P.
        - intros H. destruct (prepared_counts env a k s) as (_ & _ & ->).
          rewrite prepared_trace. exact H.
        - intros d b _ _ _ Hb H.
          destruct (run_batch_record _ _ _ _ _ _ _ Hb)
            as (_ & _ & _ & Hsub & Hdr & _ & Hd & _).
          cbn [after_drain l_sink l_trace].
          rewrite map_app, concat_app, map_app. cbn [map concat]. rewrite app_nil_r.
          rewrite Hd, drain_from_one_event_each; [|exact Hcb|].
          + cbn [start_drain d_sink]. rewrite H. reflexivity.
          + intros f Hf. rewrite Hdr in Hf. apply as_completed_in in Hf.
            rewrite Hsub in Hf. apply (submit_not_timed_out _ _ _ _ _ Hf).
        - intros d b H. exact H. }
      destruct (iteration env a k s) as [[o s']|s']; exact H.
    + assert (Hs : run_sink r = l_sink st).
      { destruct out as [fr|e]; [subst r; reflexivity|]. apply Hout. }
      rewrite Hs. split; [exact HP|].
      unfold drained_total.
      rewrite <- (length_map ev_type (l_sink st)), HP, length_map. reflexivity.
Qed.

Lemma one_progress_event_per_drained_file_witness :
  exists r, mixed_run = Some r /\
    forall st, run_final r = Some st ->
      map ev_type (run_sink r) = map event_type_of (concat (map b_drained (l_trace st))) /\
      Z.of_nat (length (run_sink r)) = drained_total (l_trace st).
Proof.
  apply (one_progress_event_per_drained_file (calm mixed_worker) (discovered 1 3)
           (service_call None)).
  reflexivity.
Defined.

(** In the run of three files, one succeeding, one lost by the pool and
    one on which the analyzer raises, the sink receives three events. *)
Lemma mixed_run_events :
  exists r, mixed_run = Some r /\
    trace_of r = [(0%nat, 3%nat, 2, false)] /\
    map (fun ev => (ev_type ev, ev_file_id ev)) (run_sink r) =
      [("file_completed", Some 1); ("file_error", None); ("file_error", Some 3)] /\
    run_completion r =
      returns {| ret_processed := 1; ret_errors := 2; ret_status := "completed";
                 ret_scaling_stats := Some no_scaling |}.
Proof. eexists. split; [vm_compute; reflexivity|]. vm_compute. repeat split. Qed.

(** ** Runs that nothing stops *)

Lemma get_pending_files_nil (db : PIIDatabase) (job limit : Z) :
  0 < limit -> get_pending_files db job limit = [] -> pending_count db job = 0%nat.
Proof.
  unfold get_pending_files, pending_count. intros Hl H.
  destruct (filter _ (files db)) as [|r l]; [reflexivity|].
  destruct (Z.to_nat limit) eqn:E; [lia|]. discriminate.
Qed.

(** X17. A call without [max_files], started with a batch size of at
    least 20, whose stop signal is never seen set at the top of the loop
    and none of whose batches ended with a stop request, returns only
    when no file of the job is pending any more. *)
Theorem undisturbed_run_leaves_nothing_pending (env : environment) (db : PIIDatabase)
    (a : arguments) :
  max_files a = None -> MIN_BATCH_SIZE <= batch_size a ->
  (forall k, stop_is_set_at_top a k = false) ->
  exists r, process_files_parallel env db a = Some r /\
    forall v st, run_completion r = returns v -> run_final r = Some st ->
      Forall (fun b => b_stop_requested b = false) (l_trace st) ->
      pending_count (run_db r) (arg_job_id a) = 0%nat.
Proof.
  intros Hmax Hbs Htop.
  destruct (process_files_parallel_total env db a) as (r & Hr). exists r.
  split; [exact Hr|]. intros v st Hv Hst Hquiet.
  destruct (run_invariant env db a batch_floor
              (fun o s => match o with
                          | loop_done _ =>
                              Forall (fun b => b_stop_requested b = false) (l_trace s) ->
                              pending_count (l_db s) (arg_job_id a) = 0%nat
                          | loop_raised _ => True
                          end) r st) as (out & HR & Hout); auto.
  - split; [exact Hbs | constructor].
  - intros k s HI. pose proof (iteration_minimum env a k s HI) as Hmin.
    destruct (iteration env a k s) as [[o s']|s'] eqn:E; [|exact Hmin].
    destruct (iteration_exit _ _ _ _ _ _ E)
      as [(-> & -> & Hb)|[(-> & -> & Hs)|[(-> & -> & _ & Hp)|(b & Hlast & Hcase)]]].
    + unfold below_max_files in Hb. rewrite Hmax in Hb. discriminate.
    + rewrite Htop in Hs. discriminate.
    + intros _.
      apply (get_pending_files_nil _ _ (batch_limit a (prepared env a k s))); [|exact Hp].
      destruct Hmin as [Hm _]. unfold batch_limit. rewrite Hmax.
      unfold MIN_BATCH_SIZE in Hm. lia.
    + destruct Hcase as [(e & -> & _)|(-> & Hstop)]; [exact I|].
      intros Hq. apply last_Some in Hlast as (l' & Hl). rewrite Hl in Hq.
      apply Forall_app in Hq as [_ Hq]. apply Forall_cons in Hq as [Hq _]. congruence.
  - destruct out as [fr|e].
    + subst r. cbn [finish run_db]. unfold pending_count in *.
      rewrite update_job_status_files. apply HR, Hquiet.
    + destruct Hout as (Hc & _). destruct (pool_shutdown_hangs _); congruence.
Qed.

Lemma undisturbed_run_leaves_nothing_pending_witness :
  exists r,
    process_files_parallel (calm burst) (discovered 1 100) (service_call None) = Some r /\
    forall v st, run_completion r = returns v -> run_final r = Some st ->
      Forall (fun b => b_stop_requested b = false) (l_trace st) ->
      pending_count (run_db r) 1 = 0%nat.
Proof.
  apply (undisturbed_run_leaves_nothing_pending (calm burst) (discovered 1 100)
           (service_call None)).
  - reflexivity.
  - unfold MIN_BATCH_SIZE. simpl. lia.
  - intros k. reflexivity.
Defined.

(** ** The job row during a call *)

Lemma mark_file_processing_jobs (db : PIIDatabase) (id : Z) :
  jobs (mark_file_processing db id).2 = jobs db.
Proof.
  unfold mark_file_processing. destruct (transition _ _ _ _ _). reflexivity.
Qed.

Lemma submit_jobs (env : environment) (k : nat) (pf : list (Z * string)) :
  forall db, jobs (submit env k db pf).2 = jobs db.
Proof.
  induction pf as [|[id path] rest IH]; intros db; [reflexivity|].
  cbn [submit]. pose proof (mark_file_processing_jobs db id) as H1.
  destruct (mark_file_processing db id) as [claimed db1].
  specialize (IH db1). destruct (submit env k db1 rest) as [futures db2].
  cbn [snd] in *. destruct claimed; cbn [snd]; congruence.
Qed.

Lemma mark_file_completed_job_status (db : PIIDatabase) (id job j : Z) :
  job_status_of (mark_file_completed db id job) j = job_status_of db j.
Proof.
  unfold mark_file_completed, job_status_of. destruct (transition _ _ _ _ _).
  cbn [jobs]. apply job_status_of_bump.
Qed.

Lemma mark_file_error_job_status (db : PIIDatabase) (id job j : Z) (msg : string) :
  job_status_of (mark_file_error db id job msg) j = job_status_of db j.
Proof.
  unfold mark_file_error, job_status_of. destruct (transition _ _ _ _ _).
  cbn [jobs]. apply job_status_of_bump.
Qed.

Lemma handle_completion_job_status (a : arguments) (flag : bool) (f : future)
    (st : drain_state) (j : Z) :
  job_status_of (d_db (handle_completion a flag f st)) j = job_status_of (d_db st) j.
Proof.
  unfold handle_completion, result.
  destruct (outcome f) as [r|[m|m]]; [destruct (res_success r)| |]; cbn [d_db].
  - rewrite mark_file_completed_job_status. reflexivity.
  - apply mark_file_error_job_status.
  - destruct (fut_file_id f =? 0); [reflexivity | apply mark_file_error_job_status].
  - reflexivity.
Qed.

Lemma drain_from_job_status (a : arguments) (k : nat) (fs : list future) (j : Z) :
  forall i st, job_status_of (d_db (drain_from a k i fs st)) j = job_status_of (d_db st) j.
Proof.
  induction fs as [|f fs IH]; intros i st; [reflexivity|].
  cbn [drain_from]. rewrite IH. apply handle_completion_job_status.
Qed.

Lemma loop_keeps_job_status (env : environment) (db : PIIDatabase) (a : arguments)
    (r : run) (st : loop_state) (j : Z) :
  process_files_parallel env db a = Some r -> run_final r = Some st ->
  job_status_of (l_db st) j = job_status_of db j.
Proof.
  intros Hr Hst.
  set (P := fun s : loop_state => job_status_of (l_db s) j = job_status_of db j).
  destruct (run_invariant env db a P (fun _ s => P s) r st) as (out & HP & _); auto.
  - reflexivity.
  - intros k s HI.
    assert (H : match iteration env a k s with inl (_, s') => P s' | inr s' => P s' end).
    { apply (iteration_preserves env a k P s HI); unfold P.
      - rewrite prepared_db. auto.
      - intros d b _ _ _ Hb H.
        destruct (run_batch_record _ _ _ _ _ _ _ Hb) as (_ & _ & _ & _ & _ & _ & Hd & _).
        cbn [after_drain l_db]. rewrite Hd, drain_from_job_status.
        cbn [start_drain d_db]. unfold job_status_of in *. rewrite submit_jobs. exact H.
      - intros d b H. exact H. }
    destruct (iteration env a k s) as [[o s']|s']; exact H.
Qed.

Lemma job_status_is_written_by_call (env : environment) (db : PIIDatabase)
    (a : arguments) :
  exists r, process_files_parallel env db a = Some r /\
    (forall v, run_completion r = returns v ->
       job_status_of (run_db r) (arg_job_id a)
         = (fun _ => ret_status v) <$> job_status_of db (arg_job_id a)) /\
    (forall e, run_completion r = raises e ->
       job_status_of (run_db r) (arg_job_id a) = job_status_of db (arg_job_id a)) /\
    (run_completion r = blocks ->
       job_status_of (run_db r) (arg_job_id a) = job_status_of db (arg_job_id a)).
Proof.
  destruct (process_files_parallel_total env db a) as (r & Hr). exists r.
  split; [exact Hr|].
  destruct (run_cases _ _ _ _ Hr) as [->|(st & Hst)].
  - repeat split; intros; try reflexivity; discriminate.
  - pose proof (fun j => loop_keeps_job_status env db a r st j Hr Hst) as Hkeep.
    destruct (process_files_parallel_inv _ _ _ _ _ Hr Hst) as (fuel & out & _ & Hout).
    destruct out as [fr|e].
    + subst r. cbn [finish run_db run_completion]. repeat split.
      * intros v [= <-]. rewrite job_status_of_update_job_status, Z.eqb_refl, Hkeep.
        reflexivity.
      * discriminate.
      * discriminate.
    + destruct Hout as (Hc & Hdb & _). rewrite Hdb. repeat split.
      * intros v Hv. destruct (pool_shutdown_hangs _); congruence.
      * intros _ _. apply Hkeep.
      * intros _. apply Hkeep.
Qed.

(** X18. The job status is written once, on return: a call that
    returns leaves the status it returns in the job's row, a call that
    ends with an exception leaves the job's status as it found it (a
    job marked 'running' stays 'running'), and the status of no other
    job is ever changed. *)
Theorem job_status_is_written_on_return_only (env : environment) (db : PIIDatabase)
    (a : arguments) :
  exists r, process_files_parallel env db a = Some r /\
    (forall j, j <> arg_job_id a -> job_status_of (run_db r) j = job_status_of db j) /\
    (forall v, run_completion r = returns v ->
       job_status_of (run_db r) (arg_job_id a)
         = (fun _ => ret_status v) <$> job_status_of db (arg_job_id a)) /\
    (forall e, run_completion r = raises e ->
       job_status_of (run_db r) (arg_job_id a) = job_status_of db (arg_job_id a)).
Proof.
  destruct (process_files_parallel_total env db a) as (r & Hr). exists r.
  split; [exact Hr|].
  destruct (run_cases _ _ _ _ Hr) as [->|(st & Hst)].
  - repeat split; intros; try reflexivity; discriminate.
  - pose proof (fun j => loop_keeps_job_status env db a r st j Hr Hst) as Hkeep.
    destruct (process_files_parallel_inv _ _ _ _ _ Hr Hst) as (fuel & out & _ & Hout).
    destruct out as [fr|e].
    + subst r. cbn [finish run_db run_completion]. repeat split.
      * intros j Hj. rewrite job_status_of_update_job_status.
        destruct (Z.eqb_spec j (arg_job_id a)); [contradiction | apply Hkeep].
      * intros v [= <-]. rewrite job_status_of_update_job_status, Z.eqb_refl, Hkeep.
        reflexivity.
      * discriminate.
    + destruct Hout as (Hc & Hdb & _). rewrite Hdb. repeat split.
      * intros j _. apply Hkeep.
      * intros v Hv. destruct (pool_shutdown_hangs _); congruence.
      * intros _ _. apply Hkeep.
Qed.

Lemma job_status_is_written_on_return_only_witness :
  exists r,
    process_files_parallel (calm (slow_worker (400 # 1))) (discovered 1 2)
      (service_call None) = Some r /\
    forall e, run_completion r = raises e -> job_status_of (run_db r) 1 = Some "running".
Proof.
  destruct (job_status_is_written_on_return_only (calm (slow_worker (400 # 1)))
              (discovered 1 2) (service_call None)) as (r & Hr & _ & _ & H).
  exists r. split; [exact Hr|]. intros e He. exact (H e He).
Defined.

(** ** The order in which files are claimed *)

Lemma pending_in_cons (job : Z) (r : file_row) (fl : list file_row) :
  pending_in job (r :: fl) =
    if is_pending_of job r then (file_id r, file_path r) :: pending_in job fl
    else pending_in job fl.
Proof.
  unfold pending_in. rewrite filter_cons.
  destruct (is_pending_of job r); destruct (decide _); try congruence; reflexivity.
Qed.

Lemma pending_in_ids (job : Z) (fl : list file_row) (id : Z) :
  In id (map fst (pending_in job fl)) -> In id (map file_id fl).
Proof.
  induction fl as [|r fl IH]; [auto|]. rewrite pending_in_cons. cbn [map].
  destruct (is_pending_of job r); cbn [map fst]; intros H.
  - destruct H as [H|H]; [left; exact H | right; auto].
  - right. auto.
Qed.

Lemma pending_in_NoDup (job : Z) (fl : list file_row) :
  NoDup (map file_id fl) -> NoDup (map fst (pending_in job fl)).
Proof.
  induction fl as [|r fl IH]; intros Hnd; [constructor|].
  cbn [map] in Hnd. apply NoDup_cons in Hnd as [Hnotin Hnd].
  rewrite pending_in_cons. destruct (is_pending_of job r); [|auto].
  cbn [map fst]. apply NoDup_cons. split; [|auto].
  intros Hin. apply Hnotin. apply list_elem_of_In, pending_in_ids with job.
  apply list_elem_of_In, Hin.
Qed.








(** Claiming the first pending row of a job takes exactly that row off
    the list. *)
Lemma claim_head (job : Z) (fl : list file_row) (id : Z) (path : string)
    (rest : list (Z * string)) :
  NoDup (map file_id fl) -> pending_in job fl = (id, path) :: rest ->
  pending_in job (transition fl id FilePending FileProcessing None).1 = rest /\
  (transition fl id FilePending FileProcessing None).2 = 1%nat.
Proof.
  induction fl as [|r fl IH]; intros Hnd Hp; [discriminate|].
  cbn [map] in Hnd. apply NoDup_cons in Hnd as [Hnotin Hnd].
  rewrite pending_in_cons in Hp. cbn [transition fst snd map]. rewrite filter_cons.
  destruct (is_pending_of job r) eqn:Er.
  - injection Hp as Hid Hpath Hrest.
    assert (Hst : status r = FilePending).
    { unfold is_pending_of in Er. apply andb_true_iff in Er as [_ Er].
      apply bool_decide_eq_true in Er. exact Er. }
    rewrite Hid, Z.eqb_refl, (bool_decide_eq_true_2 _ Hst). cbn [andb].
    destruct (decide (true = true)) as [_|?]; [|congruence].
    assert (Hm : Forall (fun r' => file_id r' = id -> status r' <> FilePending) fl).
    { apply Forall_forall. intros r' Hin Hid'. exfalso. apply Hnotin.
      rewrite Hid, <- Hid'. apply list_elem_of_In, in_map, list_elem_of_In, Hin. }
    pose proof (transition_miss fl id FilePending FileProcessing None Hm) as Ht.
    unfold transition in Ht. injection Ht as Ht1 Ht2.
    cbn [length]. rewrite Ht1, Ht2. rewrite pending_in_cons.
    assert (Hn : is_pending_of job (set_status r FileProcessing None) = false).
    { unfold is_pending_of. cbn [set_status status file_job_id].
      rewrite (bool_decide_eq_false_2 (FileProcessing = FilePending)) by discriminate.
      apply andb_false_r. }
    rewrite Hn. split; [exact Hrest | reflexivity].
  - assert (Hne : (file_id r =? id) = false).
    { apply Z.eqb_neq. intros Heq. apply Hnotin. rewrite Heq.
      apply list_elem_of_In, pending_in_ids with job. rewrite Hp. left. reflexivity. }
    rewrite Hne. cbn [andb]. destruct (decide (false = true)) as [?|_]; [discriminate|].
    rewrite pending_in_cons, Er. apply (IH Hnd Hp).
Qed.

Lemma mark_file_processing_head (db : PIIDatabase) (job id : Z) (path : string)
    (rest : list (Z * string)) :
  unique_ids db -> pending_list db job = (id, path) :: rest ->
  (mark_file_processing db id).1 = true /\
  pending_list (mark_file_processing db id).2 job = rest.
Proof.
  intros Hu Hp. unfold mark_file_processing, pending_list in *.
  destruct (claim_head job (files db) id path rest Hu Hp) as [H1 H2].
  destruct (transition (files db) id FilePending FileProcessing None) as [fl n].
  cbn [fst snd with_files files] in *. subst n. auto.
Qed.

Lemma submit_in_order (env : environment) (k : nat) (job : Z) (pf : list (Z * string)) :
  forall db rest,
    unique_ids db -> pending_list db job = pf ++ rest ->
    pending_list (submit env k db pf).2 job = rest /\
    map (fun f => (fut_file_id f, fut_file_path f)) (submit env k db pf).1 = pf.
Proof.
  induction pf as [|[id path] pf IH]; intros db rest Hu Hp; [auto|].
  cbn [submit]. cbn [app] in Hp.
  destruct (mark_file_processing_head db job id path (pf ++ rest) Hu Hp) as [Hc Hl].
  pose proof (mark_file_processing_ids db id) as Hids.
  destruct (mark_file_processing db id) as [claimed db1]. cbn [fst snd] in *. subst claimed.
  assert (Hu1 : unique_ids db1) by (unfold unique_ids in *; rewrite Hids; exact Hu).
  destruct (IH db1 rest Hu1 Hl) as [H1 H2].
  destruct (submit env k db1 pf) as [futures db2]. cbn [fst snd map] in *.
  split; [exact H1|]. rewrite H2. reflexivity.
Qed.




(** ** The counters of the job row *)

Lemma bump_counters (jl : list job_row) (job dp de : Z) :
  (fun j => (processed_files j, error_files j))
    <$> List.find (fun j => job_id j =? job) (bump jl job dp de)
  = (fun j => (processed_files j + dp, error_files j + de))
    <$> List.find (fun j => job_id j =? job) jl.
Proof.
  unfold bump. induction jl as [|r jl IH]; [reflexivity|].
  cbn [map List.find].
  destruct (job_id r =? job) eqn:E; cbn [job_id]; rewrite E; [reflexivity | exact IH].
Qed.

Lemma update_job_status_counters (db : PIIDatabase) (job : Z) (s : string) :
  job_counters (update_job_status db job s) job = job_counters db job.
Proof.
  unfold job_counters, get_job, update_job_status. cbn [with_jobs jobs].
  induction (jobs db) as [|r jl IH]; [reflexivity|].
  cbn [map List.find].
  destruct (job_id r =? job) eqn:E; cbn [job_id]; rewrite E; [reflexivity | exact IH].
Qed.

Lemma transition_hits_le_1 (fl : list file_row) (id : Z) (from to : file_status)
    (msg : option string) :
  NoDup (map file_id fl) -> ((transition fl id from to msg).2 <= 1)%nat.
Proof.
  intros Hnd.
  destruct (status <$> List.find (fun r => file_id r =? id) fl) as [s|] eqn:E.
  - destruct (decide (s = from)) as [->|Hne].
    + rewrite (transition_hit_once fl id from to msg Hnd E). lia.
    + rewrite transition_miss; [cbn; lia|].
      apply Forall_forall. intros r Hin Hid Hst.
      apply list_elem_of_In in Hin. rewrite (find_unique fl id r Hnd Hin Hid) in E.
      cbn in E. congruence.
  - rewrite transition_miss; [cbn; lia|].
    apply Forall_forall. intros r Hin Hid _.
    destruct (List.find (fun r => file_id r =? id) fl) eqn:E'; [discriminate|].
    apply list_elem_of_In in Hin. pose proof (find_none _ _ E' r Hin) as Hn.
    cbn in Hn. lia.
Qed.

Lemma mark_file_completed_counters (db : PIIDatabase) (id job : Z) (p e : Z) :
  unique_ids db -> file_status_of db id = Some FileProcessing ->
  job_counters db job = Some (p, e) ->
  job_counters (mark_file_completed db id job) job = Some (p + 1, e).
Proof.
  intros Hu Hs Hc. unfold mark_file_completed, job_counters, get_job in *.
  pose proof (transition_hit_once (files db) id FileProcessing FileCompleted None Hu Hs) as Hn.
  destruct (transition (files db) id FileProcessing FileCompleted None) as [fl n].
  cbn [snd jobs] in *. subst n. rewrite bump_counters.
  destruct (List.find _ (jobs db)) as [j|]; [|discriminate].
  cbn in *. injection Hc as <- <-. f_equal. f_equal; lia.
Qed.

Lemma mark_file_error_counters (db : PIIDatabase) (id job : Z) (msg : string) (p e : Z) :
  unique_ids db -> job_counters db job = Some (p, e) ->
  exists e', job_counters (mark_file_error db id job msg) job = Some (p, e') /\
             e <= e' <= e + 1.
Proof.
  intros Hu Hc. unfold mark_file_error, job_counters, get_job in *.
  pose proof (transition_hits_le_1 (files db) id FileProcessing FileError (Some msg) Hu) as Hn.
  destruct (transition (files db) id FileProcessing FileError (Some msg)) as [fl n].
  cbn [snd jobs] in *. rewrite bump_counters.
  destruct (List.find _ (jobs db)) as [j|]; [|discriminate].
  cbn in *. injection Hc as <- <-. exists (error_files j + Z.of_nat n).
  split; [f_equal; f_equal; lia | lia].
Qed.

Lemma handle_completion_counters (a : arguments) (flag : bool) (f : future)
    (st : drain_state) (p e : Z) :
  unique_ids (d_db st) -> future_for (fut_file_id f) f ->
  file_status_of (d_db st) (fut_file_id f) = Some FileProcessing ->
  job_counters (d_db st) (arg_job_id a) = Some (p, e) ->
  exists e',
    job_counters (d_db (handle_completion a flag f st)) (arg_job_id a)
      = Some (p + (d_processed_count (handle_completion a flag f st)
                   - d_processed_count st), e') /\
    e <= e' <= e + (d_error_count (handle_completion a flag f st) - d_error_count st).
Proof.
  intros Hu [_ Hf] Hs Hc. unfold handle_completion, result.
  destruct (outcome f) as [r|[m|m]]; [destruct (res_success r)| |];
    cbn [d_db d_processed_count d_error_count].
  - exists e. split; [|lia]. rewrite Hf.
    replace (p + (d_processed_count st + 1 - d_processed_count st)) with (p + 1) by lia.
    apply mark_file_completed_counters.
    + unfold unique_ids in *. rewrite store_file_results_ids. exact Hu.
    + rewrite store_file_results_status. exact Hs.
    + exact Hc.
  - destruct (mark_file_error_counters (d_db st) (res_file_id r) (arg_job_id a)
                (default "Unknown error" (res_error_message r)) p e Hu Hc) as (e' & H1 & H2).
    exists e'. split; [|lia]. rewrite H1. f_equal. f_equal. lia.
  - destruct (fut_file_id f =? 0).
    + exists e. split; [|lia]. rewrite Hc. f_equal. f_equal. lia.
    + destruct (mark_file_error_counters (d_db st) (fut_file_id f) (arg_job_id a)
                  "Processing timeout (180s)" p e Hu Hc) as (e' & H1 & H2).
      exists e'. split; [|lia]. rewrite H1. f_equal. f_equal. lia.
  - exists e. split; [|lia]. rewrite Hc. f_equal. f_equal. lia.
Qed.

Lemma drain_from_counters (a : arguments) (k : nat) (fs : list future) :
  forall i st p e,
    unique_ids (d_db st) -> NoDup (map fut_file_id fs) ->
    (forall f, In f fs ->
       future_for (fut_file_id f) f /\
       file_status_of (d_db st) (fut_file_id f) = Some FileProcessing) ->
    job_counters (d_db st) (arg_job_id a) = Some (p, e) ->
    exists e',
      job_counters (d_db (drain_from a k i fs st)) (arg_job_id a)
        = Some (p + (d_processed_count (drain_from a k i fs st) - d_processed_count st),
                e') /\
      e <= e' <= e + (d_error_count (drain_from a k i fs st) - d_error_count st).
Proof.
  induction fs as [|f fs IH]; intros i st p e Hu Hnd Hfs Hc.
  - cbn [drain_from]. exists e. split; [|lia]. rewrite Hc. f_equal. f_equal. lia.
  - cbn [drain_from]. cbn [map] in Hnd. apply NoDup_cons in Hnd as [Hnotin Hnd].
    destruct (Hfs f (or_introl eq_refl)) as [Hff Hfp].
    set (flag := stop_is_set_at_completion a k i).
    destruct (handle_completion_counters a flag f st p e Hu Hff Hfp Hc) as (e1 & H1 & H2).
    assert (Hu1 : unique_ids (d_db (handle_completion a flag f st))).
    { unfold unique_ids in *. rewrite handle_completion_ids. exact Hu. }
    assert (Hfs1 : forall g, In g fs ->
              future_for (fut_file_id g) g /\
              file_status_of (d_db (handle_completion a flag f st)) (fut_file_id g)
                = Some FileProcessing).
    { intros g Hg. destruct (Hfs g (or_intror Hg)) as [Hgf Hgp]. split; [exact Hgf|].
      rewrite (handle_completion_other a flag f st (fut_file_id f) (fut_file_id g) Hff).
      - exact Hgp.
      - intros Heq. apply Hnotin. rewrite <- Heq.
        apply list_elem_of_In, in_map, Hg. }
    destruct (IH (S i) (handle_completion a flag f st) _ e1 Hu1 Hnd Hfs1 H1)
      as (e2 & H3 & H4).
    exists e2. split; [|lia]. rewrite H3. f_equal. f_equal. lia.
Qed.

Lemma pending_head_status (db : PIIDatabase) (job id : Z) (path : string)
    (rest : list (Z * string)) :
  unique_ids db -> pending_list db job = (id, path) :: rest ->
  file_status_of db id = Some FilePending.
Proof.
  intros Hu Hp.
  assert (Hin : In (id, path) (get_pending_files db job (Z.of_nat 1))).
  { unfold get_pending_files. fold (pending_in job (files db)).
    fold (pending_list db job). rewrite Hp. left. reflexivity. }
  apply get_pending_files_in in Hin as (r & Hr & Hid & _ & Hpend). cbn [fst] in Hid.
  unfold file_status_of. rewrite (find_unique _ _ r Hu Hr Hid). cbn.
  unfold is_pending_of in Hpend. apply andb_true_iff in Hpend as [_ Hpend].
  apply bool_decide_eq_true in Hpend. congruence.
Qed.

Lemma submit_marks (env : environment) (k : nat) (job : Z) (pf : list (Z * string)) :
  forall db rest,
    unique_ids db -> pending_list db job = pf ++ rest ->
    forall id, In id (map fst pf) ->
               file_status_of (submit env k db pf).2 id = Some FileProcessing.
Proof.
  induction pf as [|[id0 path] pf IH]; intros db rest Hu Hp id Hin; [destruct Hin|].
  cbn [submit]. cbn [app] in Hp.
  pose proof (pending_head_status db job id0 path _ Hu Hp) as Hs0.
  destruct (mark_file_processing_hit db id0 Hu Hs0) as [_ Hproc].
  destruct (mark_file_processing_head db job id0 path (pf ++ rest) Hu Hp) as [_ Hl].
  pose proof (mark_file_processing_ids db id0) as Hids.
  destruct (mark_file_processing db id0) as [claimed db1]. cbn [fst snd] in *.
  assert (Hu1 : unique_ids db1) by (unfold unique_ids in *; rewrite Hids; exact Hu).
  pose proof (IH db1 rest Hu1 Hl id) as IH'.
  pose proof (submit_keeps env k pf id FileProcessing ltac:(discriminate) db1) as Hkeep.
  destruct (submit env k db1 pf) as [futures db2]. cbn [snd] in *.
  assert (Hgoal : file_status_of db2 id = Some FileProcessing).
  { destruct (in_dec Z.eq_dec id (map fst pf)) as [Hin'|Hnin]; [auto|].
    cbn [map fst] in Hin. destruct Hin as [<-|Hin]; [|contradiction].
    apply Hkeep, Hproc. }
  destruct claimed; exact Hgoal.
Qed.

Lemma insert_by_done_NoDup {B : Type} (h : future -> B) (f : future) (l : list future) :
  h f ∉ map h l -> NoDup (map h l) -> NoDup (map h (insert_by_done f l)).
Proof.
  induction l as [|g l IH]; intros Hnotin Hnd.
  - cbn. apply NoDup_singleton.
  - cbn [insert_by_done]. destruct (Qltb _ _).
    + cbn [map] in *. apply NoDup_cons in Hnd as [Hg Hnd].
      apply NoDup_cons. split.
      * intros Hin. apply list_elem_of_In, in_map_iff in Hin as (x & Hx & Hin).
        apply insert_by_done_in in Hin as [->|Hin].
        -- apply Hnotin. rewrite Hx. left.
        -- apply Hg. rewrite <- Hx. apply list_elem_of_In, in_map, Hin.
      * apply IH; [|exact Hnd]. intros Hin. apply Hnotin. right. exact Hin.
    + cbn [map] in *. apply NoDup_cons. split; assumption.
Qed.

Lemma as_completed_NoDup {B : Type} (h : future -> B) (fs : list future) (timeout : Q) :
  NoDup (map h fs) -> NoDup (map h (as_completed fs timeout).1).
Proof.
  cbn [as_completed fst]. intros Hnd.
  assert (Hf : forall l, NoDup (map h l) ->
                 NoDup (map h (filter (fun f => done_by timeout f = true) l)) /\
                 forall x, In x (filter (fun f => done_by timeout f = true) l) ->
                           In x l).
  { induction l as [|g l IH]; intros H; [split; [constructor | auto]|].
    cbn [map] in H. apply NoDup_cons in H as [Hg H]. destruct (IH H) as [IH1 IH2].
    rewrite filter_cons. destruct (decide _).
    - split.
      + cbn [map]. apply NoDup_cons. split; [|exact IH1].
        intros Hin. apply Hg. apply list_elem_of_In, in_map_iff in Hin as (x & <- & Hin).
        apply list_elem_of_In, in_map, IH2, Hin.
      + intros x [<-|Hx]; [left; reflexivity | right; auto].
    - split; [exact IH1 | intros x Hx; right; auto]. }
  destruct (Hf fs Hnd) as [Hnd' _]. clear Hf Hnd.
  induction (filter _ fs) as [|g l IH]; [constructor|].
  cbn [map] in Hnd'. apply NoDup_cons in Hnd' as [Hg Hnd'].
  cbn [foldr]. apply insert_by_done_NoDup; [|auto].
  intros Hin. apply Hg. apply list_elem_of_In, in_map_iff in Hin as (x & <- & Hin).
  assert (H : forall l0, In x (foldr insert_by_done [] l0) -> In x l0).
  { induction l0 as [|y l0 IH0]; [auto|]. cbn [foldr]. intros Hx.
    apply insert_by_done_in in Hx as [->|Hx]; [left; reflexivity | right; auto]. }
  apply list_elem_of_In, in_map, H, Hin.
Qed.

(** X20. In a table with unique file ids the counters of the job row
    follow the call: when it ends, [processed_files] has grown by exactly
    the number of files the call reports as processed, and
    [error_files] by at most the number it reports as errors (errors of
    the pool itself are counted by the call but written nowhere). *)
Theorem job_counters_follow_the_call (env : environment) (db : PIIDatabase)
    (a : arguments) (p0 e0 : Z) :
  unique_ids db -> job_counters db (arg_job_id a) = Some (p0, e0) ->
  exists r, process_files_parallel env db a = Some r /\
    forall st, run_final r = Some st ->
      exists e1,
        job_counters (run_db r) (arg_job_id a) = Some (p0 + processed_count st, e1) /\
        e0 <= e1 <= e0 + error_count st.
Proof.
  intros Hu Hc.
  destruct (process_files_parallel_total env db a) as (r & Hr). exists r.
  split; [exact Hr|]. intros st Hst.
  set (P := fun s : loop_state =>
              unique_ids (l_db s) /\
              exists e1,
                job_counters (l_db s) (arg_job_id a) = Some (p0 + processed_count s, e1) /\
                e0 <= e1 <= e0 + error_count s).
  destruct (run_invariant env db a P (fun _ s => P s) r st) as (out & HP & Hout); auto.
  - split; [exact Hu|]. exists e0. cbn [initial_state l_db processed_count error_count].
    split; [rewrite Hc; f_equal; f_equal; lia | lia].
  - intros k s HI.
    assert (H : match iteration env a k s with inl (_, s') => P s' | inr s' => P s' end).
    { apply (iteration_preserves env a k P s HI); unfold P.
      - destruct (prepared_counts env a k s) as (-> & -> & _). rewrite prepared_db. auto.
      - intros d b _ _ _ Hb (H1 & e1 & H2 & H3).
        set (st1 := prepared env a k s) in *.
        set (pf := get_pending_files (l_db st1) (arg_job_id a) (batch_limit a st1)) in *.
        destruct (run_batch_record _ _ _ _ _ _ _ Hb)
          as (_ & _ & _ & Hsub & Hdr & _ & Hd & _).
        assert (Hsplit : pending_list (l_db st1) (arg_job_id a)
                         = pf ++ drop (Z.to_nat (batch_limit a st1))
                                   (pending_list (l_db st1) (arg_job_id a))).
        { unfold pf, get_pending_files. symmetry. apply take_drop. }
        destruct (submit_in_order env k (arg_job_id a) pf (l_db st1) _ H1 Hsplit)
          as [_ Hrows].
        pose proof (submit_marks env k (arg_job_id a) pf (l_db st1) _ H1 Hsplit) as Hmarks.
        pose proof (submit_ids env k pf (l_db st1)) as Hids.
        pose proof (submit_jobs env k pf (l_db st1)) as Hjobs.
        pose proof (submit_futures env k pf (l_db st1)) as Hfut.
        rewrite <- Hsub in Hrows, Hfut.
        set (db1 := (submit env k (l_db st1) pf).2) in *.
        assert (Hu1 : unique_ids db1) by (unfold unique_ids in *; rewrite Hids; exact H1).
        assert (Hndpf : NoDup (map fst pf)).
        { pose proof (pending_in_NoDup (arg_job_id a) (files (l_db st1)) H1) as Hnd.
          fold (pending_list (l_db st1) (arg_job_id a)) in Hnd.
          rewrite Hsplit, map_app in Hnd. apply NoDup_app in Hnd as (Hnd & _). exact Hnd. }
        assert (Hnds : NoDup (map fut_file_id (b_submitted b))).
        { replace (map fut_file_id (b_submitted b)) with (map fst pf); [exact Hndpf|].
          rewrite <- Hrows, map_map. reflexivity. }
        assert (Hndd : NoDup (map fut_file_id (b_drained b))).
        { rewrite Hdr. apply as_completed_NoDup, Hnds. }
        assert (Hall : forall f, In f (b_drained b) ->
                  future_for (fut_file_id f) f /\
                  file_status_of (d_db (start_drain db1 st1)) (fut_file_id f)
                    = Some FileProcessing).
        { intros f Hf. rewrite Hdr in Hf. apply as_completed_in in Hf.
          destruct (Hfut f Hf) as (id & Hid & Hff).
          destruct Hff as [Heq Hres]. rewrite Heq. split; [split; [exact Heq | exact Hres]|].
          cbn [start_drain d_db]. apply Hmarks, Hid. }
        assert (Hc1 : job_counters (d_db (start_drain db1 st1)) (arg_job_id a)
                      = Some (p0 + processed_count st1, e1)).
        { cbn [start_drain d_db]. unfold job_counters, get_job in *.
          rewrite Hjobs. exact H2. }
        destruct (drain_from_counters a k (b_drained b) 0%nat (start_drain db1 st1) _ e1
                    Hu1 Hndd Hall Hc1) as (e2 & H4 & H5).
        rewrite <- Hd in H4, H5. cbn [start_drain d_processed_count d_error_count] in H4, H5.
        cbn [after_drain l_db processed_count error_count]. split.
        + unfold unique_ids in *. rewrite (run_batch_ids _ _ _ _ _ _ _ Hb). exact H1.
        + exists e2. split; [|lia]. rewrite H4. f_equal. f_equal. lia.
      - intros d b H. exact H. }
    destruct (iteration env a k s) as [[o s']|s']; exact H.
  - destruct HP as (_ & e1 & H1 & H2). exists e1. split; [|exact H2].
    destruct out as [fr|e].
    + subst r. cbn [finish run_db]. rewrite update_job_status_counters. exact H1.
    + destruct Hout as (_ & -> & _). exact H1.
Qed.

Lemma job_counters_follow_the_call_witness :
  exists r,
    process_files_parallel (calm burst) (discovered 1 100) (service_call None) = Some r /\
    forall st, run_final r = Some st ->
      exists e1, job_counters (run_db r) 1 = Some (0 + processed_count st, e1) /\
                 0 <= e1 <= 0 + error_count st.
Proof.
  apply (job_counters_follow_the_call (calm burst) (discovered 1 100) (service_call None) 0 0).
  - unfold unique_ids. apply (bool_decide_unpack _). vm_compute. exact I.
  - reflexivity.
Defined.

(** ** The run routine of the service *)

Lemma job_ids_bounded (jl : list job_row) (j : job_row) :
  In j jl -> job_id j <= foldr Z.max 0 (map job_id jl).
Proof.
  induction jl as [|j0 jl IH]; intros Hin; [destruct Hin|].
  cbn [map foldr]. destruct Hin as [->|Hin]; [lia|]. specialize (IH Hin). lia.
Qed.

Lemma find_in_app {A : Type} (P : A -> bool) (l1 l2 : list A) :
  List.find P (l1 ++ l2) =
    match List.find P l1 with Some x => Some x | None => List.find P l2 end.
Proof.
  induction l1 as [|x l1 IH]; [reflexivity|].
  cbn [app List.find]. destruct (P x); [reflexivity | exact IH].
Qed.

Lemma create_job_is_pending (db : PIIDatabase) (dir : string) :
  job_status_of (create_job db dir).2 (create_job db dir).1 = Some "pending" /\
  files (create_job db dir).2 = files db /\
  (forall j, j <> (create_job db dir).1 ->
     job_status_of (create_job db dir).2 j = job_status_of db j).
Proof.
  unfold create_job, job_status_of. cbn [fst snd with_jobs jobs files].
  set (id := 1 + foldr Z.max 0 (map job_id (jobs db))).
  split; [|split; [reflexivity|]].
  - rewrite find_in_app.
    assert (Hn : List.find (fun j => job_id j =? id) (jobs db) = None).
    { destruct (List.find _ _) as [j|] eqn:E; [|reflexivity].
      apply find_some in E as [Hin Hid]. apply Z.eqb_eq in Hid.
      pose proof (job_ids_bounded _ _ Hin). unfold id in Hid. lia. }
    rewrite Hn. cbn [List.find job_id]. rewrite Z.eqb_refl. reflexivity.
  - intros j Hj. rewrite find_in_app.
    destruct (List.find (fun x => job_id x =? j) (jobs db)); [reflexivity|].
    cbn [List.find job_id]. replace (id =? j) with false; [reflexivity|].
    symmetry. apply Z.eqb_neq. congruence.
Qed.







(** With three files and the worker of the second one hanging, the
    batch runs out of time and the routine never ends: the service stays
    in PROCESSING with the job 'running', the first and the third file
    settled and the second one in processing. *)
Lemma run_analysis_with_a_stuck_worker :
  exists self' db',
    _run_analysis (a_stuck_walk 3) a_configuration
      (a_service IDLE "/data" "/app/db/pii_results.db") an_empty_store = Some (self', db') /\
    _state self' = PROCESSING /\ is_running self' = true /\ can_stop self' = true /\
    job_status_of db' 1 = Some "running" /\
    map status (files db') = [FileCompleted; FileProcessing; FileCompleted].
Proof. eexists _, _. split; [vm_compute; reflexivity|]. vm_compute. repeat split. Qed.

Lemma replay_progress_keeps (stop_at : nat -> bool) (completed_at : nat -> Z)
    (sink : list progress_event) (key : string) :
  key <> "files_completed" ->
  forall i progress,
    replay_progress stop_at completed_at i sink progress !! key = progress !! key.
Proof.
  intros Hk. induction sink as [|ev sink IH]; intros i progress; [reflexivity|].
  cbn [replay_progress]. rewrite IH. unfold service_progress_callback.
  destruct (stop_at i); [reflexivity|].
  destruct (bool_decide _); [|reflexivity].
  apply lookup_insert_ne. congruence.
Qed.

(** X22. When the scheduler returns and no stop was requested, the
    service always ends COMPLETED and writes 'completed' as the job
    status, whatever is left in the table: the scheduler is called
    without [max_files] and so never returns 'interrupted', which makes
    the final 'interrupted' branch of [_run_analysis] unreachable.  The
    progress then still shows the number of files the walk added. *)
Theorem run_analysis_completes_unless_stopped (renv : run_environment)
    (cfg : configuration) (self : AnalysisService) (db : PIIDatabase) (added : Z) :
  scan_end renv = inr added -> stop_after_scan renv = false ->
  pending_count
    (scan_store renv (create_job db (_data_path self)).2
       (create_job db (_data_path self)).1 (_data_path self))
    (create_job db (_data_path self)).1 <> 0%nat ->
  stop_after_processing renv = false ->
  exists r,
    process_files_parallel (scheduler_environment renv)
      (update_job_status
         (scan_store renv (create_job db (_data_path self)).2
            (create_job db (_data_path self)).1 (_data_path self))
         (create_job db (_data_path self)).1 "running")
      (scheduler_call cfg (create_job db (_data_path self)).1 (scheduler_stop renv))
      = Some r /\
    forall v, run_completion r = returns v ->
      ret_status v = "completed" /\
      exists self',
        _run_analysis renv cfg self db
          = Some (self',
                  update_job_status (run_db r) (create_job db (_data_path self)).1
                    "completed") /\
        _state self' = COMPLETED /\
        _progress self' !! "files_discovered" = Some added.
Proof.
  intros Hscan Hstop Hpend Hafter.
  destruct (process_files_parallel_total (scheduler_environment renv)
              (update_job_status
                 (scan_store renv (create_job db (_data_path self)).2
                    (create_job db (_data_path self)).1 (_data_path self))
                 (create_job db (_data_path self)).1 "running")
              (scheduler_call cfg (create_job db (_data_path self)).1 (scheduler_stop renv)))
    as (r & Hr).
  exists r. split; [exact Hr|]. intros v Hv.
  assert (Hc : ret_status v = "completed").
  { eapply interrupted_needs_max_files; [|exact Hr|exact Hv]. reflexivity. }
  split; [exact Hc|].
  unfold _run_analysis.
  destruct (create_job db (_data_path self)) as [job db1]. cbn [fst snd] in *.
  rewrite Hscan, Hstop.
  destruct (pending_count _ job =? 0)%nat eqn:E; [apply Nat.eqb_eq in E; contradiction|].
  rewrite Hr. cbn [mbind option_bind]. rewrite Hv, Hafter, Hc.
  rewrite (bool_decide_eq_true_2 _ eq_refl).
  eexists. split; [reflexivity|]. split; [reflexivity|].
  cbn [with_service _progress].
  rewrite replay_progress_keeps by discriminate. apply lookup_insert_eq.
Qed.

Lemma run_analysis_completes_unless_stopped_witness :
  exists r,
    process_files_parallel (calm (fun _ => succeeding (1 # 1)))
      (update_job_status
         (scan_store (a_walk 3) (create_job an_empty_store "/data").2 1 "/data") 1 "running")
      (scheduler_call a_configuration 1 never_set) = Some r /\
    forall v, run_completion r = returns v -> ret_status v = "completed".
Proof.
  destruct (run_analysis_completes_unless_stopped (a_walk 3) a_configuration
              (a_service IDLE "/data" "/app/db/pii_results.db") an_empty_store 3)
    as (r & Hr & H).
  - reflexivity.
  - reflexivity.
  - vm_compute. discriminate.
  - reflexivity.
  - exists r. split; [exact Hr|]. intros v Hv. apply (H v Hv).
Defined.

(** X23. The job row can disagree with the state of the service, given
    that the directory walk leaves the job table alone.  A walk that
    raises leaves the service in ERROR and the job 'pending'; a stop
    noticed after the walk leaves the service IDLE and the job
    'pending'; a walk that finds no file leaves the service COMPLETED
    and the job 'pending', not 'completed'; and a scheduler call that
    ends with an exception leaves the service in ERROR and the job
    'running'.  In no case is the job status set to 'error'. *)
Theorem run_analysis_leaves_job_status_behind (renv : run_environment)
    (cfg : configuration) (self : AnalysisService) (db : PIIDatabase) :
  let job := (create_job db (_data_path self)).1 in
  let db1 := (create_job db (_data_path self)).2 in
  let db2 := scan_store renv db1 job (_data_path self) in
  jobs db2 = jobs db1 ->
  exists self' db', _run_analysis renv cfg self db = Some (self', db') /\
    job_status_of db' job <> Some "error" /\
    ((exists e, scan_end renv = inl e) ->
       _state self' = ERROR /\ job_status_of db' job = Some "pending") /\
    (forall added, scan_end renv = inr added ->
       (stop_after_scan renv = true ->
          _state self' = IDLE /\ job_status_of db' job = Some "pending") /\
       (stop_after_scan renv = false -> pending_count db2 job = 0%nat ->
          _state self' = COMPLETED /\ job_status_of db' job = Some "pending") /\
       (stop_after_scan renv = false -> pending_count db2 job <> 0%nat ->
          _state self' = ERROR -> job_status_of db' job = Some "running")).
Proof.
  intros job db1 db2 Hjobs.
  destruct (create_job_is_pending db (_data_path self)) as (Hnew & _ & _).
  fold job db1 in Hnew.
  assert (Hp : job_status_of db2 job = Some "pending").
  { unfold job_status_of in *. rewrite Hjobs. exact Hnew. }
  assert (Hrun : job_status_of (update_job_status db2 job "running") job = Some "running").
  { rewrite job_status_of_update_job_status, Z.eqb_refl, Hp. reflexivity. }
  unfold _run_analysis. subst job db1 db2.
  destruct (create_job db (_data_path self)) as [job db1]. cbn [fst snd] in *.
  destruct (scan_end renv) as [e|added].
  { eexists _, _. split; [reflexivity|]. split; [rewrite Hp; discriminate|].
    split; [intros _; split; [reflexivity | exact Hp]|]. intros added0 H. discriminate. }
  destruct (stop_after_scan renv).
  { eexists _, _. split; [reflexivity|]. split; [rewrite Hp; discriminate|].
    split; [intros (e & He); discriminate|]. intros added0 _.
    repeat split; try discriminate; exact Hp. }
  destruct (pending_count _ job =? 0)%nat eqn:E.
  { apply Nat.eqb_eq in E.
    eexists _, _. split; [reflexivity|]. split; [rewrite Hp; discriminate|].
    split; [intros (e & He); discriminate|]. intros added0 _.
    repeat split; try discriminate; exact Hp. }
  apply Nat.eqb_neq in E.
  destruct (job_status_is_written_by_call (scheduler_environment renv)
              (update_job_status (scan_store renv db1 job (_data_path self)) job "running")
              (scheduler_call cfg job (scheduler_stop renv)))
    as (r & Hr & Hret & Hraise & Hblock).
  rewrite Hr. cbn [mbind option_bind].
  cbn [scheduler_call arg_job_id] in Hret, Hraise, Hblock.
  destruct (run_completion r) as [v|e|] eqn:Ec.
  - assert (Hany : forall s, s <> "error" ->
              job_status_of (update_job_status (run_db r) job s) job <> Some "error").
    { intros s Hs. rewrite job_status_of_update_job_status, Z.eqb_refl.
      destruct (job_status_of (run_db r) job); cbn; congruence. }
    destruct (stop_after_processing renv);
      [|destruct (bool_decide (ret_status v = "completed"))];
      (eexists _, _; split; [reflexivity|]; split; [apply Hany; discriminate|];
       split; [intros (e & He); discriminate|]; intros added0 _;
       repeat split; try discriminate; try contradiction).
  - eexists _, _. split; [reflexivity|].
    rewrite (Hraise e eq_refl), Hrun.
    split; [discriminate|]. split; [intros (e0 & He); discriminate|]. intros added0 _.
    repeat split; try discriminate; try contradiction.
  - eexists _, _. split; [reflexivity|].
    rewrite (Hblock eq_refl), Hrun.
    split; [discriminate|]. split; [intros (e0 & He); discriminate|]. intros added0 _.
    repeat split; try discriminate; try contradiction.
Qed.

Lemma run_analysis_leaves_job_status_behind_witness :
  exists self' db',
    _run_analysis (a_walk 0) a_configuration
      (a_service IDLE "/data" "/app/db/pii_results.db") an_empty_store = Some (self', db') /\
    job_status_of db' 1 <> Some "error".
Proof.
  destruct (run_analysis_leaves_job_status_behind (a_walk 0) a_configuration
              (a_service IDLE "/data" "/app/db/pii_results.db") an_empty_store)
    as (self' & db' & Hrun & Hne & _).
  - reflexivity.
  - exists self', db'. split; [exact Hrun | exact Hne].
Defined.

(** ** Report helpers *)

(** X24. Masking keeps the length of the detected text and shows at
    most its first two and last two characters: a text of more than
    four characters keeps exactly those and has every character between
    them replaced, a text of four characters or fewer is replaced
    entirely. *)
Theorem mask_text_hides_the_middle {A : Type} (star : A) (text : list A) :
  length (mask_text star text) = length text /\
  forall i, (i < length text)%nat ->
    mask_text star text !! i =
      if (4 <? length text)%nat && ((i <? 2)%nat || (length text - 2 <=? i)%nat)
      then text !! i else Some star.
Proof.
  unfold mask_text. destruct (4 <? length text)%nat eqn:E.
  - apply Nat.ltb_lt in E. split.
    + rewrite !length_app, length_take, length_replicate, length_drop. lia.
    + intros i Hi. cbn [andb].
      destruct (i <? 2)%nat eqn:E1; cbn [orb].
      * apply Nat.ltb_lt in E1.
        rewrite lookup_app_l by (rewrite length_take; lia).
        apply lookup_take_lt. exact E1.
      * apply Nat.ltb_ge in E1.
        rewrite lookup_app_r by (rewrite length_take; lia).
        rewrite length_take. replace (2 `min` length text)%nat with 2%nat by lia.
        destruct (length text - 2 <=? i)%nat eqn:E2.
        -- apply Nat.leb_le in E2.
           rewrite lookup_app_r by (rewrite length_replicate; lia).
           rewrite length_replicate, lookup_drop. f_equal. lia.
        -- apply Nat.leb_gt in E2.
           rewrite lookup_app_l by (rewrite length_replicate; lia).
           apply lookup_replicate_2. lia.
  - split; [apply length_replicate|]. intros i Hi. cbn [andb].
    apply lookup_replicate_2. exact Hi.
Qed.

(** X25. The path shown for a file never takes more than 70
    characters: a path of at most 70 characters is shown as it is, a
    longer one as three dots followed by its last 67 characters. *)
Theorem display_path_fits {A : Type} (dot : A) (file_path : list A) :
  (length (display_path dot file_path) <= 70)%nat /\
  ((length file_path <= 70)%nat -> display_path dot file_path = file_path) /\
  ((70 < length file_path)%nat ->
     exists tail, display_path dot file_path = [dot; dot; dot] ++ tail /\
                  length tail = 67%nat /\ tail `suffix_of` file_path).
Proof.
  unfold display_path. destruct (length file_path <=? 70)%nat eqn:E.
  - apply Nat.leb_le in E. repeat split; [exact E|]. intros H. lia.
  - apply Nat.leb_gt in E. split; [|split].
    + rewrite length_app, length_drop. cbn [length]. lia.
    + intros H. lia.
    + intros _. eexists. split; [reflexivity|]. split.
      * rewrite length_drop. lia.
      * apply suffix_drop.
Qed.

Lemma display_path_fits_witness :
  display_path "." ["/data"; "/"; "f1"] = ["/data"; "/"; "f1"].
Proof.
  apply (display_path_fits "." ["/data"; "/"; "f1"]).
  vm_compute. lia.
Defined.

Lemma sum_bounds_member (l : list Z) (v : Z) :
  Forall (fun x => 0 <= x) l -> In v l -> v <= foldr Z.add 0 l.
Proof.
  induction l as [|x l IH]; intros Hall Hin; [destruct Hin|].
  apply Forall_cons in Hall as [Hx Hall]. cbn [foldr].
  assert (0 <= foldr Z.add 0 l).
  { clear -Hall. induction Hall; cbn [foldr]; lia. }
  destruct Hin as [->|Hin]; [lia|]. specialize (IH Hall Hin). lia.
Qed.

(** X26. The two risk verdicts of the report disagree on bank account
    numbers.  Whenever the executive summary reads HIGH RISK, the entity
    analysis shows its high-risk callout; but statistics whose only
    high-risk entries are bank account numbers show the callout while
    the summary reads MODERATE RISK. *)
Theorem bank_numbers_do_not_raise_the_summary (entity_stats : gmap string Z) :
  (risk_assessment entity_stats = HIGH_RISK ->
     exists e n, high_risk_found entity_stats !! e = Some n) /\
  (forall n,
     (forall k v, entity_stats !! k = Some v -> 0 <= v) ->
     entity_stats !! "US_BANK_NUMBER" = Some n -> 0 < n ->
     (forall e, In e high_risk_entities -> default 0 (entity_stats !! e) = 0) ->
     risk_assessment entity_stats = MODERATE_RISK /\
     high_risk_found entity_stats !! "US_BANK_NUMBER" = Some n).
Proof.
  split.
  - unfold risk_assessment. destruct (0 <? high_risk_count entity_stats) eqn:E;
      [|destruct (0 <? total_entities entity_stats); discriminate].
    intros _. apply Z.ltb_lt in E.
    unfold high_risk_count, high_risk_entities in E. cbn [map foldr] in E.
    assert (H : exists e, In e high_risk_types /\ 0 < default 0 (entity_stats !! e)).
    { destruct (Z_lt_dec 0 (default 0 (entity_stats !! "US_SSN")));
        [eexists; split; [|eassumption]; cbn; auto|].
      destruct (Z_lt_dec 0 (default 0 (entity_stats !! "CREDIT_CARD")));
        [eexists; split; [|eassumption]; cbn; auto|].
      destruct (Z_lt_dec 0 (default 0 (entity_stats !! "US_DRIVER_LICENSE")));
        [eexists; split; [|eassumption]; cbn; auto|].
      destruct (Z_lt_dec 0 (default 0 (entity_stats !! "US_PASSPORT")));
        [eexists; split; [|eassumption]; cbn; auto 6|].
      lia. }
    destruct H as (e & He & Hpos).
    destruct (entity_stats !! e) as [v|] eqn:Ev; cbn in Hpos; [|lia].
    exists e, v. unfold high_risk_found. apply map_lookup_filter_Some.
    split; [exact Ev|]. cbn. split; [apply list_elem_of_In, He | exact Hpos].
  - intros n Hnn Hb Hn Hnone. split.
    + unfold risk_assessment.
      assert (H0 : high_risk_count entity_stats = 0).
      { unfold high_risk_count, high_risk_entities in *. cbn [map foldr].
        rewrite !Hnone by (cbn; auto 6). reflexivity. }
      rewrite H0. cbn.
      assert (Ht : n <= total_entities entity_stats).
      { unfold total_entities. apply sum_bounds_member.
        - apply Forall_forall. intros v Hv.
          apply list_elem_of_In, in_map_iff in Hv as ([k v'] & <- & Hkv).
          apply list_elem_of_In, elem_of_map_to_list in Hkv. exact (Hnn k v' Hkv).
        - apply in_map_iff. exists ("US_BANK_NUMBER", n). split; [reflexivity|].
          apply list_elem_of_In, elem_of_map_to_list, Hb. }
      destruct (0 <? total_entities entity_stats) eqn:E; [reflexivity|].
      apply Z.ltb_ge in E. lia.
    + unfold high_risk_found. apply map_lookup_filter_Some.
      split; [exact Hb|]. cbn. split; [|exact Hn].
      unfold high_risk_types. set_solver.
Qed.

Lemma bank_numbers_do_not_raise_the_summary_witness :
  risk_assessment {["US_BANK_NUMBER" := 3; "EMAIL_ADDRESS" := 12]} = MODERATE_RISK.
Proof.
  destruct (bank_numbers_do_not_raise_the_summary
              {["US_BANK_NUMBER" := 3; "EMAIL_ADDRESS" := 12]}) as [_ H].
  apply (H 3).
  - intros k v Hkv.
    destruct (decide (k = "US_BANK_NUMBER")) as [->|Hk1].
    + rewrite lookup_insert_eq in Hkv. injection Hkv as <-. lia.
    + rewrite lookup_insert_ne in Hkv by congruence.
      destruct (decide (k = "EMAIL_ADDRESS")) as [->|Hk2].
      * rewrite lookup_singleton_eq in Hkv. injection Hkv as <-. lia.
      * rewrite lookup_singleton_ne in Hkv by congruence. discriminate.
  - reflexivity.
  - lia.
  - intros e He. cbn in He.
    destruct He as [<-|[<-|[<-|[<-|[]]]]]; reflexivity.
Defined.

